(** * Hangman: game environment, letter predictor and Q-learning agent

  A shallow embedding of [hangman_env.py], [hangman_hmm.py] and
  [hangman_agent.py].

  Conventions of the embedding.
  - A Python [str] is a [string]; Python has no character type, so the
    items obtained by iterating over a [str] are one-character strings
    ([chars]).  Characters are ASCII.
  - A Python [int] is a [Z]; a Python [float] is an exact rational [Q]
    (rounding is not modelled), compared with [==].
  - A [dict] is a [gmap], a [set] is a [gset].
  - A Python exception ([IndexError], [ZeroDivisionError]) is the [None]
    of an [option] result. *)

From Stdlib Require Import Ascii String QArith Qminmax Lqa.
From stdpp Require Import gmap strings list fin_maps sorting.

#[local] Set Warnings "-clear-no-such-hyp".

Local Open Scope Z_scope.
Local Open Scope string_scope.

(** ** Python strings *)

Module PyStr.

(** [c.lower()] on one ASCII character. *)
Definition lower_ascii (c : ascii) : ascii :=
  let n := nat_of_ascii c in
  if ((65 <=? n)%nat && (n <=? 90)%nat)%bool then ascii_of_nat (n + 32) else c.

(** [s.lower()]. *)
Fixpoint lower (s : string) : string :=
  match s with
  | EmptyString => EmptyString
  | String c s' => String (lower_ascii c) (lower s')
  end.

(** The one-character string holding [c]. *)
Definition chr (c : ascii) : string := String c EmptyString.

(** [list(s)], also the items of [for ch in s]. *)
Fixpoint chars (s : string) : list string :=
  match s with
  | EmptyString => []
  | String c s' => chr c :: chars s'
  end.

(** [''.join(l)]. *)
Fixpoint join (l : list string) : string :=
  match l with
  | [] => EmptyString
  | x :: l' => x +:+ join l'
  end.

(** [c * n] for a string [c]. *)
Fixpoint repeat_str (c : string) (n : nat) : string :=
  match n with
  | O => EmptyString
  | S n' => c +:+ repeat_str c n'
  end.

(** [sub in s]: Python's substring test. *)
Fixpoint str_in (sub s : string) : bool :=
  String.prefix sub s
  || match s with
     | EmptyString => false
     | String _ s' => str_in sub s'
     end.

(** [c.isalpha()] on one ASCII character. *)
Definition isalpha_ascii (c : ascii) : bool :=
  let n := nat_of_ascii c in
  (((65 <=? n)%nat && (n <=? 90)%nat) || ((97 <=? n)%nat && (n <=? 122)%nat))%bool.

(** [s.isalpha()]: non-empty and every character alphabetic. *)
Definition isalpha (s : string) : bool :=
  match s with
  | EmptyString => false
  | _ => forallb isalpha_ascii (list_ascii_of_string s)
  end.

(** A single lowercase letter ['a'..'z']. *)
Definition is_lower_letter (s : string) : bool :=
  match s with
  | String c EmptyString =>
      let n := nat_of_ascii c in ((97 <=? n)%nat && (n <=? 122)%nat)%bool
  | _ => false
  end.

(** The literal ['abcdefghijklmnopqrstuvwxyz']. *)
Definition alphabet_str : string := "abcdefghijklmnopqrstuvwxyz".

(** [set('abcdefghijklmnopqrstuvwxyz')]. *)
Definition alphabet : gset string := list_to_set (chars alphabet_str).

#[global] Typeclasses Opaque alphabet.

End PyStr.
Import PyStr.

(** ** The game environment ([hangman_env.py]) *)

Module Env.

(** The attributes of a [HangmanEnvironment] from its first [reset] on
    (before that, [target_word] and [masked_word] are [None]). *)
Record HangmanEnvironment := mkEnv {
  max_wrong : Z;
  word_list : list string;
  target_word : string;
  masked_word : string;
  guessed_letters : gset string;
  wrong_guesses : Z;
  game_over : bool;
  won : bool
}.

(** The dictionary built by [_get_state]. *)
Record GameState := mkState {
  st_masked_word : string;
  st_guessed_letters : gset string;
  st_wrong_guesses : Z;
  st_lives_remaining : Z;
  st_game_over : bool;
  st_won : bool;
  st_target_word : string
}.

(** The text of [info['msg']], kept structured. *)
Inductive Msg :=
| MsgAlready (letter : string)
| MsgCorrect (letter : string) (occurrences : Z)
| MsgWon (target : string)
| MsgWrong (letter : string)
| MsgLost (target : string).

Record Info := mkInfo {
  repeated : bool;
  correct : bool;
  msg : Msg
}.

Definition _get_state (e : HangmanEnvironment) : GameState :=
  {| st_masked_word := masked_word e;
     st_guessed_letters := guessed_letters e;
     st_wrong_guesses := wrong_guesses e;
     st_lives_remaining := max_wrong e - wrong_guesses e;
     st_game_over := game_over e;
     st_won := won e;
     st_target_word := target_word e |}.

(** [reset(word)].  With [word = None] the target is
    [random.choice(self.word_list)]; [r] is the index drawn, and an empty
    word list raises. *)
Definition reset (e : HangmanEnvironment) (word : option string) (r : nat)
  : option HangmanEnvironment :=
  target ← match word with
           | None => word_list e !! (r mod length (word_list e))%nat
           | Some w => Some (lower w)
           end;
  Some {| max_wrong := max_wrong e;
          word_list := word_list e;
          target_word := target;
          masked_word := repeat_str "_" (String.length target);
          guessed_letters := ∅;
          wrong_guesses := 0;
          game_over := false;
          won := false |}.

(** The loop of [step] over [enumerate(self.target_word)]: [i] is the
    index of the first item of [target]; the result is [new_masked] and
    [occurrences], or [None] when [new_masked[i] = letter] is out of
    range. *)
Fixpoint reveal (letter : string) (target : list string) (i : nat)
    (new_masked : list string) (occurrences : Z) : option (list string * Z) :=
  match target with
  | [] => Some (new_masked, occurrences)
  | char :: target' =>
      if decide (char = letter) then
        if decide (i < length new_masked)%nat then
          reveal letter target' (S i) (<[i := letter]> new_masked) (occurrences + 1)
        else None
      else reveal letter target' (S i) new_masked occurrences
  end.

(** Assignments to the attributes that [step] writes. *)
Definition set_guessed (e : HangmanEnvironment) (g : gset string) :=
  {| max_wrong := max_wrong e; word_list := word_list e;
     target_word := target_word e; masked_word := masked_word e;
     guessed_letters := g; wrong_guesses := wrong_guesses e;
     game_over := game_over e; won := won e |}.

Definition set_masked (e : HangmanEnvironment) (m : string) :=
  {| max_wrong := max_wrong e; word_list := word_list e;
     target_word := target_word e; masked_word := m;
     guessed_letters := guessed_letters e; wrong_guesses := wrong_guesses e;
     game_over := game_over e; won := won e |}.

Definition set_wrong (e : HangmanEnvironment) (w : Z) :=
  {| max_wrong := max_wrong e; word_list := word_list e;
     target_word := target_word e; masked_word := masked_word e;
     guessed_letters := guessed_letters e; wrong_guesses := w;
     game_over := game_over e; won := won e |}.

Definition set_game_over (e : HangmanEnvironment) (b : bool) :=
  {| max_wrong := max_wrong e; word_list := word_list e;
     target_word := target_word e; masked_word := masked_word e;
     guessed_letters := guessed_letters e; wrong_guesses := wrong_guesses e;
     game_over := b; won := won e |}.

Definition set_won (e : HangmanEnvironment) (b : bool) :=
  {| max_wrong := max_wrong e; word_list := word_list e;
     target_word := target_word e; masked_word := masked_word e;
     guessed_letters := guessed_letters e; wrong_guesses := wrong_guesses e;
     game_over := game_over e; won := b |}.

(** [step(letter)]: the environment after the call and the returned
    [(state, reward, done, info)]. *)
Definition step (e : HangmanEnvironment) (letter : string)
  : option (HangmanEnvironment * (GameState * Z * bool * Info)) :=
  let letter := lower letter in
  let repeated := bool_decide (letter ∈ guessed_letters e) in
  let e := set_guessed e ({[ letter ]} ∪ guessed_letters e) in
  '(e, reward, info) ←
    (if repeated then
       Some (e, -2, mkInfo repeated false (MsgAlready letter))
     else if str_in letter (target_word e) then
       '(new_masked, occurrences) ←
         reveal letter (chars (target_word e)) 0 (chars (masked_word e)) 0;
       let e := set_masked e (join new_masked) in
       let reward := 10 * occurrences in
       if negb (str_in "_" (masked_word e)) then
         Some (set_game_over (set_won e true) true, reward + 100,
               mkInfo repeated true (MsgWon (target_word e)))
       else
         Some (e, reward, mkInfo repeated true (MsgCorrect letter occurrences))
     else
       let e := set_wrong e (wrong_guesses e + 1) in
       let reward := -5 in
       if bool_decide (max_wrong e <= wrong_guesses e) then
         Some (set_game_over e true, reward - 50,
               mkInfo repeated false (MsgLost (target_word e)))
       else
         Some (e, reward, mkInfo repeated false (MsgWrong letter)));
  Some (e, (_get_state e, reward, game_over e, info)).

(** [get_available_actions()], as the set it lists. *)
Definition get_available_actions (e : HangmanEnvironment) : gset string :=
  alphabet ∖ guessed_letters e.

(** A fresh environment object with the given life budget and corpus. *)
Definition init (mw : Z) (ws : list string) : HangmanEnvironment :=
  mkEnv mw ws "" "" ∅ 0 false false.

(** Feeding a list of guesses to [step], one after the other. *)
Fixpoint run (e : HangmanEnvironment) (letters : list string)
  : option HangmanEnvironment :=
  match letters with
  | [] => Some e
  | l :: letters' => '(e', _) ← step e l; run e' letters'
  end.

End Env.

(** ** Python numbers and dictionaries of numbers *)

Module PyNum.

Local Open Scope Q_scope.

(** [sum(xs)]: starts from [0] and adds from the left. *)
Definition sum (xs : list Q) : Q := foldl Qplus 0 xs.

(** [d.values()] of a dictionary keyed by strings. *)
Definition values (d : gmap string Q) : list Q := (map_to_list d).*2.

(** [{k: v / total for k, v in d.items()}]: the division is evaluated once
    per item, so a zero [total] raises exactly when [d] has an item. *)
Definition div_all (d : gmap string Q) (total : Q) : option (gmap string Q) :=
  if Qeq_bool total 0 then
    if decide (d = ∅) then Some ∅ else None
  else Some ((λ v, v / total) <$> d).

(** [d[k] += x] on a [defaultdict] (or [d[k] = d.get(k, 0) + x]). *)
Definition add_to (k : string) (x : Q) (d : gmap string Q) : gmap string Q :=
  <[k := default 0 (d !! k) + x]> d.

(** [x < y] on numbers. *)
Definition Qltb (x y : Q) : bool := negb (Qle_bool y x).

(** [max(xs)]: the first maximal item; [None] for the empty sequence
    (where Python raises). *)
Definition py_max (xs : list Q) : option Q :=
  match xs with
  | [] => None
  | x :: rest => Some (foldl (λ best y, if Qltb best y then y else best) x rest)
  end.

End PyNum.
Import PyNum.

(** ** The letter predictor ([hangman_hmm.py]) *)

Module HMM.

Local Open Scope Q_scope.

(** The dictionary returned by [_train_length_model]. *)
Record LengthModel := mkModel {
  emission_probs : list (gmap string Q);
  words : list string
}.

Record HangmanHMM := mkHMM {
  models : gmap nat LengthModel;
  letter_frequencies : gmap nat (gmap string Q)
}.

(** [HangmanHMM()]. *)
Definition init : HangmanHMM := mkHMM ∅ ∅.

(** *** Training *)

(** The inner loop of [_train_length_model] over [enumerate(word)], from
    position [pos] on; indexing past [length] raises. *)
Fixpoint count_word (word : list string) (pos : nat)
    (counts : list (gmap string Q) * list Q)
  : option (list (gmap string Q) * list Q) :=
  match word with
  | [] => Some counts
  | letter :: word' =>
      let '(emission_counts, position_totals) := counts in
      c ← emission_counts !! pos;
      t ← position_totals !! pos;
      count_word word' (S pos)
        (<[pos := add_to letter 1 c]> emission_counts,
         <[pos := t + 1]> position_totals)
  end.

Fixpoint count_words (ws : list string)
    (counts : list (gmap string Q) * list Q)
  : option (list (gmap string Q) * list Q) :=
  match ws with
  | [] => Some counts
  | word :: ws' => counts' ← count_word (chars word) 0 counts; count_words ws' counts'
  end.

(** The second loop of [_train_length_model], [for pos in range(length)]. *)
Fixpoint to_probs (emission_counts : list (gmap string Q)) (position_totals : list Q)
    (pos : nat) (n : nat) : option (list (gmap string Q)) :=
  match n with
  | O => Some []
  | S n' =>
      c ← emission_counts !! pos;
      pos_probs ← (if decide (c = ∅) then Some ∅
                   else t ← position_totals !! pos; div_all c t);
      rest ← to_probs emission_counts position_totals (S pos) n';
      Some (pos_probs :: rest)
  end.

Definition _train_length_model (ws : list string) (length : nat) : option LengthModel :=
  '(emission_counts, position_totals) ←
    count_words ws (replicate length ∅, replicate length 0);
  emission_probs ← to_probs emission_counts position_totals 0 length;
  Some {| emission_probs := emission_probs; words := ws |}.

(** [Counter(s)]. *)
Definition counter (s : string) : gmap string Q :=
  foldl (λ acc letter, add_to letter 1 acc) ∅ (chars s).

Definition _calculate_frequencies (ws : list string) : option (gmap string Q) :=
  let all_letters := join ws in
  let total := inject_Z (Z.of_nat (String.length all_letters)) in
  div_all (counter all_letters) total.

(** The grouping loop of [train]: [words_by_length[len(word)].append(word)]
    for the alphabetic words. *)
Definition group_by_length (ws : list string) : gmap nat (list string) :=
  foldl (λ acc word,
           if isalpha word then
             <[String.length word := (default [] (acc !! String.length word) ++ [word])%list]> acc
           else acc)
        ∅ ws.

(** [train], from the list [words] of stripped, lowercased, non-empty
    lines of the corpus file on.  The models of the lengths seen replace
    those the object already holds. *)
Definition train (h : HangmanHMM) (ws : list string) : option HangmanHMM :=
  map_fold (λ length word_list (acc : option HangmanHMM),
              h ← acc;
              m ← _train_length_model word_list length;
              f ← _calculate_frequencies word_list;
              Some {| models := <[length := m]> (models h);
                      letter_frequencies := <[length := f]> (letter_frequencies h) |})
           (Some h) (group_by_length ws).

(** *** Prediction *)

(** The inner loop of [_filter_matching_words] over
    [enumerate(masked_word)], from index [i] on: the final value of
    [match]. *)
Fixpoint word_matches (word : list string) (guessed_letters : gset string)
    (i : nat) (masked : list string) : option bool :=
  match masked with
  | [] => Some true
  | char :: masked' =>
      w ← word !! i;
      if decide (char ≠ "_") then
        if decide (w ≠ char) then Some false
        else word_matches word guessed_letters (S i) masked'
      else if decide (w ∈ guessed_letters) then Some false
      else word_matches word guessed_letters (S i) masked'
  end.

Fixpoint _filter_matching_words (ws : list string) (masked_word : string)
    (guessed_letters : gset string) : option (list string) :=
  match ws with
  | [] => Some []
  | word :: ws' =>
      if decide (String.length word ≠ String.length masked_word) then
        _filter_matching_words ws' masked_word guessed_letters
      else
        m ← word_matches (chars word) guessed_letters 0 (chars masked_word);
        matching ← _filter_matching_words ws' masked_word guessed_letters;
        Some (if m : bool then word :: matching else matching)
  end.

(** The body of [_position_based_scoring] at one position: the loop over
    [remaining_letters] reads [emission_probs[pos]] at each letter. *)
Definition score_position (emission_probs : list (gmap string Q))
    (remaining_letters : gset string) (pos : nat)
    (letter_scores : gmap string Q) : option (gmap string Q) :=
  if decide (remaining_letters = ∅) then Some letter_scores
  else
    e ← emission_probs !! pos;
    Some (set_fold (λ letter acc,
                      match e !! letter with
                      | Some p => add_to letter p acc
                      | None => acc
                      end)
                   letter_scores remaining_letters).

Fixpoint position_loop (emission_probs : list (gmap string Q))
    (remaining_letters : gset string) (pos : nat) (masked : list string)
    (letter_scores : gmap string Q) : option (gmap string Q) :=
  match masked with
  | [] => Some letter_scores
  | char :: masked' =>
      letter_scores' ←
        (if decide (char = "_") then
           score_position emission_probs remaining_letters pos letter_scores
         else Some letter_scores);
      position_loop emission_probs remaining_letters (S pos) masked' letter_scores'
  end.

Definition _position_based_scoring (masked_word : string)
    (emission_probs : list (gmap string Q)) (remaining_letters : gset string)
  : option (gmap string Q) :=
  position_loop emission_probs remaining_letters 0 (chars masked_word) ∅.

(** The inner loop of [_frequency_based_scoring] over
    [enumerate(masked_word)] for one word. *)
Fixpoint frequency_word (word : list string) (remaining_letters : gset string)
    (pos : nat) (masked : list string) (letter_scores : gmap string Q)
  : option (gmap string Q) :=
  match masked with
  | [] => Some letter_scores
  | char :: masked' =>
      letter_scores' ←
        (if decide (char = "_") then
           letter ← word !! pos;
           Some (if decide (letter ∈ remaining_letters)
                 then add_to letter 1 letter_scores else letter_scores)
         else Some letter_scores);
      frequency_word word remaining_letters (S pos) masked' letter_scores'
  end.

Fixpoint frequency_loop (ws : list string) (masked_word : string)
    (remaining_letters : gset string) (letter_scores : gmap string Q)
  : option (gmap string Q) :=
  match ws with
  | [] => Some letter_scores
  | word :: ws' =>
      letter_scores' ←
        frequency_word (chars word) remaining_letters 0 (chars masked_word) letter_scores;
      frequency_loop ws' masked_word remaining_letters letter_scores'
  end.

Definition _frequency_based_scoring (ws : list string) (masked_word : string)
    (remaining_letters : gset string) : option (gmap string Q) :=
  frequency_loop ws masked_word remaining_letters ∅.

(** The aggregation loop of [_fallback_probabilities] over all the
    per-length tables. *)
Definition aggregate (tables : gmap nat (gmap string Q)) : gmap string Q :=
  map_fold (λ _ freq_dict all_freq,
              map_fold (λ letter prob all_freq, add_to letter prob all_freq)
                       all_freq freq_dict)
           ∅ tables.

Definition _fallback_probabilities (h : HangmanHMM) (guessed_letters : gset string)
    (length : nat) : option (gmap string Q) :=
  freq ← match letter_frequencies h !! length with
         | Some freq => Some freq
         | None =>
             let all_freq := aggregate (letter_frequencies h) in
             let total := sum (values all_freq) in
             div_all all_freq total
         end;
  let remaining := alphabet ∖ guessed_letters in
  let remaining_freq : gmap string Q :=
    set_to_map (λ letter, (letter, default (1 # 100) (freq !! letter))) remaining in
  let total := sum (values remaining_freq) in
  div_all remaining_freq total.

(** The scoring stage of [predict_letter_probabilities]: the value of
    [letter_scores] before it is normalised. *)
Definition letter_scores (model : LengthModel) (masked_word : string)
    (guessed_letters : gset string) : option (gmap string Q) :=
  let remaining_letters := alphabet ∖ guessed_letters in
  matching_words ← _filter_matching_words (words model) masked_word guessed_letters;
  if decide (List.length matching_words < 5)%nat then
    _position_based_scoring masked_word (emission_probs model) remaining_letters
  else
    _frequency_based_scoring matching_words masked_word remaining_letters.

Definition predict_letter_probabilities (h : HangmanHMM) (masked_word : string)
    (guessed_letters : gset string) : option (gmap string Q) :=
  let length := String.length masked_word in
  match models h !! length with
  | None => _fallback_probabilities h guessed_letters length
  | Some model =>
      letter_scores ← letter_scores model masked_word guessed_letters;
      let total := sum (values letter_scores) in
      if Qeq_bool total 0 then
        _fallback_probabilities h guessed_letters length
      else div_all letter_scores total
  end.

End HMM.

(** ** The learning agent ([hangman_agent.py]) *)

Module Agent.

Import Env.
Local Open Scope Q_scope.

(** The key [(masked, guessed, lives)] built by [_get_state_key]. *)
Definition StateKey : Type := string * list string * Z.

(** The attributes of a [HangmanRLAgent]; [q_table] is the
    [defaultdict] of [defaultdict(float)] ([training_stats] is only
    appended to by [train] and is left out). *)
Record HangmanRLAgent := mkAgent {
  hmm : HMM.HangmanHMM;
  learning_rate : Q;
  discount_factor : Q;
  epsilon : Q;
  epsilon_end : Q;
  epsilon_decay : Q;
  q_table : gmap StateKey (gmap string Q)
}.

Definition set_q_table (ag : HangmanRLAgent) (qt : gmap StateKey (gmap string Q)) :=
  {| hmm := hmm ag; learning_rate := learning_rate ag;
     discount_factor := discount_factor ag; epsilon := epsilon ag;
     epsilon_end := epsilon_end ag; epsilon_decay := epsilon_decay ag;
     q_table := qt |}.

(** [HangmanRLAgent(hmm_model)] with the default parameters. *)
Definition init (h : HMM.HangmanHMM) : HangmanRLAgent :=
  mkAgent h (1 # 10) (95 # 100) 1 (1 # 10) (995 # 1000) ∅.

Definition _get_state_key (state : GameState) : StateKey :=
  (st_masked_word state,
   merge_sort String.le (elements (st_guessed_letters state)),
   st_lives_remaining state).

(** Reading [self.q_table[state_key]]: a missing key is inserted with an
    empty inner dictionary. *)
Definition q_row (qt : gmap StateKey (gmap string Q)) (k : StateKey)
  : gmap string Q * gmap StateKey (gmap string Q) :=
  let row := default ∅ (qt !! k) in (row, <[k := row]> qt).

(** Reading [self.q_table[state_key][action]]: a missing action is
    inserted with the value [0.0]. *)
Definition q_read (qt : gmap StateKey (gmap string Q)) (k : StateKey) (action : string)
  : Q * gmap StateKey (gmap string Q) :=
  let '(row, qt) := q_row qt k in
  let v := default 0 (row !! action) in
  (v, <[k := <[action := v]> row]> qt).

(** [self.q_table[state_key][action] = v]. *)
Definition q_write (qt : gmap StateKey (gmap string Q)) (k : StateKey) (action : string)
    (v : Q) : gmap StateKey (gmap string Q) :=
  let '(row, qt) := q_row qt k in <[k := <[action := v]> row]> qt.

(** What [choose_action] returns: a value, or the result of a call to
    the random number generator, which is left as a description of the
    draw. *)
Inductive Choice :=
| Return (a : option string)
| RandomChoice (xs : list string)
| WeightedChoice (xs : list string) (p : list Q).

(** Truthiness of [best_action]: [None] and the empty string are false. *)
Definition truthy (a : option string) : bool :=
  match a with
  | Some s => negb (bool_decide (s = ""))
  | None => false
  end.

(** [combined_score > best_score], where [best_score] starts as
    [-float('inf')], here [None]. *)
Definition exceeds (combined_score : Q) (best_score : option Q) : bool :=
  match best_score with
  | None => true
  | Some b => Qltb b combined_score
  end.

(** The loop of the exploitation branch over [available_actions]. *)
Fixpoint exploit_loop (state_key : StateKey) (hmm_probs : gmap string Q)
    (actions : list string) (qt : gmap StateKey (gmap string Q))
    (best_score : option Q) (best_action : option string)
  : gmap StateKey (gmap string Q) * option Q * option string :=
  match actions with
  | [] => (qt, best_score, best_action)
  | action :: actions' =>
      let '(q_value, qt) := q_read qt state_key action in
      let hmm_score := default (1 # 1000) (hmm_probs !! action) * 10 in
      let combined_score := q_value + hmm_score in
      if exceeds combined_score best_score then
        exploit_loop state_key hmm_probs actions' qt (Some combined_score) (Some action)
      else
        exploit_loop state_key hmm_probs actions' qt best_score best_action
  end.

(** [[p / total for p in probs]]. *)
Fixpoint div_list (probs : list Q) (total : Q) : option (list Q) :=
  match probs with
  | [] => Some []
  | p :: probs' =>
      if Qeq_bool total 0 then None
      else rest ← div_list probs' total; Some (p / total :: rest)
  end.

(** [choose_action(state, available_actions, training)]; [u] is the value
    of [random.random()], drawn only when [training] holds.  The agent is
    returned too, since reading the table inserts entries. *)
Definition choose_action (ag : HangmanRLAgent) (state : GameState)
    (available_actions : list string) (training : bool) (u : Q)
  : option (HangmanRLAgent * Choice) :=
  match available_actions with
  | [] => Some (ag, Return None)
  | _ =>
      hmm_probs ← HMM.predict_letter_probabilities (hmm ag)
                    (st_masked_word state) (st_guessed_letters state);
      if training && Qltb u (epsilon ag) then
        let letters := filter (λ l, l ∈ dom hmm_probs) available_actions in
        match letters with
        | [] => Some (ag, RandomChoice available_actions)
        | _ =>
            let probs := (λ l, default (1 # 1000) (hmm_probs !! l)) <$> letters in
            let total := sum probs in
            probs ← div_list probs total;
            Some (ag, WeightedChoice letters probs)
        end
      else
        let state_key := _get_state_key state in
        let '(qt, _, best_action) :=
          exploit_loop state_key hmm_probs available_actions (q_table ag) None None in
        Some (set_q_table ag qt,
              if truthy best_action then Return best_action
              else RandomChoice available_actions)
  end.

(** [update_q_value(state, action, reward, next_state, done)]. *)
Definition update_q_value (ag : HangmanRLAgent) (state : GameState) (action : string)
    (reward : Q) (next_state : GameState) (done : bool) : HangmanRLAgent :=
  let state_key := _get_state_key state in
  let '(current_q, qt) := q_read (q_table ag) state_key action in
  let '(max_next_q, qt) :=
    if done then (0, qt)
    else
      let next_state_key := _get_state_key next_state in
      let '(next_q_values, qt) := q_row qt next_state_key in
      (default 0 (py_max (values next_q_values)), qt) in
  let new_q :=
    current_q + learning_rate ag * (reward + discount_factor ag * max_next_q - current_q) in
  set_q_table ag (q_write qt state_key action new_q).

(** [decay_epsilon()]. *)
Definition decay_epsilon (ag : HangmanRLAgent) : HangmanRLAgent :=
  let e := epsilon ag * epsilon_decay ag in
  {| hmm := hmm ag; learning_rate := learning_rate ag;
     discount_factor := discount_factor ag;
     epsilon := if Qltb (epsilon_end ag) e then e else epsilon_end ag;
     epsilon_end := epsilon_end ag; epsilon_decay := epsilon_decay ag;
     q_table := q_table ag |}.

End Agent.

(** * Notions used to state the properties *)

(** ** The game environment *)

Module EnvSpec.

Import Env.
Local Open Scope list_scope.

(** The mask that shows exactly the guessed letters of the target. *)
Definition mask_of (g : gset string) (target : list string) : list string :=
  (λ ch, if decide (ch ∈ g) then ch else "_") <$> target.

(** Number of occurrences of [letter] among the characters of a word. *)
Definition occurrences_of (letter : string) (target : list string) : Z :=
  Z.of_nat (length (filter (λ ch, ch = letter) target)).

Arguments mask_of : simpl never.
Arguments occurrences_of : simpl never.

(** The invariant that ties the mask to the target and the guesses. *)
Definition consistent (e : HangmanEnvironment) : Prop :=
  chars (masked_word e) = mask_of (guessed_letters e) (chars (target_word e)).

(** The wrong-guess count of a game in progress is below the budget (or
    still zero, whatever the budget). *)
Definition within_budget (e : HangmanEnvironment) : Prop :=
  0 <= wrong_guesses e ∧
  (game_over e = false → wrong_guesses e = 0 ∨ wrong_guesses e < max_wrong e).

(** States reached from a [reset] of [e0] by guesses that satisfy [P]. *)
Inductive reachable (P : string → Prop) (e0 : HangmanEnvironment)
  : HangmanEnvironment → Prop :=
| reach_reset word r e :
    reset e0 word r = Some e → reachable P e0 e
| reach_step e letter e' out :
    reachable P e0 e → P letter → step e letter = Some (e', out) →
    reachable P e0 e'.

(** Single lowercase letters, as a predicate on guesses. *)
Definition lowercase (l : string) : Prop := is_lower_letter l = true.

(** An episode as the agent's loops drive it: guesses are taken from
    [letters] only while the game is not over. *)
Fixpoint play (e : HangmanEnvironment) (letters : list string)
  : option HangmanEnvironment :=
  match letters with
  | [] => Some e
  | l :: letters' =>
      if game_over e then Some e else '(e', _) ← step e l; play e' letters'
  end.

(** Number of guesses in [letters] that do not occur in the target. *)
Definition misses (target : string) (letters : list string) : Z :=
  Z.of_nat (length (filter (λ l, str_in (lower l) target = false) letters)).

End EnvSpec.

(** ** The letter predictor *)

Module PredictSpec.

Import HMM.
Local Open Scope Q_scope.

(** What the pattern asks of the letter [x] of a candidate word at a
    position where the mask shows [c]: a revealed letter must be that
    letter, an unrevealed position must not hold a guessed letter. *)
Definition position_ok (guessed_letters : gset string) (c x : string) : Prop :=
  (c ≠ "_" → x = c) ∧ (c = "_" → x ∉ guessed_letters).

(** A word is consistent with the pattern: same length, and every
    position is as the pattern asks. *)
Definition consistent_with (masked_word : string) (guessed_letters : gset string)
    (word : string) : Prop :=
  Forall2 (position_ok guessed_letters) (chars masked_word) (chars word).

#[global] Instance position_ok_dec g c x : Decision (position_ok g c x).
Proof. unfold position_ok. apply _. Defined.

#[global] Instance consistent_with_dec m g w : Decision (consistent_with m g w).
Proof. unfold consistent_with. apply _. Defined.

(** A dictionary whose values are all positive. *)
Definition positive (d : gmap string Q) : Prop := ∀ k v, d !! k = Some v → 0 < v.

(** What training establishes of a predictor: the model of a length has
    one emission table per position, and every recorded frequency is
    positive. *)
Definition wf_hmm (h : HangmanHMM) : Prop :=
  (∀ n model, models h !! n = Some model → length (emission_probs model) = n)
  ∧ (∀ n freq, letter_frequencies h !! n = Some freq → positive freq).

(** The counts kept by [_train_length_model]: one table and one total per
    position, the total being positive wherever a letter was counted. *)
Definition counts_ok (n : nat) (counts : list (gmap string Q) * list Q) : Prop :=
  length counts.1 = n ∧ length counts.2 = n
  ∧ ∀ pos c t, counts.1 !! pos = Some c → counts.2 !! pos = Some t →
               0 <= t ∧ (c ≠ ∅ → 0 < t).

(** The dictionary [remaining_freq] of [_fallback_probabilities]. *)
Definition remaining_freq (freq : gmap string Q) (remaining : gset string)
  : gmap string Q :=
  set_to_map (λ letter, (letter, default (1 # 100) (freq !! letter))) remaining.

(** The prediction falls back: no model has the length of the masked
    word, or the scores computed from the model add up to zero. *)
Definition falls_back (h : HangmanHMM) (masked_word : string) (g : gset string)
  : Prop :=
  match models h !! String.length masked_word with
  | None => True
  | Some model =>
      ∃ scores, letter_scores model masked_word g = Some scores
                ∧ sum (values scores) == 0
  end.

End PredictSpec.

(** ** The learning agent *)

Module AgentSpec.

Import Env Agent.
Local Open Scope Q_scope.

(** The entry of the table for a key and an action, if recorded. *)
Definition entry (qt : gmap StateKey (gmap string Q)) (k : StateKey) (action : string)
  : option Q :=
  qt !! k ≫= (.!! action).

(** [Q[s,a]]: the recorded value, [0] for an entry not recorded. *)
Definition q_value (qt : gmap StateKey (gmap string Q)) (k : StateKey) (action : string)
  : Q :=
  default 0 (entry qt k action).

(** The action values recorded for a key. *)
Definition recorded (qt : gmap StateKey (gmap string Q)) (k : StateKey) : list Q :=
  values (default ∅ (qt !! k)).

(** The bootstrap term as the specification words it: [0] when [done]
    holds or when nothing is recorded for the key, else the largest
    recorded value. *)
Definition spec_max_next (qt : gmap StateKey (gmap string Q)) (k : StateKey)
    (done : bool) : Q :=
  if done then 0 else default 0 (py_max (recorded qt k)).

(** The score that the exploitation branch gives a letter. *)
Definition combined_score (qt : gmap StateKey (gmap string Q)) (k : StateKey)
    (hmm_probs : gmap string Q) (letter : string) : Q :=
  q_value qt k letter + default (1 # 1000) (hmm_probs !! letter) * 10.

(** [best] is the first of the letters of [seen] with the largest score. *)
Definition first_best (score : string → Q) (seen : list string) (best : string)
  : Prop :=
  ∃ pre post, seen = (pre ++ best :: post)%list
    ∧ (∀ b, b ∈ seen → score b <= score best)
    ∧ (∀ b, b ∈ pre → score b < score best).

(** What the loop variables hold after the letters of [seen]. *)
Definition loop_state (score : string → Q) (seen : list string)
    (best_score : option Q) (best_action : option string) : Prop :=
  match seen with
  | [] => best_score = None ∧ best_action = None
  | _ => ∃ best, best_action = Some best ∧ best_score = Some (score best)
                 ∧ first_best score seen best
  end.

End AgentSpec.

(** ** Sample inputs *)

Module Samples.

Import Env HMM Agent.
Local Open Scope Q_scope.

(** The corpus of the end-to-end scenario and the predictor trained on
    it. *)
Definition corpus : list string := ["cat"; "dog"; "bat"].

Definition trained : HangmanHMM := default HMM.init (train HMM.init corpus).

(** The environment on the word "cat": fresh, after [reset("cat")], and
    after the guess "a". *)
Definition e0 : HangmanEnvironment := Env.init 6 corpus.

Definition e_reset : HangmanEnvironment :=
  mkEnv 6 corpus "cat" "___" ∅ 0 false false.

Definition e_a : HangmanEnvironment :=
  mkEnv 6 corpus "cat" "_a_" {["a"]} 0 false false.

(** The state after [reset("cat")], and the prediction for it. *)
Definition s_reset : GameState := mkState "___" ∅ 0 6 false false "cat".

Definition probs : gmap string Q :=
  default ∅ (predict_letter_probabilities trained "___" ∅).


(** An agent with one recorded value, for another letter, in that state. *)
Definition novice : HangmanRLAgent :=
  set_q_table (Agent.init trained) {[ _get_state_key s_reset := {[ "b" := -(3) ]} ]}.

End Samples.

(** * The corpus file and further notions *)

(** ** Reading the corpus

    Both classes read the corpus file line by line.  The lines are the
    input here, and [strip], Python's [str.strip], is a parameter. *)

Module Corpus.

Import Env HMM.

(** The comprehension of [HangmanEnvironment.__init__]:
    [[line.strip().lower() for line in f
      if line.strip() and line.strip().isalpha()]]. *)
Definition env_word_list (strip : string → string) (lines : list string)
  : list string :=
  (λ line, lower (strip line))
    <$> filter (λ line, strip line ≠ "" ∧ isalpha (strip line) = true) lines.

(** The comprehension of [HangmanHMM.train]:
    [[line.strip().lower() for line in f if line.strip()]]. *)
Definition hmm_words (strip : string → string) (lines : list string)
  : list string :=
  (λ line, lower (strip line)) <$> filter (λ line, strip line ≠ "") lines.

(** [HangmanEnvironment(word_list_file, max_wrong)] on the lines of the
    file. *)
Definition new_env (strip : string → string) (lines : list string) (max_wrong : Z)
  : HangmanEnvironment :=
  Env.init max_wrong (env_word_list strip lines).

(** [HangmanHMM.train(corpus_file)] on the lines of the file. *)
Definition train_file (strip : string → string) (h : HangmanHMM)
    (lines : list string) : option HangmanHMM :=
  train h (hmm_words strip lines).

(** A string of ASCII characters, those below 128.  On these, and on
    these only, [isalpha] and [lower] above are Python's [str.isalpha]
    and [str.lower], which beyond ASCII know more letters and may change
    the length of a string. *)
Definition ascii_text (s : string) : Prop :=
  Forall (λ c, (nat_of_ascii c < 128)%nat) (list_ascii_of_string s).

(** A corpus file of ASCII text, as far as the two readers look at it. *)
Definition ascii_corpus (strip : string → string) (lines : list string) : Prop :=
  Forall (λ line, ascii_text (strip line)) lines.

End Corpus.

(** ** Notions for the trained tables *)

Module TrainSpec.

Import HMM PredictSpec.
Local Open Scope Q_scope.

(** A probability distribution: positive values that add up to 1. *)
Definition distribution (d : gmap string Q) : Prop :=
  positive d ∧ sum (values d) == 1.

(** The alphabetic words of length [n] of a corpus, in their order. *)
Definition bucket (ws : list string) (n : nat) : list string :=
  filter (λ w, isalpha w = true ∧ String.length w = n) ws.

(** Number of occurrences of [x] in a list of one-character strings. *)
Definition count_of (x : string) (xs : list string) : Z :=
  Z.of_nat (length (filter (λ y, y = x) xs)).

(** The counts of [_train_length_model] while the words are read: [n]
    tables of positive counts, each with its total. *)
Definition rows_ok (n : nat) (counts : list (gmap string Q) * list Q) : Prop :=
  length counts.1 = n ∧ length counts.2 = n
  ∧ ∀ pos c t, counts.1 !! pos = Some c → counts.2 !! pos = Some t →
               positive c ∧ t == sum (values c).

(** The table of position [pos] has counted a letter. *)
Definition filled (emission_counts : list (gmap string Q)) (pos : nat) : Prop :=
  ∃ c, emission_counts !! pos = Some c ∧ c ≠ ∅.

(** A predictor as training leaves it: well formed, with positive emission
    probabilities. *)
Definition wf_trained (h : HangmanHMM) : Prop :=
  wf_hmm h
  ∧ ∀ n model, models h !! n = Some model → Forall positive (emission_probs model).

End TrainSpec.

(** ** Notions for the learning agent *)

Module LearnSpec.

Import Env Agent AgentSpec.
Local Open Scope Q_scope.

(** The agent after [n] episodes of [train], as far as [epsilon] goes:
    [decay_epsilon] is called once at the end of each episode. *)
Definition decayed (n : nat) (ag : HangmanRLAgent) : HangmanRLAgent :=
  Nat.iter n decay_epsilon ag.

(** The attributes of the agent other than the table. *)
Definition settings (ag : HangmanRLAgent) : HMM.HangmanHMM * Q * Q * Q * Q * Q :=
  (hmm ag, learning_rate ag, discount_factor ag, epsilon ag, epsilon_end ag,
   epsilon_decay ag).

(** What a draw described by a [Choice] may give, out of the letters
    [available_actions]: a returned letter is one of them and is not
    empty, [None] is returned only when there is none, a uniform draw is
    over all of them, and a weighted draw is over some of them, with
    positive weights that add up to 1. *)
Definition sound_choice (available_actions : list string) (c : Choice) : Prop :=
  match c with
  | Return None => available_actions = []
  | Return (Some a) => a ∈ available_actions ∧ a ≠ ""
  | RandomChoice xs => xs = available_actions ∧ available_actions ≠ []
  | WeightedChoice xs p =>
      xs ≠ [] ∧ xs ⊆ available_actions ∧ length p = length xs
      ∧ Forall (λ v, 0 < v) p ∧ sum p == 1
  end.

End LearnSpec.

(** ** The game loops of the agent ([train] and [evaluate]) *)

Module Loops.

Import Env HMM Agent.
Local Open Scope Q_scope.

(** What the loops take from outside: the order in which [list(a_set)]
    lists a set, the results of [random.choice], [np.random.choice] and
    [random.random], and the index that [reset] draws.  The first four
    depend on the turn, counted over the whole run; the last one on the
    game. *)
Record Chance := mkChance {
  listing : nat → gset string → list string;
  choice : nat → list string → string;
  weighted : nat → list string → list Q → string;
  uniform : nat → Q;
  word_index : nat → nat
}.

(** The outcome of a loop run with a bound on the number of turns of a
    game: a result, an exception, or the bound was reached. *)
Inductive Run (A : Type) :=
| Ok (a : A)
| Raised
| OutOfFuel.

Arguments Ok {A} a.
Arguments Raised {A}.
Arguments OutOfFuel {A}.

(** The value that [choose_action] returns for a described draw:
    [None] when the draw raises ([random.choice] of an empty list). *)
Definition resolve (O : Chance) (t : nat) (c : Choice) : option (option string) :=
  match c with
  | Return a => Some a
  | RandomChoice xs =>
      match xs with
      | [] => None
      | _ => Some (Some (choice O t xs))
      end
  | WeightedChoice xs p => Some (Some (weighted O t xs p))
  end.

(** One turn of either loop up to [env.step(action)]: the available
    actions are listed, a letter is chosen and played.  A returned [None]
    makes [step] raise ([None.lower()]). *)
Definition turn (O : Chance) (t : nat) (training : bool) (ag : HangmanRLAgent)
    (e : HangmanEnvironment) (state : GameState)
  : option (HangmanRLAgent * string * HangmanEnvironment
            * (GameState * Z * bool * Info)) :=
  let available := listing O t (get_available_actions e) in
  '(ag, c) ← choose_action ag state available training (uniform O t);
  a ← resolve O t c;
  action ← a;
  '(e, out) ← step e action;
  Some (ag, action, e, out).





(** The [while not state['game_over']] loop of [train]. *)
Fixpoint train_game (fuel : nat) (O : Chance) (t : nat) (ag : HangmanRLAgent)
    (e : HangmanEnvironment) (state : GameState) (total_reward wrong : Z)
  : Run (nat * HangmanRLAgent * HangmanEnvironment * GameState * Z * Z) :=
  if st_game_over state then Ok (t, ag, e, state, total_reward, wrong)
  else
    match fuel with
    | 0%nat => OutOfFuel
    | S fuel' =>
        match turn O t true ag e state with
        | None => Raised
        | Some (ag, action, e, (next_state, reward, done, info)) =>
            let total_reward := (total_reward + reward)%Z in
            let wrong :=
              if negb (correct info) && negb (repeated info) then (wrong + 1)%Z
              else wrong in
            let ag := update_q_value ag state action (inject_Z reward) next_state done in
            train_game fuel' O (S t) ag e next_state total_reward wrong
        end
    end.

(** The lists of [training_stats]. *)
Record Stats := mkStats {
  episodes : list nat;
  rewards : list Z;
  stat_wins : list Z;
  stat_wrong_guesses : list Z
}.

Definition no_stats : Stats := mkStats [] [] [] [].

(** The [for episode in range(num_episodes)] loop of [train], from
    episode [episode] on, with [todo] episodes to go. *)
Fixpoint train_episodes (fuel : nat) (O : Chance) (t : nat) (ag : HangmanRLAgent)
    (e : HangmanEnvironment) (stats : Stats) (episode todo : nat)
  : Run (nat * HangmanRLAgent * HangmanEnvironment * Stats) :=
  match todo with
  | 0%nat => Ok (t, ag, e, stats)
  | S todo' =>
      match reset e None (word_index O episode) with
      | None => Raised
      | Some e =>
          match train_game fuel O t ag e (_get_state e) 0 0 with
          | Ok (t, ag, e, state, total_reward, wrong) =>
              let ag := decay_epsilon ag in
              let stats :=
                mkStats (episodes stats ++ [episode])
                        (rewards stats ++ [total_reward])
                        (stat_wins stats ++ [if st_won state then 1 else 0]%Z)
                        (stat_wrong_guesses stats ++ [wrong]) in
              train_episodes fuel O t ag e stats (S episode) todo'
          | Raised => Raised
          | OutOfFuel => OutOfFuel
          end
      end
  end.

(** [train(env, num_episodes)] on an agent whose [training_stats] are
    [stats]. *)
Definition train (fuel : nat) (O : Chance) (ag : HangmanRLAgent)
    (e : HangmanEnvironment) (stats : Stats) (num_episodes : nat)
  : Run (nat * HangmanRLAgent * HangmanEnvironment * Stats) :=
  train_episodes fuel O 0 ag e stats 0 num_episodes.

End Loops.

(** ** The plots ([train_pipeline.py]) *)

Module Pipeline.

Local Open Scope Q_scope.

(** [window = 100] of [plot_training_results]. *)
Definition window : nat := 100.

(** [sum(xs)] on integers. *)
Definition sum_int (xs : list Z) : Z := foldl Z.add 0%Z xs.

(** [xs[i:i+window]]. *)
Definition slice (xs : list Z) (i : nat) : list Z := take window (drop i xs).

(** The curve of the second plot, [None] when the condition
    [len(wins) >= window] fails and nothing is drawn:
    [[sum(wins[i:i+window])/window * 100 for i in range(len(wins)-window)]]. *)
Definition win_rate (wins : list Z) : option (list Q) :=
  if decide (window <= length wins)%nat then
    Some ((λ i, inject_Z (sum_int (slice wins i)) / inject_Z (Z.of_nat window) * 100)
            <$> seq 0 (length wins - window))
  else None.

End Pipeline.

(** ** Notions for the two scorings *)

Module ScoreSpec.

Local Open Scope Q_scope.

(** The number of positions where the mask is blank and the word has
    [letter]. *)
Definition blank_hits (letter : string) (masked word : list string) : nat :=
  length (filter (λ p, p.1 = "_" ∧ p.2 = letter) (zip masked word)).

(** The same, added over the words of a list. *)
Definition corpus_hits (letter : string) (masked_word : string) (ws : list string)
  : nat :=
  sum_list ((λ w, blank_hits letter (chars masked_word) (chars w)) <$> ws).

(** The number of words that have [letter] at position [pos]. *)
Definition at_position (letter : string) (pos : nat) (ws : list string) : nat :=
  length (filter (λ w, chars w !! pos = Some letter) ws).

(** The emission probabilities of [letter], added over the blank
    positions of the mask; a table without the letter counts for 0. *)
Definition emission_mass (letter : string) (masked : list string)
    (emission_probs : list (gmap string Q)) : Q :=
  sum ((λ p, if decide (p.1 = "_") then default 0 (p.2 !! letter) else 0)
         <$> zip masked emission_probs).

End ScoreSpec.

(** ** Notions for the game loops *)

Module LoopSpec.

Import Env Agent Loops.

(** The outside behaves as Python's does: a set is listed with each
    element once, and a draw from a list that is not empty gives one of
    its items. *)
Definition lawful (O : Chance) : Prop :=
  (∀ t (X : gset string), listing O t X ≡ₚ elements X)
  ∧ (∀ t xs, xs ≠ [] → choice O t xs ∈ xs)
  ∧ (∀ t xs p, xs ≠ [] → weighted O t xs p ∈ xs).

(** A word that the environment reads from the corpus file has at least
    one letter, and lowercase letters only. *)
Definition playable (w : string) : Prop :=
  w ≠ "" ∧ ∀ c, c ∈ chars w → c ∈ alphabet.

(** An environment in a game on a playable word, played with single
    lowercase letters and only while it was not over. *)
Definition in_play (e : HangmanEnvironment) : Prop :=
  (∃ e0, EnvSpec.reachable EnvSpec.lowercase e0 e)
  ∧ playable (target_word e)
  ∧ (wrong_guesses e <= Z.max 1 (max_wrong e))%Z.

(** The number of positions of the target that show their letter. *)
Definition revealed (e : HangmanEnvironment) : Z :=
  Z.of_nat (length (filter (λ c, c ∈ guessed_letters e) (chars (target_word e)))).

(** The rewards of a game as its state tells them: 10 for each position
    shown, 100 for a win, -5 for each wrong guess and -50 for a loss. *)
Definition score (e : HangmanEnvironment) : Z :=
  (10 * revealed e + (if won e then 100 else 0) - 5 * wrong_guesses e
   - (if game_over e && negb (won e) then 50 else 0))%Z.

(** The agents that differ in the table only, and there only by entries
    that are read as they would be when absent. *)
Definition same_values (ag ag' : HangmanRLAgent) : Prop :=
  LearnSpec.settings ag' = LearnSpec.settings ag
  ∧ ∀ s b, AgentSpec.q_value (q_table ag') s b = AgentSpec.q_value (q_table ag) s b.

End LoopSpec.

(** ** Further samples *)

Module Games.

Import Env HMM Agent Loops Samples.
Local Open Scope Q_scope.

(** The game on "cat" after the guesses "a" and "c", and after "t". *)
Definition e_ac : HangmanEnvironment :=
  mkEnv 6 corpus "cat" "ca_" ({["c"]} ∪ {["a"]}) 0 false false.

Definition e_won : HangmanEnvironment :=
  mkEnv 6 corpus "cat" "cat" ({["t"]} ∪ ({["c"]} ∪ {["a"]})) 0 true true.

(** An environment without a life to lose, fresh and after
    [reset("cat")], and one with a negative budget. *)
Definition e_nolife0 : HangmanEnvironment := Env.init 0 corpus.

Definition e_nolife : HangmanEnvironment :=
  mkEnv 0 corpus "cat" "___" ∅ 0 false false.

Definition e_debt0 : HangmanEnvironment := Env.init (-1) corpus.

Definition e_debt : HangmanEnvironment :=
  mkEnv (-1) corpus "cat" "___" ∅ 0 false false.

(** The 26 letters from "z" down to "a". *)
Definition zyx : list string := reverse (chars alphabet_str).

(** An outside that lists a set in the order of [elements], draws the
    first item of a list, and draws the word with the number of the
    game. *)
Definition fixed : Chance :=
  mkChance (λ _ X, elements X)
           (λ _ xs, default "" (head xs))
           (λ _ xs _, default "" (head xs))
           (λ _, 1 # 2)
           (λ game, game).

(** A fresh agent on the predictor trained on the sample corpus. *)
Definition tutor : HangmanRLAgent := Agent.init trained.

(** The lines of a corpus file with an empty line and a line that is not
    a word. *)
Definition lines : list string := ["cat"; "Dog"; ""; "x1"].

(** Emission tables for a mask of three positions. *)
Definition tables : list (gmap string Q) := [{["c" := 1]}; ∅; {["t" := 1]}].

(** The wins of 101 episodes, all won. *)
Definition flags : list Z := replicate 101 1%Z.

End Games.

Example scenario_cat :
let e0 := Env.init 6 ["cat"; "dog"; "bat"] in
(e1 ← Env.reset e0 (Some "cat") 0;
 '(e2, (_, r2, d2, _)) ← Env.step e1 "a";
 '(e3, (_, r3, _, _)) ← Env.step e2 "a";
 '(e4, (s4, r4, _, _)) ← Env.step e3 "z";
 '(e5, _) ← Env.step e4 "c";
 '(e6, (s6, r6, d6, _)) ← Env.step e5 "t";
 Some (Env.masked_word e1, Env.masked_word e2, r2, d2, Env.masked_word e3, r3,
       Env.st_wrong_guesses s4, r4, Env.st_masked_word s6, r6, d6, Env.st_won s6))
= Some ("___", "_a_", 10, false, "_a_", -2, 1, -5, "cat", 110, true, true).
Proof. vm_compute. reflexivity. Qed.

(** * Facts about Python strings *)

Section StrFacts.

Lemma chars_length s : length (chars s) = String.length s.
Proof. induction s as [|c s IH]; simpl; [done|]. by rewrite IH. Qed.

Lemma join_chars s : join (chars s) = s.
Proof. induction s as [|c s IH]; simpl; [done|]. by rewrite IH. Qed.

Lemma elem_of_chars x s : x ∈ chars s → ∃ c, x = chr c.
Proof.
  induction s as [|c s IH]; simpl; intros H.
  - by apply elem_of_nil in H.
  - apply elem_of_cons in H as [->|H]; eauto.
Qed.

Lemma chars_join l : Forall (λ x, ∃ c, x = chr c) l → chars (join l) = l.
Proof.
  induction 1 as [|x l [c ->] _ IH]; [done|].
  change (chars (join (chr c :: l))) with (chr c :: chars (join l)).
  by rewrite IH.
Qed.

Lemma chars_repeat n : chars (repeat_str "_" n) = replicate n "_".
Proof.
  induction n as [|n IH]; [done|].
  change (chars (repeat_str "_" (S n))) with ("_" :: chars (repeat_str "_" n)).
  by rewrite IH.
Qed.

Lemma length_repeat n : String.length (repeat_str "_" n) = n.
Proof. by rewrite <- chars_length, chars_repeat, length_replicate. Qed.

(** On a one-character string, the substring test is membership. *)
Lemma str_in_chr c s : str_in (chr c) s = true ↔ chr c ∈ chars s.
Proof.
  induction s as [|d s IH]; simpl.
  - split; [done|]. intros H. by apply elem_of_nil in H.
  - rewrite elem_of_cons, orb_true_iff, IH.
    destruct (ascii_dec c d) as [->|Hne].
    + split; [by left|]. intros _. left. by destruct s.
    + split; (intros [H|H]; [|by right]); [done|].
      injection H as H. done.
Qed.

Lemma lower_letter_chr l : is_lower_letter l = true → ∃ c, l = chr c.
Proof. destruct l as [|c [|? ?]]; simpl; try done. eauto. Qed.

Lemma lower_letter_fixed l : is_lower_letter l = true → lower l = l.
Proof.
  destruct l as [|c [|? ?]]; [discriminate| |discriminate].
  destruct c as [[] [] [] [] [] [] [] []]; vm_compute; congruence.
Qed.

Lemma lower_letter_not_placeholder l : is_lower_letter l = true → l ≠ "_".
Proof. intros H ->. by vm_compute in H. Qed.

End StrFacts.

(** * The game environment *)

Module EnvFacts.

Import Env EnvSpec.
Local Open Scope list_scope.

Lemma mask_of_length g t : length (mask_of g t) = length t.
Proof. unfold mask_of. by rewrite length_fmap. Qed.

Lemma occurrences_of_nonneg l t : 0 <= occurrences_of l t.
Proof. unfold occurrences_of. lia. Qed.

Lemma occurrences_of_pos l t : l ∈ t ↔ 1 <= occurrences_of l t.
Proof.
  unfold occurrences_of. induction t as [|x t IH]; simpl.
  - split; [intros H; by apply elem_of_nil in H | lia].
  - rewrite elem_of_cons, filter_cons. case_decide; simpl.
    + subst. split; [lia | by left].
    + rewrite IH. split; [intros [?|?]; [congruence|done] | by right].
Qed.

Lemma mask_of_single g t :
  Forall (λ x, ∃ c, x = chr c) t → Forall (λ x, ∃ c, x = chr c) (mask_of g t).
Proof.
  unfold mask_of. induction 1 as [|x t Hx _ IH]; simpl; constructor; [|done].
  case_decide; [done|]. by exists "_"%char.
Qed.

Lemma chars_single s : Forall (λ x, ∃ c, x = chr c) (chars s).
Proof. apply Forall_forall. intros x. apply elem_of_chars. Qed.

(** The reveal loop, started in the middle of the word. *)
Lemma reveal_spec letter target : ∀ i pre cur occ,
  length pre = i → length cur = length target →
  reveal letter target i (pre ++ cur) occ
  = Some (pre ++ zip_with (λ t m, if decide (t = letter) then letter else m) target cur,
          occ + occurrences_of letter target).
Proof.
  unfold occurrences_of.
  induction target as [|t target IH]; intros i pre cur occ Hi Hlen.
  - destruct cur; [|done]. simpl. do 2 f_equal. lia.
  - destruct cur as [|m cur]; [done|]. simpl in *. injection Hlen as Hlen.
    rewrite filter_cons. destruct (decide (t = letter)) as [->|Hne].
    + rewrite decide_True by (rewrite length_app; simpl; lia).
      replace (<[i:=letter]> (pre ++ m :: cur)) with ((pre ++ [letter]) ++ cur).
      2:{ subst i. rewrite (insert_app_r_alt pre) by lia.
          rewrite Nat.sub_diag. simpl. by rewrite <- app_assoc. }
      rewrite IH by (rewrite ?length_app; simpl; lia).
      rewrite <- app_assoc. simpl. do 2 f_equal. lia.
    + replace (pre ++ m :: cur) with ((pre ++ [m]) ++ cur)
        by (by rewrite <- app_assoc).
      rewrite IH by (rewrite ?length_app; simpl; lia).
      rewrite <- app_assoc. simpl. done.
Qed.

(** Revealing [letter] in the mask of [g] gives the mask of [g] with
    [letter] added. *)
Lemma reveal_mask_of letter g target :
  zip_with (λ t m, if decide (t = letter) then letter else m) target (mask_of g target)
  = mask_of ({[letter]} ∪ g) target.
Proof.
  unfold mask_of. induction target as [|t target IH]; csimpl; [done|].
  rewrite IH. f_equal.
  destruct (decide (t = letter)) as [->|Hne].
  - by rewrite decide_True by set_solver.
  - destruct (decide (t ∈ g)).
    + by rewrite decide_True by set_solver.
    + by rewrite decide_False by set_solver.
Qed.

Lemma reveal_consistent e letter :
  consistent e →
  reveal letter (chars (target_word e)) 0 (chars (masked_word e)) 0
  = Some (mask_of ({[letter]} ∪ guessed_letters e) (chars (target_word e)),
          occurrences_of letter (chars (target_word e))).
Proof.
  intros He. rewrite He.
  pose proof (reveal_spec letter (chars (target_word e)) 0 []
                (mask_of (guessed_letters e) (chars (target_word e))) 0
                eq_refl (mask_of_length _ _)) as H.
  rewrite app_nil_l in H. rewrite H, app_nil_l, reveal_mask_of.
  by rewrite Z.add_0_l.
Qed.

(** A guess that is no character of the target leaves the mask alone. *)
Lemma mask_of_absent letter g target :
  letter ∉ target → mask_of ({[letter]} ∪ g) target = mask_of g target.
Proof.
  unfold mask_of. intros Hl. apply list_fmap_ext. intros i t Ht.
  assert (t ≠ letter) by (intros ->; apply Hl; by eapply list_elem_of_lookup_2).
  destruct (decide (t ∈ g)).
  - by rewrite decide_True by set_solver.
  - by rewrite decide_False by set_solver.
Qed.

Lemma chars_join_mask g s : chars (join (mask_of g (chars s))) = mask_of g (chars s).
Proof. apply chars_join, mask_of_single, chars_single. Qed.

Lemma consistent_reset e0 word r e : reset e0 word r = Some e → consistent e.
Proof.
  unfold reset, consistent. intros H.
  destruct (match word with Some w => _ | None => _ end) as [t|]; [|done].
  simpl in H. injection H as <-. simpl.
  rewrite chars_repeat, <- chars_length. unfold mask_of.
  induction (chars t) as [|x l IH]; simpl; [done|].
  rewrite IH. f_equal.
Qed.

Lemma str_in_false letter s : str_in letter s = false → letter ∉ chars s.
Proof.
  intros Hf Hin. destruct (elem_of_chars _ _ Hin) as [c ->].
  apply str_in_chr in Hin. congruence.
Qed.

(** Case analysis on the three branches of [step] (and on the two ways
    each of the last two can end) in a consistent state. *)
Ltac step_cases e l He :=
  unfold step;
  cbn [target_word masked_word guessed_letters set_guessed];
  rewrite (reveal_consistent e (lower l) He);
  destruct (bool_decide (lower l ∈ guessed_letters e)) eqn:Hrep;
  [ apply bool_decide_eq_true in Hrep
  | apply bool_decide_eq_false in Hrep;
    destruct (str_in (lower l) (target_word e)) eqn:Hin;
    [ cbn [mbind option_bind masked_word set_masked];
      destruct (str_in "_" (join (mask_of ({[lower l]} ∪ guessed_letters e)
                                          (chars (target_word e))))) eqn:Hph
    | cbn [wrong_guesses set_wrong max_wrong set_guessed];
      destruct (bool_decide (max_wrong e <= wrong_guesses e + 1)) eqn:Hlost;
      [ apply bool_decide_eq_true in Hlost | apply bool_decide_eq_false in Hlost ] ] ];
  cbn.

Lemma step_preserves e l :
  consistent e →
  ∃ e' out, step e l = Some (e', out) ∧ consistent e' ∧
    max_wrong e' = max_wrong e ∧ word_list e' = word_list e ∧
    target_word e' = target_word e ∧
    guessed_letters e' = {[lower l]} ∪ guessed_letters e ∧
    (game_over e = true → game_over e' = true) ∧
    (within_budget e → within_budget e').
Proof.
  intros He. step_cases e l He; eexists _, _; (split; [reflexivity|]);
    unfold consistent, within_budget; cbn.
  - replace ({[lower l]} ∪ guessed_letters e) with (guessed_letters e) by set_solver.
    done.
  - rewrite chars_join_mask. intuition.
  - rewrite chars_join_mask. intuition (try done; lia).
  - rewrite mask_of_absent by (by apply str_in_false).
    intuition (try done; lia).
  - rewrite mask_of_absent by (by apply str_in_false).
    intuition (try done; lia).
Qed.

Lemma reachable_invariant P e0 e :
  reachable P e0 e →
  consistent e ∧ within_budget e ∧ max_wrong e = max_wrong e0.
Proof.
  induction 1 as [word r e Hr | e l e' out _ IH _ Hs].
  - split; [by eapply consistent_reset|].
    unfold reset in Hr.
    destruct (match word with Some w => _ | None => _ end) as [t|]; [|done].
    simpl in Hr. injection Hr as <-. unfold within_budget. cbn.
    repeat split; try done. by left.
  - destruct IH as (Hc & Hb & Hm).
    destruct (step_preserves e l Hc) as (e'' & out' & Hs' & ? & ? & ? & ? & ? & ? & ?).
    rewrite Hs in Hs'. injection Hs' as <- <-.
    split; [done|]. split; [auto|]. congruence.
Qed.

(** Every reachable state accepts one more guess. *)
Lemma reachable_step_total P e0 e l :
  reachable P e0 e → is_Some (step e l).
Proof.
  intros Hr. destruct (reachable_invariant _ _ _ Hr) as (Hc & _).
  destruct (step_preserves e l Hc) as (e' & out & -> & _). eauto.
Qed.

(** When only single lowercase letters are guessed, only those are in
    the guessed set. *)
Lemma reachable_lower_guessed e0 e :
  reachable (λ l, is_lower_letter l = true) e0 e →
  ∀ g, g ∈ guessed_letters e → is_lower_letter g = true.
Proof.
  induction 1 as [word r e Hr | e l e' out Hreach IH Hl Hs].
  - unfold reset in Hr.
    destruct (match word with Some w => _ | None => _ end) as [t|]; [|done].
    simpl in Hr. injection Hr as <-. cbn. set_solver.
  - destruct (reachable_invariant _ _ _ Hreach) as (Hc & _).
    destruct (step_preserves e l Hc) as (e'' & out' & Hs' & _ & _ & _ & _ & Hg & _).
    rewrite Hs in Hs'. injection Hs' as <- <-.
    intros g. rewrite Hg, (lower_letter_fixed l Hl).
    rewrite elem_of_union, elem_of_singleton. intros [->|?]; auto.
Qed.

End EnvFacts.

Module EnvClaims.

Import Env EnvSpec EnvFacts.
Local Open Scope list_scope.

(** A guess is in the guessed set after the step that makes it. *)
Lemma step_adds_guess e l e' out :
  step e l = Some (e', out) → lower l ∈ guessed_letters e'.
Proof.
  unfold step. cbn [target_word masked_word guessed_letters set_guessed].
  destruct (bool_decide _); cbn.
  { intros [= <- <-]. cbn. set_solver. }
  destruct (str_in (lower l) (target_word e)).
  - destruct (reveal _ _ _ _ _) as [[nm occ]|]; [|discriminate]. cbn.
    destruct (negb _); cbn; intros [= <- <-]; cbn; set_solver.
  - cbn. destruct (bool_decide _); cbn; intros [= <- <-]; cbn; set_solver.
Qed.

Lemma step_repeated e l :
  lower l ∈ guessed_letters e →
  step e l = Some (e, (_get_state e, -2, game_over e,
                       mkInfo true false (MsgAlready (lower l)))).
Proof.
  intros Hin. unfold step. rewrite bool_decide_eq_true_2 by done. cbn.
  replace ({[lower l]} ∪ guessed_letters e) with (guessed_letters e) by set_solver.
  by destruct e.
Qed.

(** C4. A guess whose letter is already in the guessed set, in particular
    the second of two guesses of the same letter, leaves the environment
    as it is: mask, guessed set, wrong-guess count, lives, [game_over]
    and [won] are those of before, the reward is -2 and [done] is the
    current [game_over]. *)
Theorem step_repeated_frame (e : HangmanEnvironment) (letter : string) :
  (lower letter ∈ guessed_letters e ∨ ∃ e0 out, step e0 letter = Some (e, out)) →
  step e letter
  = Some (e, (_get_state e, -2, game_over e,
              mkInfo true false (MsgAlready (lower letter)))).
Proof.
  intros [Hin | (e0 & out & Hs)]; apply step_repeated; [done|].
  by eapply step_adds_guess.
Qed.

(** C5. In every state reachable from a reset, the state handed out by
    the environment has [wrong_guesses + lives_remaining = max_wrong];
    with a non-negative budget, [lives_remaining] is non-negative as long
    as the game is not over. *)
Theorem lives_invariant (P : string → Prop) (e0 e : HangmanEnvironment) :
  reachable P e0 e →
  st_wrong_guesses (_get_state e) + st_lives_remaining (_get_state e) = max_wrong e0
  ∧ (0 <= max_wrong e0 → st_game_over (_get_state e) = false →
     0 <= st_lives_remaining (_get_state e)).
Proof.
  intros Hr. destruct (reachable_invariant _ _ _ Hr) as (_ & [Hw Hb] & Hm).
  cbn. split; [lia|]. intros Hmw Hgo. destruct (Hb Hgo); lia.
Qed.

(** C10. In every state reachable from a reset by guesses of single
    lowercase letters, the mask is as long as the target, each of its
    positions holds the placeholder or the target's letter, and a position
    is revealed exactly when the target's letter there has been guessed. *)
Theorem mask_target_consistency (e0 e : HangmanEnvironment) :
  reachable lowercase e0 e →
  String.length (masked_word e) = String.length (target_word e)
  ∧ ∀ i m t,
      chars (masked_word e) !! i = Some m →
      chars (target_word e) !! i = Some t →
      (m = "_" ∨ m = t) ∧ (m ≠ "_" ↔ t ∈ guessed_letters e).
Proof.
  intros Hr. destruct (reachable_invariant _ _ _ Hr) as (Hc & _).
  pose proof (reachable_lower_guessed _ _ Hr) as Hg.
  unfold consistent in Hc. split.
  - by rewrite <- !chars_length, Hc, mask_of_length.
  - intros i m t Hm Ht. rewrite Hc in Hm. unfold mask_of in Hm.
    rewrite list_lookup_fmap, Ht in Hm. injection Hm as <-.
    destruct (decide (t ∈ guessed_letters e)) as [Hin|Hout].
    + split; [by right|]. split; [done|]. intros _.
      by apply lower_letter_not_placeholder, Hg.
    + split; [by left|]. split; [done|]. done.
Qed.

(** The mask of [g] shows no placeholder exactly when [g] holds every
    character of the target, as long as [g] holds letters only. *)
Lemma mask_complete g (target : list string) :
  (∀ x, x ∈ g → is_lower_letter x = true) →
  "_" ∉ mask_of g target ↔ ∀ t, t ∈ target → t ∈ g.
Proof.
  intros Hg. unfold mask_of. rewrite list_elem_of_fmap. split.
  - intros Hno t Ht. destruct (decide (t ∈ g)) as [|Hout]; [done|].
    exfalso. apply Hno. exists t. by rewrite decide_False.
  - intros Hall (t & Heq & Ht). specialize (Hall t Ht).
    rewrite decide_True in Heq by done. subst t.
    by apply Hg, lower_letter_not_placeholder in Hall.
Qed.

(** The three ways of a step that guesses a single lowercase letter,
    told from the state before it. *)
Lemma step_outcome e0 e letter :
  reachable lowercase e0 e → lowercase letter →
  ∃ e' st reward done info,
    step e letter = Some (e', (st, reward, done, info))
    ∧ guessed_letters e' = {[letter]} ∪ guessed_letters e
    ∧ chars (masked_word e')
      = mask_of ({[letter]} ∪ guessed_letters e) (chars (target_word e))
    ∧ ((letter ∈ guessed_letters e ∧ reward = -2
        ∧ wrong_guesses e' = wrong_guesses e)
       ∨ (letter ∉ guessed_letters e ∧ str_in letter (target_word e) = true
          ∧ wrong_guesses e' = wrong_guesses e
          ∧ reward
            = 10 * occurrences_of letter (chars (target_word e))
              + (if str_in "_" (masked_word e') then 0 else 100))
       ∨ (letter ∉ guessed_letters e ∧ str_in letter (target_word e) = false
          ∧ wrong_guesses e' = wrong_guesses e + 1
          ∧ reward
            = -5 + (if bool_decide (max_wrong e <= wrong_guesses e + 1)
                    then -50 else 0))).
Proof.
  intros Hr Hl.
  destruct (reachable_invariant _ _ _ Hr) as (Hc & _).
  step_cases e letter Hc; rewrite ?(lower_letter_fixed _ Hl) in *.
  all: eexists _, _, _, _, _; (split; [reflexivity|]); cbn.
  all: rewrite ?chars_join_mask.
  all: split; [done|].
  - split.
    { rewrite Hc.
      by replace ({[letter]} ∪ guessed_letters e) with (guessed_letters e)
        by set_solver. }
    left. by repeat split.
  - split; [done|]. right. left. rewrite Hph. repeat (split; [done|]). lia.
  - split; [done|]. right. left. rewrite Hph. repeat (split; [done|]). lia.
  - split; [by rewrite Hc, mask_of_absent by (by apply str_in_false)|].
    right. right. repeat (split; [done|]). lia.
  - split; [by rewrite Hc, mask_of_absent by (by apply str_in_false)|].
    right. right. repeat (split; [done|]). lia.
Qed.

(** C3. The reward of a guess of a single lowercase letter in a game in
    progress, told from the state before the guess: -2 for a letter
    already guessed; otherwise [10 * k] for a letter occurring [k >= 1]
    times in the target, plus 100 when every letter of the target is then
    guessed, which is when the mask is left without a placeholder;
    otherwise -5, plus -50 when the wrong-guess count, which this guess
    raises by one, thereby is [max_wrong] or more.  With a positive budget
    that is when the count becomes [max_wrong]. *)
Theorem step_reward (e0 e : HangmanEnvironment) (letter : string) :
  reachable lowercase e0 e → game_over e = false → lowercase letter →
  let k := occurrences_of letter (chars (target_word e)) in
  let guessed := {[letter]} ∪ guessed_letters e in
  ∃ e' st reward done info,
    step e letter = Some (e', (st, reward, done, info))
    ∧ reward =
        (if decide (letter ∈ guessed_letters e) then -2
         else if decide (1 <= k) then
           10 * k
           + (if decide (Forall (λ t, t ∈ guessed) (chars (target_word e)))
              then 100 else 0)
         else
           -5 + (if decide (max_wrong e0 <= wrong_guesses e + 1) then -50 else 0))
    ∧ guessed_letters e' = guessed
    ∧ wrong_guesses e'
      = wrong_guesses e
        + (if decide (letter ∈ guessed_letters e ∨ 1 <= k) then 0 else 1)
    ∧ (Forall (λ t, t ∈ guessed) (chars (target_word e))
       ↔ "_" ∉ chars (masked_word e'))
    ∧ (0 < max_wrong e0 → max_wrong e0 <= wrong_guesses e + 1 →
       wrong_guesses e + 1 = max_wrong e0).
Proof.
  intros Hr Hgo Hl. cbv zeta.
  destruct (reachable_invariant _ _ _ Hr) as (Hc & [Hw Hb] & Hm).
  pose proof (reachable_lower_guessed _ _ Hr) as Hg.
  assert (Hg' : ∀ x, x ∈ {[letter]} ∪ guessed_letters e → is_lower_letter x = true).
  { intros x [->%elem_of_singleton|?]%elem_of_union; auto. }
  destruct (lower_letter_chr _ Hl) as [c Hc'].
  assert (Hocc : str_in letter (target_word e) = true ↔
                 1 <= occurrences_of letter (chars (target_word e))).
  { rewrite <- occurrences_of_pos. subst letter. apply str_in_chr. }
  assert (Hplace : ∀ m, "_" ∈ chars m ↔ str_in "_" m = true).
  { intros m. symmetry. apply (str_in_chr "_"%char). }
  destruct (step_outcome e0 e letter Hr Hl)
    as (e' & st & reward & done & info & Hs & Hguessed & Hmask & Hcase).
  assert (Hcompl : Forall (λ t, t ∈ {[letter]} ∪ guessed_letters e)
                          (chars (target_word e))
                   ↔ "_" ∉ chars (masked_word e')).
  { rewrite Forall_forall, Hmask. symmetry. by apply mask_complete. }
  exists e', st, reward, done, info. split; [done|].
  assert (Hbudget : 0 < max_wrong e0 → max_wrong e0 <= wrong_guesses e + 1 →
                    wrong_guesses e + 1 = max_wrong e0).
  { intros ? ?. destruct (Hb Hgo); lia. }
  destruct Hcase as [(Hin & -> & Hwrong)
                    |[(Hout & Hhit & Hwrong & ->)|(Hout & Hmiss & Hwrong & ->)]].
  - rewrite (decide_True (P := letter ∈ guessed_letters e)) by done.
    rewrite (decide_True (P := _ ∨ _)) by (by left).
    split; [done|]. split; [done|]. split; [lia|]. by split.
  - apply Hocc in Hhit.
    rewrite (decide_False (P := letter ∈ guessed_letters e)) by done.
    rewrite (decide_True (P := 1 <= _)) by done.
    rewrite (decide_True (P := _ ∨ _)) by (by right).
    split; [|split; [done|]; split; [lia|]; by split].
    destruct (str_in "_" (masked_word e')) eqn:Hph.
    + apply Hplace in Hph. rewrite decide_False; [lia|].
      intros Hall. by apply Hcompl in Hall.
    + rewrite decide_True; [lia|]. apply Hcompl. rewrite Hplace. congruence.
  - assert (Hk : ¬ 1 <= occurrences_of letter (chars (target_word e))).
    { rewrite <- Hocc. congruence. }
    rewrite (decide_False (P := letter ∈ guessed_letters e)) by done.
    rewrite (decide_False (P := 1 <= _)) by done.
    rewrite (decide_False (P := _ ∨ _)) by (by intros [?|?]).
    split; [|split; [done|]; split; [lia|]; by split].
    rewrite <- Hm. by destruct (decide (max_wrong e <= wrong_guesses e + 1));
      [rewrite bool_decide_eq_true_2|rewrite bool_decide_eq_false_2].
Qed.

(** A guess of a letter not met before counts as wrong exactly when it
    does not occur in the target; once the wrong-guess count has reached
    the budget the game is over. *)
Lemma step_fresh e l :
  consistent e → lower l ∉ guessed_letters e →
  ∃ e' out, step e l = Some (e', out) ∧ consistent e' ∧
    max_wrong e' = max_wrong e ∧ target_word e' = target_word e ∧
    guessed_letters e' = {[lower l]} ∪ guessed_letters e ∧
    wrong_guesses e'
    = wrong_guesses e + (if str_in (lower l) (target_word e) then 0 else 1) ∧
    ((max_wrong e <= wrong_guesses e → game_over e = true) →
     max_wrong e' <= wrong_guesses e' → game_over e' = true).
Proof.
  intros He Hfresh.
  destruct (step_preserves e l He) as (e' & out & Hs & Hc' & Hm & _ & Ht & Hg & Hgo & _).
  exists e', out. repeat (split; [done|]).
  revert Hs. step_cases e l He; try done; intros [= <- <-]; cbn.
  all: split; [lia|]; done.
Qed.

(** A step taken in a game in progress leaves the wrong-guess count at
    the budget at most, or at 1 when the budget is less. *)
Lemma step_bound e l :
  consistent e → within_budget e → game_over e = false →
  ∃ e' out, step e l = Some (e', out) ∧ consistent e' ∧ within_budget e' ∧
    max_wrong e' = max_wrong e ∧
    wrong_guesses e' <= Z.max 1 (max_wrong e').
Proof.
  intros He Hb Hgo.
  destruct (step_preserves e l He) as (e' & out & Hs & Hc' & Hm & _ & _ & _ & _ & Hb').
  exists e', out. split; [done|]. split; [done|]. split; [by apply Hb'|].
  split; [done|]. destruct Hb as [Hw Hlt]. specialize (Hlt Hgo).
  revert Hs. step_cases e l He; intros [= <- <-]; cbn; lia.
Qed.

Lemma run_fresh letters : ∀ e,
  consistent e → NoDup (lower <$> letters) →
  (∀ l, l ∈ letters → lower l ∉ guessed_letters e) →
  ∃ e', run e letters = Some e' ∧
    max_wrong e' = max_wrong e ∧
    wrong_guesses e' = wrong_guesses e + misses (target_word e) letters ∧
    ((max_wrong e <= wrong_guesses e → game_over e = true) →
     max_wrong e' <= wrong_guesses e' → game_over e' = true).
Proof.
  unfold misses.
  induction letters as [|l letters IH]; intros e He Hnd Hfresh.
  - exists e. cbn. repeat split; try done. lia.
  - rewrite fmap_cons in Hnd. apply NoDup_cons in Hnd as [Hl Hnd].
    destruct (step_fresh e l He) as (e1 & out & Hs & Hc1 & Hm1 & Ht1 & Hg1 & Hw1 & Hgo1).
    { apply Hfresh. by left. }
    destruct (IH e1 Hc1 Hnd) as (e' & Hrun & Hm' & Hw' & Hgo').
    { intros l' Hl'. rewrite Hg1. intros [Heq%elem_of_singleton|Hin]%elem_of_union.
      - apply Hl. rewrite <- Heq. apply list_elem_of_fmap. eauto.
      - revert Hin. apply Hfresh. by right. }
    exists e'. split; [cbn [run]; by rewrite Hs|].
    split; [congruence|]. rewrite Ht1 in Hw'. split.
    + rewrite Hw', Hw1, filter_cons.
      destruct (str_in (lower l) (target_word e)); cbn.
      * rewrite decide_False by done. lia.
      * rewrite decide_True by done. cbn. lia.
    + intros Hold. apply Hgo', Hgo1, Hold.
Qed.

Lemma play_bound letters : ∀ e,
  consistent e → within_budget e →
  wrong_guesses e <= Z.max 1 (max_wrong e) →
  ∃ e', play e letters = Some e' ∧ max_wrong e' = max_wrong e ∧
    wrong_guesses e' <= Z.max 1 (max_wrong e').
Proof.
  induction letters as [|l letters IH]; intros e He Hb Hle; cbn.
  - by exists e.
  - destruct (game_over e) eqn:Hgo; [by exists e|].
    destruct (step_bound e l He Hb Hgo) as (e1 & out & -> & Hc1 & Hb1 & Hm1 & Hle1).
    cbn. destruct (IH e1 Hc1 Hb1 Hle1) as (e' & -> & Hm' & Hle').
    exists e'. split; [done|]. split; [congruence|done].
Qed.

(** C9. From a reset, any sequence of distinct guesses runs to the
    end, and the wrong-guess count is the number of guesses that miss the
    target; with a positive budget the game is over as soon as that
    number is [max_wrong].  An episode, where guesses stop once the game
    is over, never counts more wrong guesses than the larger of 1 and
    [max_wrong]: never more than [max_wrong] when the budget is
    positive. *)
Theorem distinct_guesses_terminate (e0 e : HangmanEnvironment)
    (word : option string) (r : nat) (letters : list string) :
  reset e0 word r = Some e → NoDup (lower <$> letters) →
  (∃ e', run e letters = Some e'
         ∧ wrong_guesses e' = misses (target_word e) letters
         ∧ (0 < max_wrong e0 → max_wrong e0 <= misses (target_word e) letters →
            game_over e' = true))
  ∧ (∃ e', play e letters = Some e'
           ∧ wrong_guesses e' <= Z.max 1 (max_wrong e0)
           ∧ (0 < max_wrong e0 → wrong_guesses e' <= max_wrong e0)).
Proof.
  intros Hr Hnd.
  pose proof (consistent_reset _ _ _ _ Hr) as Hc.
  destruct (reachable_invariant (λ _, True) e0 e (reach_reset _ _ _ _ _ Hr))
    as (_ & Hb & _).
  assert (Hinit : max_wrong e = max_wrong e0 ∧ wrong_guesses e = 0 ∧
                  guessed_letters e = ∅).
  { unfold reset in Hr.
    destruct (match word with Some w => _ | None => _ end) as [t|]; [|done].
    simpl in Hr. by injection Hr as <-. }
  destruct Hinit as (Hm & Hw & Hg). split.
  - destruct (run_fresh letters e Hc Hnd) as (e' & Hrun & Hm' & Hw' & Hgo').
    { intros l _. rewrite Hg. set_solver. }
    exists e'. split; [done|]. split; [lia|].
    intros Hmw Hle. apply Hgo'; lia.
  - destruct (play_bound letters e Hc Hb) as (e' & Hp & Hm' & Hle'); [lia|].
    exists e'. split; [done|]. split; lia.
Qed.

End EnvClaims.

(** * The letter predictor: the pattern filter *)

Module FilterClaims.

Import HMM PredictSpec.
Local Open Scope nat_scope.
Local Open Scope list_scope.

(** The same, position by position. *)
Lemma consistent_with_lookup m g w :
  consistent_with m g w ↔
  String.length w = String.length m ∧
  ∀ i c x, chars m !! i = Some c → chars w !! i = Some x →
           (c ≠ "_" → x = c) ∧ (c = "_" → x ∉ g).
Proof.
  unfold consistent_with. rewrite Forall2_same_length_lookup, <- !chars_length.
  split; intros [Hlen H]; (split; [done|]); exact H.
Qed.

Lemma word_matches_spec g (word : list string) : ∀ masked i,
  length masked + i = length word →
  word_matches word g i masked
  = Some (bool_decide (Forall2 (position_ok g) masked (drop i word))).
Proof.
  induction masked as [|c masked IH]; intros i Hlen; cbn [word_matches].
  - rewrite drop_ge by (simpl in Hlen; lia).
    by rewrite bool_decide_eq_true_2 by constructor.
  - simpl in Hlen.
    destruct (lookup_lt_is_Some_2 word i) as [x Hx]; [lia|].
    rewrite Hx. cbn. rewrite (drop_S _ _ _ Hx).
    rewrite IH by lia.
    rewrite (bool_decide_ext _ _ (Forall2_cons (position_ok g) c masked x _)).
    assert (Hyes : position_ok g c x →
              bool_decide (position_ok g c x
                           ∧ Forall2 (position_ok g) masked (drop (S i) word))
              = bool_decide (Forall2 (position_ok g) masked (drop (S i) word))).
    { intros Hok. apply bool_decide_ext. tauto. }
    assert (Hno : ¬ position_ok g c x →
              bool_decide (position_ok g c x
                           ∧ Forall2 (position_ok g) masked (drop (S i) word))
              = false).
    { intros Hn. apply bool_decide_eq_false_2. tauto. }
    destruct (decide (c ≠ "_")) as [Hc|Hc].
    + destruct (decide (x ≠ c)) as [Hxc|Hxc].
      * rewrite Hno; [done|]. intros [H1 _]. by apply Hxc, H1.
      * rewrite Hyes; [done|].
        split; [intros _; by destruct (decide (x = c))|done].
    + assert (c = "_") as -> by (by destruct (decide (c = "_"))).
      destruct (decide (x ∈ g)) as [Hxg|Hxg].
      * rewrite Hno; [done|]. intros [_ H2]. by apply H2.
      * rewrite Hyes; [done|]. split; done.
Qed.

Lemma filter_matching_words_eq (ws : list string) (masked_word : string)
    (guessed_letters : gset string) :
  _filter_matching_words ws masked_word guessed_letters
  = Some (filter (consistent_with masked_word guessed_letters) ws).
Proof.
  induction ws as [|w ws IH]; cbn [_filter_matching_words]; [done|].
  rewrite IH, filter_cons.
  destruct (decide (String.length w ≠ String.length masked_word)) as [Hne|Heq].
  - rewrite decide_False; [done|]. unfold consistent_with.
    intros H%Forall2_length. rewrite !chars_length in H. congruence.
  - assert (String.length w = String.length masked_word) as Hlen by lia.
    rewrite word_matches_spec by (rewrite !chars_length; lia).
    rewrite drop_0.
    destruct (decide (consistent_with masked_word guessed_letters w)) as [Hok|Hno].
    + by rewrite bool_decide_eq_true_2.
    + by rewrite bool_decide_eq_false_2.
Qed.

(** C6. [_filter_matching_words] returns, in their order, exactly the
    words of the list that have the length of the masked word and that,
    at every position, carry the revealed letter where one is revealed
    and a letter not yet guessed where none is. *)
Theorem filter_matching_words_spec (ws : list string) (masked_word : string)
    (guessed_letters : gset string) :
  _filter_matching_words ws masked_word guessed_letters
  = Some (filter (consistent_with masked_word guessed_letters) ws)
  ∧ ∀ w, consistent_with masked_word guessed_letters w ↔
         String.length w = String.length masked_word
         ∧ ∀ i c x, chars masked_word !! i = Some c →
                    chars w !! i = Some x →
                    (c ≠ "_" → x = c) ∧ (c = "_" → x ∉ guessed_letters).
Proof.
  split; [apply filter_matching_words_eq|].
  intros w. apply consistent_with_lookup.
Qed.

Example filter_cat_dog_bat :
  _filter_matching_words ["cat"; "dog"; "bat"; "cart"; "cot"] "_a_" {["a"; "c"]}
  = Some ["bat"].
Proof. vm_compute. reflexivity. Qed.

End FilterClaims.

(** * Facts about Python numbers *)

Module NumFacts.

Local Open Scope Q_scope.

Lemma Qltb_lt x y : Qltb x y = true ↔ x < y.
Proof.
  unfold Qltb. rewrite negb_true_iff, <- not_true_iff_false, Qle_bool_iff.
  split; [apply Qnot_le_lt | apply Qlt_not_le].
Qed.

Lemma Qltb_ge x y : Qltb x y = false ↔ y <= x.
Proof. unfold Qltb. by rewrite negb_false_iff, Qle_bool_iff. Qed.

(** The running maximum kept by [max]. *)
Lemma running_max_spec (xs : list Q) : ∀ x,
  let m := foldl (λ best y, if Qltb best y then y else best) x xs in
  m ∈ x :: xs ∧ ∀ v, v ∈ x :: xs → v <= m.
Proof.
  induction xs as [|y xs IH]; intros x; cbn.
  - split; [by left|]. intros v ->%list_elem_of_singleton. apply Qle_refl.
  - destruct (Qltb x y) eqn:Hlt.
    + destruct (IH y) as [Hin Hmax]. split; [by right|].
      intros v [->|Hv]%elem_of_cons; [|by apply Hmax].
      apply Qle_trans with y; [by apply Qlt_le_weak, Qltb_lt|].
      apply Hmax. by left.
    + destruct (IH x) as [Hin Hmax]. split.
      * apply elem_of_cons in Hin as [->|Hin]; [by left|by do 2 right].
      * intros v [->|[->|Hv]%elem_of_cons]%elem_of_cons.
        -- apply Hmax. by left.
        -- apply Qle_trans with x; [by apply Qltb_ge|]. apply Hmax. by left.
        -- apply Hmax. by right.
Qed.

Lemma py_max_spec xs m :
  py_max xs = Some m → m ∈ xs ∧ ∀ v, v ∈ xs → v <= m.
Proof.
  destruct xs as [|x xs]; [done|]. intros [= <-]. apply running_max_spec.
Qed.

Lemma py_max_None xs : py_max xs = None ↔ xs = [].
Proof. by destruct xs. Qed.

End NumFacts.

(** * The learning agent *)

Module AgentClaims.

Import Env Agent AgentSpec NumFacts.
Local Open Scope Q_scope.

Lemma lookup_default_row (qt : gmap StateKey (gmap string Q)) k b :
  default ∅ (qt !! k) !! b = entry qt k b.
Proof. unfold entry. by destruct (qt !! k). Qed.

Lemma entry_q_row qt k k' b : entry (q_row qt k).2 k' b = entry qt k' b.
Proof.
  unfold q_row, entry. cbn. destruct (decide (k = k')) as [->|Hne].
  - rewrite lookup_insert_eq. by destruct (qt !! k').
  - by rewrite lookup_insert_ne.
Qed.

Lemma q_row_fst qt k : (q_row qt k).1 = default ∅ (qt !! k).
Proof. done. Qed.

Lemma q_read_fst qt k a : (q_read qt k a).1 = q_value qt k a.
Proof. unfold q_read, q_value. cbn. by rewrite lookup_default_row. Qed.

(** Reading an entry records it, with the value it has. *)
Lemma entry_q_read qt k a k' b :
  entry (q_read qt k a).2 k' b
  = if decide (k = k' ∧ a = b) then Some (q_value qt k a) else entry qt k' b.
Proof.
  unfold q_read, q_row, q_value, entry. cbn.
  destruct (decide (k = k')) as [->|Hne].
  - rewrite lookup_insert_eq. cbn. destruct (decide (a = b)) as [->|Hab].
    + rewrite lookup_insert_eq, decide_True by done. by destruct (qt !! k').
    + rewrite lookup_insert_ne, decide_False by tauto. by destruct (qt !! k').
  - rewrite !lookup_insert_ne, decide_False by tauto. done.
Qed.

Lemma q_value_q_read qt k a k' b :
  q_value (q_read qt k a).2 k' b = q_value qt k' b.
Proof.
  unfold q_value at 1. rewrite entry_q_read. case_decide as H; [|done].
  by destruct H as [-> ->].
Qed.

Lemma entry_q_write qt k a v k' b :
  entry (q_write qt k a v) k' b
  = if decide (k = k' ∧ a = b) then Some v else entry qt k' b.
Proof.
  unfold q_write, q_row, entry. cbn.
  destruct (decide (k = k')) as [->|Hne].
  - rewrite lookup_insert_eq. cbn. destruct (decide (a = b)) as [->|Hab].
    + by rewrite lookup_insert_eq, decide_True.
    + rewrite lookup_insert_ne, decide_False by tauto. by destruct (qt !! k').
  - rewrite !lookup_insert_ne, decide_False by tauto. done.
Qed.

(** A read of an entry already recorded, or of another key, leaves the
    values recorded for a key as they are. *)
Lemma recorded_q_read qt k a k' :
  k' ≠ k ∨ is_Some (entry qt k a) →
  recorded (q_read qt k a).2 k' = recorded qt k'.
Proof.
  unfold recorded, q_read, q_row, entry. cbn. intros H.
  destruct (decide (k = k')) as [->|Hne].
  - rewrite lookup_insert_eq. cbn. destruct H as [?|[v Hv]]; [done|].
    destruct (qt !! k') as [row|]; [|done]. cbn in *.
    by rewrite Hv, insert_id.
  - by rewrite !lookup_insert_ne.
Qed.

(** C7. [update_q_value] sets [Q[s,a]] to
    [Q[s,a] + α (reward + γ M - Q[s,a])] and changes no other entry.  [M]
    is [0] when [done] holds or when no value is recorded for the key of
    the next state, and the largest value recorded for that key
    otherwise, where "recorded" is taken after [Q[s,a]] has been read:
    the read records [Q[s,a]] (with [0] if it was absent), which comes
    into play only when both states have the same key and [Q[s,a]] was
    not recorded before. *)
Theorem update_q_value_rule (ag : HangmanRLAgent) (state : GameState)
    (action : string) (reward : Q) (next_state : GameState) (done : bool) :
  let ag' := update_q_value ag state action reward next_state done in
  let k := _get_state_key state in
  let k' := _get_state_key next_state in
  let q := q_value (q_table ag) k action in
  let seen := (q_read (q_table ag) k action).2 in
  let M := spec_max_next seen k' done in
  q_value (q_table ag') k action
  = q + learning_rate ag * (reward + discount_factor ag * M - q)
  ∧ (∀ s b, (s, b) ≠ (k, action) →
       entry (q_table ag') s b = entry (q_table ag) s b)
  ∧ (done = true ∨ recorded seen k' = [] → M = 0)
  ∧ (done = false → recorded seen k' ≠ [] →
       M ∈ recorded seen k' ∧ ∀ v, v ∈ recorded seen k' → v <= M)
  ∧ (k' ≠ k ∨ is_Some (entry (q_table ag) k action) →
       M = spec_max_next (q_table ag) k' done)
  ∧ (hmm ag', learning_rate ag', discount_factor ag', epsilon ag',
     epsilon_end ag', epsilon_decay ag')
    = (hmm ag, learning_rate ag, discount_factor ag, epsilon ag,
       epsilon_end ag, epsilon_decay ag).
Proof.
  intros ag' k k' q seen M.
  assert (Hag : q_table ag' =
            q_write (if done then seen else (q_row seen k').2) k action
              (q + learning_rate ag * (reward + discount_factor ag * M - q))).
  { subst ag' M seen q k k'. unfold update_q_value, spec_max_next, recorded.
    rewrite <- q_read_fst.
    destruct (q_read (q_table ag) (_get_state_key state) action) as [cur qt].
    cbn [fst snd]. destruct done; [done|].
    rewrite <- q_row_fst. by destruct (q_row qt (_get_state_key next_state)). }
  split; [|split; [|split; [|split; [|split]]]].
  - unfold q_value at 1. by rewrite Hag, entry_q_write, decide_True.
  - intros s b Hne. rewrite Hag, entry_q_write, decide_False.
    2:{ intros [-> ->]. by apply Hne. }
    subst seen. destruct done; rewrite ?entry_q_row, entry_q_read, decide_False;
      try done; intros [-> ->]; by apply Hne.
  - subst M. unfold spec_max_next. intros [-> | ->]; [done|]. by destruct done.
  - subst M. unfold spec_max_next. intros -> Hne.
    destruct (py_max (recorded seen k')) as [m|] eqn:Hm.
    + by apply py_max_spec.
    + by apply py_max_None in Hm.
  - intros H. subst M seen. unfold spec_max_next.
    by rewrite recorded_q_read.
  - subst ag'. unfold update_q_value.
    destruct (q_read _ _ _) as [cur qt]. destruct done; [done|].
    by destruct (q_row _ _).
Qed.

Lemma first_best_singleton score a : first_best score [a] a.
Proof.
  exists [], []. split; [done|]. split.
  - intros b ->%list_elem_of_singleton. apply Qle_refl.
  - intros b Hb. by apply elem_of_nil in Hb.
Qed.

Lemma first_best_replace score seen best a :
  first_best score seen best → score best < score a →
  first_best score (seen ++ [a]) a.
Proof.
  intros (pre & post & -> & Hmax & Hfirst) Hlt.
  exists (pre ++ best :: post)%list, []. split; [done|].
  assert (∀ b, b ∈ (pre ++ best :: post)%list → score b < score a) as Hall.
  { intros b Hb. apply Qle_lt_trans with (score best); auto. }
  split; [|done].
  intros b [Hb| ->%list_elem_of_singleton]%elem_of_app.
  - by apply Qlt_le_weak, Hall.
  - apply Qle_refl.
Qed.

Lemma first_best_keep score seen best a :
  first_best score seen best → score a <= score best →
  first_best score (seen ++ [a]) best.
Proof.
  intros (pre & post & -> & Hmax & Hfirst) Hle.
  exists pre, (post ++ [a])%list. split; [by rewrite <- app_assoc|].
  split; [|done].
  intros b [Hb| ->%list_elem_of_singleton]%elem_of_app; auto.
Qed.

Lemma exploit_loop_spec k hmm_probs qt0 actions : ∀ seen qt best_score best_action,
  (∀ s b, q_value qt s b = q_value qt0 s b) →
  loop_state (combined_score qt0 k hmm_probs) seen best_score best_action →
  ∃ qt' best_score' best_action',
    exploit_loop k hmm_probs actions qt best_score best_action
    = (qt', best_score', best_action')
    ∧ (∀ s b, q_value qt' s b = q_value qt0 s b)
    ∧ loop_state (combined_score qt0 k hmm_probs) (seen ++ actions)
                 best_score' best_action'.
Proof.
  induction actions as [|a actions IH]; intros seen qt bs ba Hq Hst.
  - exists qt, bs, ba. by rewrite app_nil_r.
  - cbn [exploit_loop].
    pose proof (q_read_fst qt k a) as Hfst.
    pose proof (q_value_q_read qt k a) as Hsnd.
    destruct (q_read qt k a) as [q_val qt1]. cbn [fst snd] in Hfst, Hsnd.
    assert (Hscore : q_val + default (1 # 1000) (hmm_probs !! a) * 10
                     = combined_score qt0 k hmm_probs a).
    { unfold combined_score. by rewrite Hfst, Hq. }
    rewrite Hscore.
    replace (seen ++ a :: actions)%list with ((seen ++ [a]) ++ actions)%list
      by (by rewrite <- app_assoc).
    assert (Hq1 : ∀ s b, q_value qt1 s b = q_value qt0 s b).
    { intros s b. by rewrite Hsnd. }
    assert (Hnil : ∀ x y : option Q,
               match (seen ++ [a])%list with [] => x | _ => y end = y)
      by (intros; by destruct seen).
    destruct seen as [|s0 seen'].
    + destruct Hst as [-> ->]. cbn [exceeds]. apply IH; [done|].
      exists a. split; [done|]. split; [done|]. apply first_best_singleton.
    + destruct Hst as (best & -> & -> & Hbest). cbn [exceeds].
      destruct (Qltb _ _) eqn:Hlt.
      * apply IH; [done|]. exists a. split; [done|]. split; [done|].
        eapply first_best_replace; [done|]. by apply Qltb_lt.
      * apply IH; [done|]. exists best. split; [done|]. split; [done|].
        eapply first_best_keep; [done|]. by apply Qltb_ge.
Qed.


End AgentClaims.

(** * The letter predictor: sums and normalisation *)

Module SumFacts.

Import PredictSpec.

Local Open Scope Q_scope.

Lemma foldl_Qplus (xs : list Q) : ∀ a, foldl Qplus a xs == a + sum xs.
Proof.
  unfold sum. induction xs as [|x xs IH]; intros a; cbn.
  - by rewrite Qplus_0_r.
  - rewrite (IH (a + x)), (IH (0 + x)). ring.
Qed.

Lemma sum_cons x xs : sum (x :: xs) == x + sum xs.
Proof. unfold sum at 1. cbn. rewrite foldl_Qplus. ring. Qed.

Lemma sum_nonneg xs : Forall (λ v, 0 < v) xs → 0 <= sum xs.
Proof.
  induction 1 as [|x xs Hx _ IH]; [done|].
  rewrite sum_cons. apply Qlt_le_weak in Hx.
  change 0 with (0 + 0). by apply Qplus_le_compat.
Qed.

Lemma sum_pos xs : Forall (λ v, 0 < v) xs → xs ≠ [] → 0 < sum xs.
Proof.
  intros [|x xs' Hx Hxs] Hne; [done|]. rewrite sum_cons.
  apply Qlt_le_trans with (x + 0); [by rewrite Qplus_0_r|].
  apply Qplus_le_compat; [apply Qle_refl | by apply sum_nonneg].
Qed.

Lemma sum_div xs t : sum ((λ v, v / t) <$> xs) == sum xs / t.
Proof.
  induction xs as [|x xs IH]; csimpl.
  - unfold sum. cbn. unfold Qdiv. ring.
  - rewrite !sum_cons, IH. unfold Qdiv. ring.
Qed.

Lemma values_fmap (f : Q → Q) (d : gmap string Q) : values (f <$> d) = f <$> values d.
Proof.
  unfold values. rewrite map_to_list_fmap, <- !list_fmap_compose.
  by apply list_fmap_ext; intros ? [? ?].
Qed.

Lemma values_nil (d : gmap string Q) : values d = [] ↔ d = ∅.
Proof.
  unfold values. split.
  - intros H. apply map_to_list_empty_iff. by apply fmap_nil_inv in H.
  - intros ->. by rewrite map_to_list_empty.
Qed.

Lemma elem_of_values (d : gmap string Q) v : v ∈ values d ↔ ∃ k, d !! k = Some v.
Proof.
  unfold values. rewrite list_elem_of_fmap. split.
  - intros ([k v'] & -> & H). exists k. by apply elem_of_map_to_list.
  - intros [k H]. exists (k, v). split; [done|]. by apply elem_of_map_to_list.
Qed.

Lemma positive_values d : positive d → Forall (λ v, 0 < v) (values d).
Proof.
  intros Hd. apply Forall_forall. intros v [k Hk]%elem_of_values. eauto.
Qed.

Lemma positive_sum d : positive d → d ≠ ∅ → 0 < sum (values d).
Proof.
  intros Hd Hne. apply sum_pos; [by apply positive_values|].
  by rewrite values_nil.
Qed.

Lemma positive_empty : positive ∅.
Proof. intros k v. by rewrite lookup_empty. Qed.

Lemma positive_add_to k x d : positive d → 0 < x → positive (add_to k x d).
Proof.
  intros Hd Hx k' v. unfold add_to.
  destruct (decide (k = k')) as [->|Hne].
  - rewrite lookup_insert_eq. intros [= <-].
    destruct (d !! k') as [w|] eqn:Hw; cbn.
    + apply Hd in Hw. apply Qlt_trans with (0 + x); [by rewrite Qplus_0_l|].
      by apply Qplus_lt_l.
    + by rewrite Qplus_0_l.
  - rewrite lookup_insert_ne by done. apply Hd.
Qed.

(** *** [div_all] *)

Lemma div_all_nonzero d t : ¬ t == 0 → div_all d t = Some ((λ v, v / t) <$> d).
Proof.
  intros Ht. unfold div_all.
  destruct (Qeq_bool t 0) eqn:H; [|done]. by apply Qeq_bool_eq in H.
Qed.

Lemma div_all_empty t : div_all ∅ t = Some ∅.
Proof.
  unfold div_all. destruct (Qeq_bool t 0); [done|]. by rewrite fmap_empty.
Qed.

(** Division of a dictionary of positive numbers by their sum. *)
Lemma div_all_by_sum d :
  positive d →
  ∃ r, div_all d (sum (values d)) = Some r
    ∧ dom r = dom d
    ∧ (∀ k, r !! k = (λ v, v / sum (values d)) <$> d !! k)
    ∧ positive r
    ∧ (d ≠ ∅ → 0 < sum (values d) ∧ sum (values r) == 1).
Proof.
  intros Hd. destruct (decide (d = ∅)) as [->|Hne].
  - exists ∅. rewrite div_all_empty. split; [done|]. split; [done|].
    split; [intros k; by rewrite lookup_empty|]. split; [apply positive_empty|done].
  - pose proof (positive_sum d Hd Hne) as Hpos.
    assert (Hnz : ¬ sum (values d) == 0).
    { intros H. rewrite H in Hpos. by apply Qlt_irrefl in Hpos. }
    exists ((λ v, v / sum (values d)) <$> d).
    split; [by apply div_all_nonzero|]. split; [by rewrite dom_fmap_L|].
    split; [intros k; by rewrite lookup_fmap|]. split.
    + intros k v. rewrite lookup_fmap. destruct (d !! k) as [w|] eqn:Hw; [|done].
      intros [= <-]. apply Qlt_shift_div_l; [done|]. rewrite Qmult_0_l. eauto.
    + intros _. split; [done|]. rewrite values_fmap, sum_div. by field.
Qed.

(** Normalisation of scores whose total is not zero. *)
Lemma div_all_normalises d :
  ¬ sum (values d) == 0 →
  ∃ r, div_all d (sum (values d)) = Some r ∧ dom r = dom d
       ∧ sum (values r) == 1.
Proof.
  intros Hnz. exists ((λ v, v / sum (values d)) <$> d).
  split; [by apply div_all_nonzero|]. split; [by rewrite dom_fmap_L|].
  rewrite values_fmap, sum_div. by field.
Qed.

End SumFacts.

(** * The letter predictor: well-formed models and the fallback *)

Module PredictFacts.

Import HMM PredictSpec SumFacts.
Local Open Scope Q_scope.

Lemma lookup_remaining_freq freq remaining l :
  remaining_freq freq remaining !! l
  = if decide (l ∈ remaining) then Some (default (1 # 100) (freq !! l)) else None.
Proof.
  unfold remaining_freq.
  assert (Hinj : ∀ y y' : string, y ∈ remaining → y' ∈ remaining →
            (y, default (1 # 100) (freq !! y)).1
            = (y', default (1 # 100) (freq !! y')).1 → y = y') by done.
  destruct (decide (l ∈ remaining)) as [Hl|Hl].
  - apply (lookup_set_to_map _ _ _ _ Hinj). by exists l.
  - apply eq_None_not_Some. intros [v Hv].
    apply (lookup_set_to_map _ _ _ _ Hinj) in Hv as (y & Hy & [= -> _]). done.
Qed.

Lemma dom_remaining_freq freq remaining :
  dom (remaining_freq freq remaining) = remaining.
Proof.
  apply set_eq. intros l. rewrite elem_of_dom, lookup_remaining_freq.
  case_decide; [by split; eauto|]. split; [by intros [? ?]|done].
Qed.

Lemma positive_remaining_freq freq remaining :
  positive freq → positive (remaining_freq freq remaining).
Proof.
  intros Hf l v. rewrite lookup_remaining_freq. case_decide; [|done].
  intros [= <-]. destruct (freq !! l) eqn:Hl; cbn; [by eapply Hf|done].
Qed.

Lemma aggregate_positive (tables : gmap nat (gmap string Q)) :
  (∀ n freq, tables !! n = Some freq → positive freq) →
  positive (aggregate tables).
Proof.
  unfold aggregate.
  apply (map_fold_weak_ind
           (λ r (m : gmap nat (gmap string Q)),
              (∀ n freq, m !! n = Some freq → positive freq) → positive r)).
  - intros _. apply positive_empty.
  - intros n freq m r Hn IH Hall.
    assert (Hr : positive r).
    { apply IH. intros n' f' Hf'. apply (Hall n').
      rewrite lookup_insert_ne; [done|]. intros ->. congruence. }
    assert (Hfreq : positive freq).
    { apply (Hall n). by rewrite lookup_insert_eq. }
    revert Hfreq.
    apply (map_fold_weak_ind
             (λ r' (m' : gmap string Q), positive m' → positive r')); [done|].
    intros l p m' r' Hl IH' Hm'.
    apply positive_add_to.
    + apply IH'. intros l' v Hv. apply (Hm' l').
      rewrite lookup_insert_ne; [done|]. intros ->. congruence.
    + apply (Hm' l). by rewrite lookup_insert_eq.
Qed.

(** The fallback never fails.  It gives every unguessed letter of the
    alphabet the frequency [freq] has for it, or [0.01] where it has none,
    divided by the total of these numbers. *)
Lemma fallback_spec h g n :
  (∀ k freq, letter_frequencies h !! k = Some freq → positive freq) →
  ∃ freq r,
    _fallback_probabilities h g n = Some r
    ∧ positive freq
    ∧ (∀ f, letter_frequencies h !! n = Some f → freq = f)
    ∧ (let total := sum (values (remaining_freq freq (alphabet ∖ g))) in
       ∀ l, r !! l = if decide (l ∈ alphabet ∖ g)
                     then Some (default (1 # 100) (freq !! l) / total)
                     else None)
    ∧ dom r = alphabet ∖ g
    ∧ positive r
    ∧ (alphabet ∖ g ≠ ∅ → sum (values r) == 1).
Proof.
  intros Hpos. unfold _fallback_probabilities.
  assert (Hfreq : ∃ freq,
            match letter_frequencies h !! n with
            | Some freq => Some freq
            | None =>
                div_all (aggregate (letter_frequencies h))
                        (sum (values (aggregate (letter_frequencies h))))
            end = Some freq
            ∧ positive freq
            ∧ (∀ f, letter_frequencies h !! n = Some f → freq = f)).
  { destruct (letter_frequencies h !! n) as [f|] eqn:Hn.
    - exists f. split; [done|]. split; [by eapply Hpos|]. by intros ? [= ->].
    - destruct (div_all_by_sum (aggregate (letter_frequencies h)))
        as (r & Hr & _ & _ & Hrpos & _); [by apply aggregate_positive|].
      exists r. by rewrite Hr. }
  destruct Hfreq as (freq & -> & Hf & Hsame). cbn [mbind option_bind].
  fold (remaining_freq freq (alphabet ∖ g)).
  destruct (div_all_by_sum (remaining_freq freq (alphabet ∖ g)))
    as (r & Hr & Hdom & Hlook & Hrpos & Hsum); [by apply positive_remaining_freq|].
  exists freq, r. split; [done|]. split; [done|]. split; [done|].
  split; [|split; [|split]].
  - intros l. rewrite Hlook, lookup_remaining_freq. by case_decide.
  - by rewrite Hdom, dom_remaining_freq.
  - done.
  - intros Hne. apply Hsum. intros Hempty.
    apply Hne. rewrite <- (dom_remaining_freq freq (alphabet ∖ g)).
    by rewrite Hempty, dom_empty_L.
Qed.

End PredictFacts.

(** * The letter predictor: scoring *)

Module ScoringFacts.

Import HMM PredictSpec SumFacts PredictFacts FilterClaims.
Local Open Scope nat_scope.
Local Open Scope list_scope.

Lemma dom_add_to k x (d : gmap string Q) (X : gset string) :
  k ∈ X → dom d ⊆ X → dom (add_to k x d) ⊆ X.
Proof. unfold add_to. rewrite dom_insert_L. set_solver. Qed.

Lemma score_position_spec ep (remaining : gset string) pos scores :
  pos < length ep → dom scores ⊆ remaining →
  ∃ scores', score_position ep remaining pos scores = Some scores'
             ∧ dom scores' ⊆ remaining.
Proof.
  intros Hpos Hdom. unfold score_position.
  destruct (decide (remaining = ∅)); [by eauto|].
  destruct (lookup_lt_is_Some_2 ep pos Hpos) as [e ->]. cbn.
  eexists. split; [done|].
  apply (set_fold_ind_L
           (λ (r : gmap string Q) (X : gset string),
              X ⊆ remaining → dom r ⊆ remaining)); [done| |done].
  intros l X r Hl IH HX. destruct (e !! l).
  - apply dom_add_to; set_solver.
  - apply IH. set_solver.
Qed.

Lemma position_loop_spec ep (remaining : gset string) masked : ∀ pos scores,
  length masked + pos <= length ep → dom scores ⊆ remaining →
  ∃ scores', position_loop ep remaining pos masked scores = Some scores'
             ∧ dom scores' ⊆ remaining.
Proof.
  induction masked as [|c masked IH]; intros pos scores Hlen Hdom; cbn.
  - by eauto.
  - cbn in Hlen. destruct (decide (c = "_")).
    + destruct (score_position_spec ep remaining pos scores)
        as (s1 & -> & Hs1); [lia|done|]. cbn. apply IH; [lia|done].
    + cbn. apply IH; [lia|done].
Qed.

Lemma frequency_word_spec word (remaining : gset string) masked : ∀ pos scores,
  length masked + pos <= length word → dom scores ⊆ remaining →
  ∃ scores', frequency_word word remaining pos masked scores = Some scores'
             ∧ dom scores' ⊆ remaining.
Proof.
  induction masked as [|c masked IH]; intros pos scores Hlen Hdom; cbn.
  - by eauto.
  - cbn in Hlen. destruct (decide (c = "_")).
    + destruct (lookup_lt_is_Some_2 word pos) as [l ->]; [lia|]. cbn.
      apply IH; [lia|]. case_decide; [by apply dom_add_to|done].
    + cbn. apply IH; [lia|done].
Qed.

Lemma frequency_loop_spec masked_word (remaining : gset string) ws : ∀ scores,
  Forall (λ w, String.length w = String.length masked_word) ws →
  dom scores ⊆ remaining →
  ∃ scores', frequency_loop ws masked_word remaining scores = Some scores'
             ∧ dom scores' ⊆ remaining.
Proof.
  induction ws as [|w ws IH]; intros scores Hws Hdom; cbn.
  - by eauto.
  - apply Forall_cons in Hws as [Hw Hws].
    destruct (frequency_word_spec (chars w) remaining (chars masked_word) 0 scores)
      as (s1 & -> & Hs1); [rewrite !chars_length; lia|done|].
    cbn. by apply IH.
Qed.

(** With one emission table per position, the scoring stage never
    fails, and it scores unguessed letters of the alphabet only. *)
Lemma letter_scores_spec model masked_word g :
  length (emission_probs model) = String.length masked_word →
  ∃ scores, letter_scores model masked_word g = Some scores
            ∧ dom scores ⊆ alphabet ∖ g.
Proof.
  intros Hlen. unfold letter_scores.
  rewrite filter_matching_words_eq. cbn [mbind option_bind].
  case_decide.
  - apply position_loop_spec; [rewrite chars_length; lia|].
    rewrite dom_empty_L. set_solver.
  - apply frequency_loop_spec; [|rewrite dom_empty_L; set_solver].
    apply Forall_forall. intros w [Hw _]%list_elem_of_filter.
    by apply consistent_with_lookup in Hw as [? _].
Qed.

(** The prediction of a well-formed predictor: it never fails, it covers
    unguessed letters of the alphabet only, its values add up to 1 as
    soon as a letter is left, and it is the fallback when no model has
    the length or the scores add up to zero. *)
Lemma predict_spec h masked_word g :
  wf_hmm h →
  ∃ d, predict_letter_probabilities h masked_word g = Some d
       ∧ dom d ⊆ alphabet ∖ g
       ∧ (alphabet ∖ g ≠ ∅ → (sum (values d) == 1)%Q)
       ∧ (match models h !! String.length masked_word with
          | None => True
          | Some model =>
              ∃ scores, letter_scores model masked_word g = Some scores
                        ∧ (sum (values scores) == 0)%Q
          end →
          _fallback_probabilities h g (String.length masked_word) = Some d).
Proof.
  intros [Hmodels Hfreq]. unfold predict_letter_probabilities.
  destruct (fallback_spec h g (String.length masked_word) Hfreq)
    as (freq & r & Hr & _ & _ & _ & Hdom & _ & Hsum).
  destruct (models h !! String.length masked_word) as [model|] eqn:Hm.
  - destruct (letter_scores_spec model masked_word g) as (scores & Hs & Hsub).
    { by apply Hmodels. }
    rewrite Hs. cbn [mbind option_bind].
    destruct (Qeq_bool (sum (values scores)) 0) eqn:Hz.
    + exists r. rewrite Hdom. done.
    + apply Qeq_bool_neq in Hz.
      destruct (div_all_normalises scores Hz) as (d & Hd & Hdd & Hone).
      exists d. split; [done|]. split; [by rewrite Hdd|]. split; [done|].
      intros (scores' & Hs' & Hzero). congruence.
  - exists r. rewrite Hdom. done.
Qed.

End ScoringFacts.

(** * The letter predictor: what training establishes *)

Module TrainFacts.

Import HMM PredictSpec SumFacts PredictFacts.
Local Open Scope Q_scope.

Lemma to_probs_length ec pt n : ∀ pos l,
  to_probs ec pt pos n = Some l → length l = n.
Proof.
  induction n as [|n IH]; intros pos l; cbn.
  - by intros [= <-].
  - destruct (ec !! pos) as [c|]; [|done]. cbn.
    destruct (if decide (c = ∅) then _ else _) as [p|]; [|done]. cbn.
    destruct (to_probs ec pt (S pos) n) as [rest|] eqn:Hrest; [|done].
    cbn. intros [= <-]. cbn. f_equal. by eapply IH.
Qed.

Lemma train_length_model_length ws n model :
  _train_length_model ws n = Some model → length (emission_probs model) = n.
Proof.
  unfold _train_length_model.
  destruct (count_words ws _) as [[ec pt]|]; [|done]. cbn.
  destruct (to_probs ec pt 0 n) as [l|] eqn:Hl; [|done]. cbn.
  intros [= <-]. cbn. by eapply to_probs_length.
Qed.

Lemma counter_positive s : positive (counter s).
Proof.
  unfold counter. generalize (chars s). intros xs.
  assert (∀ acc, positive acc →
            positive (foldl (λ acc letter, add_to letter 1 acc) acc xs)) as H.
  { induction xs as [|x xs IH]; intros acc Hacc; cbn; [done|].
    apply IH. by apply positive_add_to. }
  apply H, positive_empty.
Qed.

Lemma div_all_positive d t r :
  positive d → 0 <= t → div_all d t = Some r → positive r.
Proof.
  intros Hd Ht. unfold div_all. destruct (Qeq_bool t 0) eqn:Hz.
  - case_decide; [|done]. intros [= <-]. apply positive_empty.
  - apply Qeq_bool_neq in Hz. intros [= <-] k v. rewrite lookup_fmap.
    destruct (d !! k) as [w|] eqn:Hw; [|done]. intros [= <-].
    assert (0 < t).
    { apply Qle_lteq in Ht as [?|Heq]; [done|]. exfalso. apply Hz. by symmetry. }
    apply Qlt_shift_div_l; [done|]. rewrite Qmult_0_l. eauto.
Qed.

Lemma calculate_frequencies_positive ws freq :
  _calculate_frequencies ws = Some freq → positive freq.
Proof.
  unfold _calculate_frequencies. apply div_all_positive.
  - apply counter_positive.
  - unfold Qle. cbn. lia.
Qed.

(** Training keeps a predictor well formed; in particular the predictor
    trained from scratch is. *)
Lemma train_wf h ws h' : wf_hmm h → train h ws = Some h' → wf_hmm h'.
Proof.
  intros Hwf. unfold train. revert h'.
  apply (map_fold_weak_ind
           (λ (r : option HangmanHMM) (_ : gmap nat (list string)),
              ∀ h', r = Some h' → wf_hmm h')).
  - by intros h' [= <-].
  - intros n word_list m r _ IH h'.
    destruct r as [h1|]; [|done]. cbn.
    destruct (_train_length_model word_list n) as [model|] eqn:Hmodel; [|done].
    destruct (_calculate_frequencies word_list) as [freq|] eqn:Hfreq; [|done].
    cbn. intros [= <-]. destruct (IH h1 eq_refl) as [Hm Hf]. split; cbn.
    + intros k model'. destruct (decide (n = k)) as [->|Hne].
      * rewrite lookup_insert_eq. intros [= <-].
        by eapply train_length_model_length.
      * rewrite lookup_insert_ne by done. apply Hm.
    + intros k freq'. destruct (decide (n = k)) as [->|Hne].
      * rewrite lookup_insert_eq. intros [= <-].
        by eapply calculate_frequencies_positive.
      * rewrite lookup_insert_ne by done. apply Hf.
Qed.

Lemma init_wf : wf_hmm init.
Proof. split; intros n x; cbn; by rewrite lookup_empty. Qed.

End TrainFacts.

(** * The letter predictor: training never fails *)

Module TrainTotal.

Import HMM PredictSpec SumFacts PredictFacts TrainFacts.
Local Open Scope Q_scope.

Lemma counts_ok_init n : counts_ok n (replicate n ∅, replicate n 0).
Proof.
  split; [cbn; by rewrite length_replicate|].
  split; [cbn; by rewrite length_replicate|].
  cbn. intros pos c t [-> _]%lookup_replicate [-> _]%lookup_replicate.
  split; [apply Qle_refl|done].
Qed.

Lemma add_to_nonempty k x (d : gmap string Q) : add_to k x d ≠ ∅.
Proof. unfold add_to. apply insert_non_empty. Qed.

Lemma count_word_ok n word : ∀ pos counts,
  (length word + pos <= n)%nat → counts_ok n counts →
  ∃ counts', count_word word pos counts = Some counts' ∧ counts_ok n counts'.
Proof.
  induction word as [|letter word IH]; intros pos [ec pt] Hlen Hok; cbn.
  - by eauto.
  - cbn in Hlen. destruct Hok as (Hec & Hpt & Hpos). cbn in Hec, Hpt, Hpos.
    destruct (lookup_lt_is_Some_2 ec pos) as [c Hc]; [lia|].
    destruct (lookup_lt_is_Some_2 pt pos) as [t Ht]; [lia|].
    rewrite Hc, Ht. cbn. apply IH; [lia|].
    split; [cbn; by rewrite length_insert|].
    split; [cbn; by rewrite length_insert|].
    cbn. intros pos' c' t'. destruct (decide (pos = pos')) as [<-|Hne].
    + rewrite !list_lookup_insert_eq by lia. intros [= <-] [= <-].
      destruct (Hpos pos c t Hc Ht) as [Hge _].
      assert (0 < t + 1).
      { apply Qle_lt_trans with (t + 0); [by rewrite Qplus_0_r|].
        by apply Qplus_lt_r. }
      split; [by apply Qlt_le_weak|done].
    + rewrite !list_lookup_insert_ne by done. apply Hpos.
Qed.

Lemma count_words_ok n ws : ∀ counts,
  Forall (λ w, String.length w = n) ws → counts_ok n counts →
  ∃ counts', count_words ws counts = Some counts' ∧ counts_ok n counts'.
Proof.
  induction ws as [|w ws IH]; intros counts Hws Hok; cbn.
  - by eauto.
  - apply Forall_cons in Hws as [Hw Hws].
    destruct (count_word_ok n (chars w) 0 counts) as (c1 & -> & Hok1);
      [rewrite chars_length; lia|done|].
    cbn. by apply IH.
Qed.

Lemma to_probs_ok n ec pt : ∀ k pos,
  counts_ok n (ec, pt) → (pos + k <= n)%nat →
  is_Some (to_probs ec pt pos k).
Proof.
  induction k as [|k IH]; intros pos Hok Hlen; cbn; [by eauto|].
  destruct Hok as (Hec & Hpt & Hpos). cbn in Hec, Hpt, Hpos.
  destruct (lookup_lt_is_Some_2 ec pos) as [c Hc]; [lia|].
  destruct (lookup_lt_is_Some_2 pt pos) as [t Ht]; [lia|].
  rewrite Hc. cbn.
  assert (Hprobs : is_Some (if decide (c = ∅) then Some ∅
                            else t ← pt !! pos; div_all c t)).
  { case_decide as Hempty; [by eauto|]. rewrite Ht. cbn.
    rewrite div_all_nonzero; [by eauto|].
    destruct (Hpos pos c t Hc Ht) as [_ Hlt]. specialize (Hlt Hempty).
    intros Hz. rewrite Hz in Hlt. by apply Qlt_irrefl in Hlt. }
  destruct Hprobs as [p ->]. cbn.
  destruct (IH (S pos)) as [rest ->]; [done|lia|]. cbn. by eauto.
Qed.

Lemma train_length_model_total ws n :
  Forall (λ w, String.length w = n) ws → is_Some (_train_length_model ws n).
Proof.
  intros Hws. unfold _train_length_model.
  destruct (count_words_ok n ws _ Hws (counts_ok_init n)) as ([ec pt] & -> & Hok).
  cbn. destruct (to_probs_ok n ec pt n 0 Hok) as [l ->]; [lia|]. cbn. by eauto.
Qed.

Lemma inject_nat_zero (n : nat) : inject_Z (Z.of_nat n) == 0 → n = 0%nat.
Proof. unfold Qeq. cbn. lia. Qed.

Lemma calculate_frequencies_total ws : is_Some (_calculate_frequencies ws).
Proof.
  unfold _calculate_frequencies, div_all.
  destruct (Qeq_bool _ 0) eqn:Hz; [|by eauto].
  apply Qeq_bool_eq, inject_nat_zero in Hz.
  destruct (join ws) as [|c s]; [|done]. cbn. by eauto.
Qed.

(** Every bucket of [group_by_length] holds words of the length that names
    it. *)
Lemma group_by_length_lengths ws n bucket :
  group_by_length ws !! n = Some bucket →
  Forall (λ w, String.length w = n) bucket.
Proof.
  unfold group_by_length. revert n bucket.
  assert (H : ∀ acc : gmap nat (list string),
            (∀ n b, acc !! n = Some b → Forall (λ w, String.length w = n) b) →
            ∀ n b,
              foldl (λ acc word,
                       if isalpha word then
                         <[String.length word :=
                             (default [] (acc !! String.length word) ++ [word])%list]> acc
                       else acc) acc ws !! n = Some b →
              Forall (λ w, String.length w = n) b).
  { induction ws as [|w ws IH]; intros acc Hacc; cbn; [done|].
    apply IH. destruct (isalpha w); [|done].
    intros n b. destruct (decide (String.length w = n)) as [<-|Hne].
    - rewrite lookup_insert_eq. intros [= <-]. apply Forall_app. split.
      + destruct (acc !! String.length w) eqn:Hb; cbn; [by eapply Hacc|done].
      + by repeat constructor.
    - rewrite lookup_insert_ne by done. apply Hacc. }
  apply H. intros n b. by rewrite lookup_empty.
Qed.

(** Training never fails, whatever the corpus, and yields a well-formed
    predictor. *)
Lemma train_total h ws : wf_hmm h → ∃ h', train h ws = Some h' ∧ wf_hmm h'.
Proof.
  intros Hwf.
  assert (Hsome : is_Some (train h ws)).
  { unfold train. generalize (group_by_length_lengths ws).
    apply (map_fold_weak_ind
             (λ (r : option HangmanHMM) (m : gmap nat (list string)),
                (∀ n b, m !! n = Some b → Forall (λ w, String.length w = n) b) →
                is_Some r)); [by eauto|].
    intros n word_list m r Hn IH Hall.
    destruct IH as [h1 ->].
    { intros k b Hb. apply Hall. rewrite lookup_insert_ne; [done|].
      intros ->. congruence. }
    cbn. destruct (train_length_model_total word_list n) as [model ->].
    { apply Hall. by rewrite lookup_insert_eq. }
    destruct (calculate_frequencies_total word_list) as [freq ->]. cbn. by eauto. }
  destruct Hsome as [h' Hh']. exists h'. split; [done|]. by eapply train_wf.
Qed.

End TrainTotal.

(** * The letter predictor: the distribution it returns *)

Module PredictClaims.

Import HMM PredictSpec Samples SumFacts PredictFacts ScoringFacts TrainFacts.
Local Open Scope Q_scope.

Lemma trained_is_trained : train init corpus = Some trained.
Proof. vm_compute. reflexivity. Qed.

Lemma trained_wf : wf_hmm trained.
Proof. eapply train_wf; [apply init_wf | apply trained_is_trained]. Qed.


(** C8, as the code has it.  For a well-formed predictor, such as a
    trained one, [predict_letter_probabilities] returns a mapping for
    every masked word and every guessed set: no division by zero, no
    index out of range.  When no model has the length of the masked word
    or the scores add up to zero, the mapping is the fallback: every
    unguessed letter of the alphabet has the frequency of the table, or
    the prior 0.01 where the table has none, divided by the total of
    these numbers, which is a positive probability, and the
    probabilities add up to 1 unless all 26 letters are guessed. *)
Theorem predict_never_raises (h : HangmanHMM) (masked_word : string)
    (guessed_letters : gset string) :
  wf_hmm h →
  ∃ d, predict_letter_probabilities h masked_word guessed_letters = Some d
       ∧ (falls_back h masked_word guessed_letters →
          ∃ freq total,
            _fallback_probabilities h guessed_letters (String.length masked_word)
            = Some d
            ∧ (∀ f, letter_frequencies h !! String.length masked_word = Some f →
                    freq = f)
            ∧ (∀ l, l ∈ alphabet ∖ guessed_letters →
                    d !! l = Some (default (1 # 100) (freq !! l) / total)
                    ∧ 0 < default (1 # 100) (freq !! l) / total)
            ∧ dom d = alphabet ∖ guessed_letters
            ∧ (alphabet ∖ guessed_letters ≠ ∅ → sum (values d) == 1)).
Proof.
  intros Hwf.
  destruct (predict_spec h masked_word guessed_letters Hwf)
    as (d & Hd & _ & _ & Hfb).
  exists d. split; [done|]. intros Hf. specialize (Hfb Hf).
  destruct (fallback_spec h guessed_letters (String.length masked_word)
              (proj2 Hwf)) as (freq & r & Hr & _ & Hsame & Hlook & Hdom & Hpos & Hsum).
  assert (r = d) as -> by congruence.
  exists freq, (sum (values (remaining_freq freq (alphabet ∖ guessed_letters)))).
  split; [done|]. split; [done|]. split; [|by split].
  intros l Hl. specialize (Hlook l). rewrite decide_True in Hlook by done.
  split; [done|]. by eapply Hpos.
Qed.

End PredictClaims.

(** * Scenarios: the theorems at concrete inputs *)

Module Scenarios.

Import Env EnvSpec EnvFacts EnvClaims HMM PredictSpec Samples SumFacts PredictFacts PredictClaims.
Import Agent AgentClaims.

(** ** The environment on the word "cat" *)

Lemma reset_cat : reset e0 (Some "cat") 0 = Some e_reset.
Proof. vm_compute. reflexivity. Qed.

Lemma step_a :
  step e_reset "a"
  = Some (e_a, (_get_state e_a, 10%Z, false, mkInfo false true (MsgCorrect "a" 1))).
Proof. vm_compute. reflexivity. Qed.

Lemma reach_a : reachable lowercase e0 e_a.
Proof.
  apply (reach_step lowercase e0 e_reset "a" e_a _ (reach_reset _ _ _ _ _ reset_cat)
           eq_refl step_a).
Qed.

Lemma step_repeated_frame_witness :
  (lower "a" ∈ guessed_letters e_a ∨ ∃ e out, step e "a" = Some (e_a, out))
  ∧ step e_a "a"
    = Some (e_a, (_get_state e_a, (-2)%Z, game_over e_a,
                  mkInfo true false (MsgAlready (lower "a")))).
Proof.
  assert (H : lower "a" ∈ guessed_letters e_a ∨ ∃ e out, step e "a" = Some (e_a, out)).
  { right. eexists _, _. apply step_a. }
  split; [exact H | exact (step_repeated_frame e_a "a" H)].
Defined.

Lemma lives_invariant_witness :
  reachable lowercase e0 e_a
  ∧ (st_wrong_guesses (_get_state e_a) + st_lives_remaining (_get_state e_a)
     = max_wrong e0
     ∧ (0 <= max_wrong e0 → st_game_over (_get_state e_a) = false →
        0 <= st_lives_remaining (_get_state e_a)))%Z.
Proof. split; [exact reach_a | exact (lives_invariant lowercase e0 e_a reach_a)]. Defined.

Lemma mask_target_consistency_witness :
  reachable lowercase e0 e_a
  ∧ (String.length (masked_word e_a) = String.length (target_word e_a)
     ∧ ∀ i m t,
         chars (masked_word e_a) !! i = Some m →
         chars (target_word e_a) !! i = Some t →
         (m = "_" ∨ m = t) ∧ (m ≠ "_" ↔ t ∈ guessed_letters e_a)).
Proof. split; [exact reach_a | exact (mask_target_consistency e0 e_a reach_a)]. Defined.

Lemma step_reward_witness :
  reachable lowercase e0 e_a ∧ game_over e_a = false ∧ lowercase "c"
  ∧ let k := occurrences_of "c" (chars (target_word e_a)) in
    let guessed := {["c"]} ∪ guessed_letters e_a in
    ∃ e' st reward done info,
      step e_a "c" = Some (e', (st, reward, done, info))
      ∧ reward =
          (if decide ("c" ∈ guessed_letters e_a) then -2
           else if decide (1 <= k) then
             10 * k
             + (if decide (Forall (λ t, t ∈ guessed) (chars (target_word e_a)))
                then 100 else 0)
           else
             -5 + (if decide (max_wrong e0 <= wrong_guesses e_a + 1)
                   then -50 else 0))%Z
      ∧ guessed_letters e' = guessed
      ∧ wrong_guesses e'
        = (wrong_guesses e_a
           + (if decide ("c" ∈ guessed_letters e_a ∨ 1 <= k) then 0 else 1))%Z
      ∧ (Forall (λ t, t ∈ guessed) (chars (target_word e_a))
         ↔ "_" ∉ chars (masked_word e'))
      ∧ (0 < max_wrong e0 → max_wrong e0 <= wrong_guesses e_a + 1 →
         wrong_guesses e_a + 1 = max_wrong e0)%Z.
Proof.
  assert (H2 : game_over e_a = false) by reflexivity.
  assert (H3 : lowercase "c") by reflexivity.
  split; [exact reach_a|]. split; [exact H2|].
  split; [exact H3|]. exact (step_reward e0 e_a "c" reach_a H2 H3).
Defined.

(** Without a life to lose the first miss already costs 55, and the
    wrong-guess count it leaves is 1, not [max_wrong]. *)
Lemma reward_no_budget_counterexample :
  reset Games.e_nolife0 (Some "cat") 0 = Some Games.e_nolife
  ∧ game_over Games.e_nolife = false ∧ lowercase "z"
  ∧ "z" ∉ guessed_letters Games.e_nolife
  ∧ occurrences_of "z" (chars (target_word Games.e_nolife)) = 0%Z
  ∧ ∃ e' st done info,
      step Games.e_nolife "z" = Some (e', (st, (-55)%Z, done, info))
      ∧ wrong_guesses e' = 1%Z
      ∧ wrong_guesses e' ≠ max_wrong Games.e_nolife0.
Proof.
  split; [vm_compute; reflexivity|]. split; [reflexivity|]. split; [reflexivity|].
  split; [cbn; apply not_elem_of_empty|]. split; [vm_compute; reflexivity|].
  eexists _, _, _, _. split; [vm_compute; reflexivity|]. by split.
Qed.

(** With a negative budget the game starts with a negative number of
    lives and is not over. *)
Lemma lives_negative_counterexample :
  reset Games.e_debt0 (Some "cat") 0 = Some Games.e_debt
  ∧ reachable lowercase Games.e_debt0 Games.e_debt
  ∧ (st_wrong_guesses (_get_state Games.e_debt)
     + st_lives_remaining (_get_state Games.e_debt) = max_wrong Games.e_debt0)%Z
  ∧ st_game_over (_get_state Games.e_debt) = false
  ∧ st_lives_remaining (_get_state Games.e_debt) = (-1)%Z
  ∧ ¬ (0 <= st_lives_remaining (_get_state Games.e_debt))%Z.
Proof.
  assert (H : reset Games.e_debt0 (Some "cat") 0 = Some Games.e_debt)
    by (vm_compute; reflexivity).
  split; [exact H|]. split; [exact (reach_reset _ _ _ _ _ H)|].
  split; [reflexivity|]. split; [reflexivity|]. split; [reflexivity|].
  cbn. lia.
Qed.

Lemma distinct_guesses_terminate_witness :
  reset e0 (Some "cat") 0 = Some e_reset
  ∧ NoDup (lower <$> ["z"; "a"; "q"; "x"; "j"; "k"; "v"])
  ∧ (∃ e', run e_reset ["z"; "a"; "q"; "x"; "j"; "k"; "v"] = Some e'
           ∧ wrong_guesses e'
             = misses (target_word e_reset) ["z"; "a"; "q"; "x"; "j"; "k"; "v"]
           ∧ ((0 < max_wrong e0)%Z →
              (max_wrong e0
               <= misses (target_word e_reset) ["z"; "a"; "q"; "x"; "j"; "k"; "v"])%Z →
              game_over e' = true))
  ∧ (∃ e', play e_reset ["z"; "a"; "q"; "x"; "j"; "k"; "v"] = Some e'
           ∧ (wrong_guesses e' <= Z.max 1 (max_wrong e0))%Z
           ∧ ((0 < max_wrong e0)%Z → (wrong_guesses e' <= max_wrong e0)%Z)).
Proof.
  assert (H3 : NoDup (lower <$> ["z"; "a"; "q"; "x"; "j"; "k"; "v"])).
  { apply (bool_decide_unpack _). vm_compute. exact I. }
  split; [exact reset_cat|]. split; [exact H3|].
  exact (distinct_guesses_terminate e0 e_reset (Some "cat") 0 _ reset_cat H3).
Defined.

(** Without a life to lose an episode of 26 distinct guesses that starts
    with a miss ends at once, not won, with one wrong guess: more than
    [max_wrong]. *)
Lemma no_budget_episode_counterexample :
  reset Games.e_nolife0 (Some "cat") 0 = Some Games.e_nolife
  ∧ length Games.zyx = 26%nat ∧ NoDup (lower <$> Games.zyx)
  ∧ game_over Games.e_nolife = false
  ∧ ∃ e', play Games.e_nolife Games.zyx = Some e'
          ∧ game_over e' = true ∧ won e' = false
          ∧ wrong_guesses e' = 1%Z
          ∧ ¬ (wrong_guesses e' <= max_wrong Games.e_nolife0)%Z.
Proof.
  split; [vm_compute; reflexivity|]. split; [reflexivity|].
  split; [apply (bool_decide_unpack _); vm_compute; exact I|].
  split; [reflexivity|].
  exists (mkEnv 0 corpus "cat" "___" {["z"]} 1 true false).
  split; [vm_compute; reflexivity|]. split; [reflexivity|]. split; [reflexivity|].
  split; [reflexivity|]. cbn. lia.
Qed.

(** ** The predictor trained on "cat", "dog", "bat" *)




Lemma predict_never_raises_witness :
  wf_hmm trained
  ∧ ∃ d, predict_letter_probabilities trained "____" {["a"]} = Some d
         ∧ (falls_back trained "____" {["a"]} →
            ∃ freq total,
              _fallback_probabilities trained {["a"]} (String.length "____") = Some d
              ∧ (∀ f, letter_frequencies trained !! String.length "____" = Some f →
                      freq = f)
              ∧ (∀ l, l ∈ alphabet ∖ {["a"]} →
                      d !! l = Some (default (1 # 100) (freq !! l) / total)%Q
                      ∧ (0 < default (1 # 100) (freq !! l) / total)%Q)
              ∧ dom d = alphabet ∖ {["a"]}
              ∧ (alphabet ∖ {["a"]} ≠ ∅ → (sum (values d) == 1)%Q)).
Proof.
  split; [exact trained_wf|].
  exact (predict_never_raises trained "____" {["a"]} trained_wf).
Defined.

(** With all 26 letters guessed no score is computed, the prediction
    falls back, and the fallback is the empty mapping, whose values add
    up to 0. *)
Lemma fallback_all_guessed_counterexample :
  train HMM.init corpus = Some trained
  ∧ wf_hmm trained ∧ falls_back trained "___" alphabet
  ∧ ∃ d, predict_letter_probabilities trained "___" alphabet = Some d
         ∧ d = ∅ ∧ ¬ (sum (values d) == 1)%Q.
Proof.
  split; [exact trained_is_trained|]. split; [exact trained_wf|]. split.
  { unfold falls_back.
    assert (Hm : is_Some (models trained !! String.length "___"))
      by (vm_compute; eauto).
    destruct Hm as [model Hm]. rewrite Hm.
    assert (model = default (mkModel [] [])
                            (models trained !! String.length "___")) as ->
      by (by rewrite Hm).
    exists ∅. split; vm_compute; reflexivity. }
  exists ∅. split; [vm_compute; reflexivity|]. split; [done|].
  vm_compute. discriminate.
Qed.

End Scenarios.

Module AgentScenarios.

Import Env HMM PredictSpec Samples SumFacts PredictFacts PredictClaims Agent AgentSpec AgentClaims.
Local Open Scope Q_scope.




(** A repeated guess leaves the state where it is, so the next state has
    the key of the state.  The value recorded for that key is -3, which
    the rule as worded would bootstrap from; the code has by then
    recorded [Q[s,a] = 0] under the same key and bootstraps from 0. *)
Lemma update_alias_counterexample :
  let k := _get_state_key s_reset in
  let q := q_value (q_table novice) k "a" in
  let M := spec_max_next (q_table novice) k false in
  recorded (q_table novice) k = [-(3)]
  ∧ q_value (q_table (update_q_value novice s_reset "a" (-(2)) s_reset false)) k "a"
    == -(2 # 10)
  ∧ q + learning_rate novice * (-(2) + discount_factor novice * M - q) == -(485 # 1000)
  ∧ ¬ q_value (q_table (update_q_value novice s_reset "a" (-(2)) s_reset false)) k "a"
      == q + learning_rate novice * (-(2) + discount_factor novice * M - q).
Proof.
  cbv zeta. split; [vm_compute; reflexivity|].
  split; [vm_compute; reflexivity|]. split; [vm_compute; reflexivity|].
  vm_compute. discriminate.
Qed.

End AgentScenarios.

(** * The game environment: episodes *)

Module EnvExtras.

Import Env EnvSpec EnvFacts.
Local Open Scope list_scope.

Lemma mask_of_mono (g g' : gset string) target i m :
  g ⊆ g' → mask_of g target !! i = Some m → m ≠ "_" →
  mask_of g' target !! i = Some m.
Proof.
  unfold mask_of. rewrite !list_lookup_fmap. intros Hsub.
  destruct (target !! i) as [t|]; [|done]. cbn.
  destruct (decide (t ∈ g)) as [Hin|Hout]; intros [= <-] Hm; [|done].
  by rewrite decide_True by (by apply Hsub).
Qed.

Lemma reachable_word_list P e0 e : reachable P e0 e → word_list e = word_list e0.
Proof.
  induction 1 as [word r e Hr | e l e' out Hreach IH _ Hs].
  - unfold reset in Hr.
    destruct (match word with Some w => _ | None => _ end) as [t|]; [|done].
    simpl in Hr. by injection Hr as <-.
  - destruct (reachable_invariant _ _ _ Hreach) as (Hc & _).
    destruct (step_preserves e l Hc) as (e'' & out' & Hs' & _ & _ & Hw & _).
    rewrite Hs in Hs'. injection Hs' as <- <-. congruence.
Qed.

(** X1. A step in a reachable state never fails and never undoes
    anything: the target stays, the guessed set only grows, the wrong-guess
    count goes up by at most one, [game_over] and [won] stay once set, and a
    revealed position of the mask keeps its letter. *)
Theorem step_never_remasks (P : string → Prop) (e0 e : HangmanEnvironment)
    (letter : string) :
  reachable P e0 e →
  ∃ e' out,
    step e letter = Some (e', out)
    ∧ target_word e' = target_word e
    ∧ guessed_letters e ⊆ guessed_letters e'
    ∧ (wrong_guesses e <= wrong_guesses e' <= wrong_guesses e + 1)%Z
    ∧ (game_over e = true → game_over e' = true)
    ∧ (won e = true → won e' = true)
    ∧ ∀ i m, chars (masked_word e) !! i = Some m → m ≠ "_" →
             chars (masked_word e') !! i = Some m.
Proof.
  intros Hr. destruct (reachable_invariant _ _ _ Hr) as (Hc & _).
  assert (Hmask : ∀ i m, chars (masked_word e) !! i = Some m → m ≠ "_" →
            mask_of ({[lower letter]} ∪ guessed_letters e) (chars (target_word e)) !! i
            = Some m).
  { intros i m Hm Hne. rewrite Hc in Hm.
    eapply mask_of_mono; [|done..]. set_solver. }
  step_cases e letter Hc; eexists _, _; (split; [reflexivity|]); cbn.
  all: rewrite ?chars_join_mask.
  all: split; [done|]; split; [set_solver|]; split; [lia|].
  all: split; [done|]; split; [done|]; try done.
Qed.

(** What holds of [won] and [game_over] in the states reached by guesses
    of single lowercase letters. *)
Lemma reachable_outcome e0 e :
  reachable lowercase e0 e →
  (won e = true ↔
   target_word e ≠ "" ∧ ∀ t, t ∈ chars (target_word e) → t ∈ guessed_letters e)
  ∧ ((0 < max_wrong e)%Z →
     (game_over e = true ↔ won e = true ∨ (max_wrong e <= wrong_guesses e)%Z)).
Proof.
  induction 1 as [word r e Hr | e l e' out Hreach IH Hl Hs].
  - unfold reset in Hr.
    destruct (match word with Some w => _ | None => _ end) as [t|]; [|done].
    simpl in Hr. injection Hr as <-. cbn. split.
    + split; [done|]. intros [Hne Hall]. destruct t as [|c t]; [done|].
      specialize (Hall (chr c)). cbn in Hall.
      assert (chr c ∈ (∅ : gset string)) by (apply Hall; by left). set_solver.
    + intros Hmw. split; [done|]. intros [?|?]; [done|lia].
  - destruct IH as [Hwon Hover].
    destruct (reachable_invariant _ _ _ Hreach) as (Hc & _).
    pose proof (reachable_lower_guessed _ _ Hreach) as Hg.
    assert (Hg' : ∀ x, x ∈ {[l]} ∪ guessed_letters e → is_lower_letter x = true).
    { intros x [->%elem_of_singleton|?]%elem_of_union; auto. }
    destruct (lower_letter_chr _ Hl) as [c Hchr].
    assert (Hplace : ∀ m, "_" ∈ chars m ↔ str_in "_" m = true).
    { intros m. symmetry. apply (str_in_chr "_"%char). }
    pose proof (EnvClaims.mask_complete _ (chars (target_word e)) Hg') as Hcomplete.
    assert (Hmem : str_in l (target_word e) = true ↔ l ∈ chars (target_word e)).
    { subst l. apply str_in_chr. }
    revert Hs. step_cases e l Hc; rewrite ?(lower_letter_fixed _ Hl) in *.
    all: intros [= <- <-]; cbn.
    + replace ({[l]} ∪ guessed_letters e) with (guessed_letters e) by set_solver.
      done.
    + apply Hplace in Hph. rewrite chars_join_mask in Hph.
      split; [|done]. rewrite Hwon. split.
      * intros [? Hall]. split; [done|]. intros t Ht. set_solver.
      * intros [_ Hall]. exfalso. by apply Hcomplete in Hall.
    + apply not_true_iff_false in Hph. rewrite <- Hplace, chars_join_mask in Hph.
      split; [|intros _; split; [by left|done]].
      split; [|done]. intros _. split; [|by apply Hcomplete].
      intros Hempty. apply Hmem in Hin. rewrite Hempty in Hin.
      by apply elem_of_nil in Hin.
    + assert (l ∉ chars (target_word e)) by (rewrite <- Hmem; congruence).
      split.
      * rewrite Hwon. split; intros [? Hall]; (split; [done|]); intros t Ht.
        -- set_solver.
        -- specialize (Hall t Ht). set_solver.
      * intros _. split; [by right|done].
    + assert (l ∉ chars (target_word e)) by (rewrite <- Hmem; congruence).
      split.
      * rewrite Hwon. split; intros [? Hall]; (split; [done|]); intros t Ht.
        -- set_solver.
        -- specialize (Hall t Ht). set_solver.
      * intros Hmw. rewrite (Hover Hmw). split; (intros [?|?]; [by left|]).
        -- right. lia.
        -- lia.
Qed.

(** X2. In a game played with single lowercase letters, [won] holds
    exactly when the target is not empty and every one of its letters has
    been guessed. *)
Theorem won_iff_all_guessed (e0 e : HangmanEnvironment) :
  reachable lowercase e0 e →
  (won e = true ↔
   target_word e ≠ "" ∧ ∀ t, t ∈ chars (target_word e) → t ∈ guessed_letters e).
Proof. intros Hr. by apply reachable_outcome in Hr as [? _]. Qed.

(** X3. In a game played with single lowercase letters and a positive
    budget, [game_over] holds exactly when the game is won or the
    wrong-guess count has reached [max_wrong]. *)
Theorem game_over_iff (e0 e : HangmanEnvironment) :
  reachable lowercase e0 e → (0 < max_wrong e0)%Z →
  (game_over e = true ↔ won e = true ∨ (max_wrong e0 <= wrong_guesses e)%Z).
Proof.
  intros Hr Hmw. destruct (reachable_invariant _ _ _ Hr) as (_ & _ & Hm).
  apply reachable_outcome in Hr as [_ Hover]. rewrite <- Hm. apply Hover. lia.
Qed.

(** X4. [reset] forgets the episode: from any reachable state it gives
    what it gives from the fresh environment.  Without a word it raises
    exactly when the word list is empty, and the target it picks is a word
    of the list. *)
Theorem reset_forgets (P : string → Prop) (e0 e : HangmanEnvironment)
    (word : option string) (r : nat) :
  reachable P e0 e →
  reset e word r = reset e0 word r
  ∧ (reset e None r = None ↔ word_list e0 = [])
  ∧ ∀ e1, reset e None r = Some e1 → target_word e1 ∈ word_list e0.
Proof.
  intros Hr. destruct (reachable_invariant _ _ _ Hr) as (_ & _ & Hm).
  pose proof (reachable_word_list _ _ _ Hr) as Hw.
  unfold reset. rewrite Hm, Hw. split; [done|].
  destruct (word_list e0) as [|w ws] eqn:Hws.
  - split; [done|]. intros e1. by rewrite lookup_nil.
  - destruct (lookup_lt_is_Some_2 (w :: ws) (r mod length (w :: ws))) as [t Ht].
    { apply Nat.mod_upper_bound. done. }
    rewrite Ht. cbn. split; [done|].
    intros e1 [= <-]. cbn. by eapply list_elem_of_lookup_2.
Qed.

(** The alphabet holds exactly the single lowercase letters. *)
Lemma elem_of_alphabet l : l ∈ alphabet ↔ is_lower_letter l = true.
Proof.
  unfold alphabet. rewrite elem_of_list_to_set. split.
  - revert l. apply Forall_forall. vm_compute. repeat constructor.
  - destruct l as [|c [|? ?]]; [discriminate| |discriminate].
    destruct c as [[] [] [] [] [] [] [] []]; intros H;
      first [ discriminate H | apply (bool_decide_unpack _); vm_compute; exact I ].
Qed.

Lemma size_alphabet : size alphabet = 26%nat.
Proof. vm_compute. reflexivity. Qed.

(** The step that guesses an available letter. *)
Lemma fresh_step e0 e letter :
  reachable lowercase e0 e → letter ∈ get_available_actions e →
  lowercase letter
  ∧ ∃ e' st reward done info,
      step e letter = Some (e', (st, reward, done, info))
      ∧ st = _get_state e' ∧ done = game_over e'
      ∧ repeated info = false
      ∧ correct info = str_in letter (target_word e)
      ∧ reward ≠ (-2)%Z
      ∧ get_available_actions e' = get_available_actions e ∖ {[letter]}
      ∧ wrong_guesses e'
        = (wrong_guesses e + if correct info then 0 else 1)%Z
      ∧ guessed_letters e' = {[letter]} ∪ guessed_letters e
      ∧ (game_over e = false → won e = false →
         if correct info
         then reward = (10 * occurrences_of letter (chars (target_word e))
                        + if won e' then 100 else 0)%Z
              ∧ game_over e' = won e'
         else reward = (-5 - if game_over e' then 50 else 0)%Z
              ∧ won e' = false).
Proof.
  intros Hr [Hal Hfresh]%elem_of_difference.
  apply elem_of_alphabet in Hal. split; [done|].
  destruct (reachable_invariant _ _ _ Hr) as (Hc & _).
  assert (Hav : alphabet ∖ ({[letter]} ∪ guessed_letters e)
                = alphabet ∖ guessed_letters e ∖ {[letter]}) by set_solver.
  pose proof (occurrences_of_nonneg letter (chars (target_word e))) as Hocc.
  unfold get_available_actions.
  step_cases e letter Hc; rewrite ?(lower_letter_fixed _ Hal) in *; [done|..].
  all: eexists _, _, _, _, _; (split; [reflexivity|]); cbn.
  all: split; [done|]; split; [done|].
  all: split; [done|]; split; [done|]; split; [lia|]; split; [done|].
  all: split; [lia|]; split; [done|].
  all: intros Hgo Hw; rewrite ?Hgo, ?Hw; split; [lia|done].
Qed.

(** X5. A letter offered by [get_available_actions] is a single lowercase
    letter that has not been guessed: the step that guesses it is not a
    repeated guess, it is correct exactly when the letter occurs in the
    target, and afterwards that letter, and no other, has left the
    available actions. *)
Theorem available_action_is_fresh (e0 e : HangmanEnvironment) (letter : string) :
  reachable lowercase e0 e → letter ∈ get_available_actions e →
  lowercase letter
  ∧ ∃ e' st reward done info,
      step e letter = Some (e', (st, reward, done, info))
      ∧ repeated info = false
      ∧ correct info = str_in letter (target_word e)
      ∧ reward ≠ (-2)%Z
      ∧ get_available_actions e' = get_available_actions e ∖ {[letter]}.
Proof.
  intros Hr Hl. destruct (fresh_step e0 e letter Hr Hl)
    as (Hlow & e' & st & reward & done & info & Hs & _ & _ & Hrep & Hcor & Hrw
        & Hav & _ & _ & _).
  split; [done|]. by exists e', st, reward, done, info.
Qed.

(** A game that is won is over. *)
Lemma reachable_won_over P e0 e :
  reachable P e0 e → won e = true → game_over e = true.
Proof.
  induction 1 as [word r e Hr | e l e' out Hreach IH _ Hs].
  - unfold reset in Hr.
    destruct (match word with Some w => _ | None => _ end) as [t|]; [|done].
    simpl in Hr. by injection Hr as <-.
  - destruct (reachable_invariant _ _ _ Hreach) as (Hc & _).
    revert Hs. step_cases e l Hc; intros [= <- <-]; cbn; auto.
Qed.

(** X6. In a game played with single lowercase letters, the available
    actions and the guessed letters share out the 26 letters of the
    alphabet. *)
Theorem available_count (e0 e : HangmanEnvironment) :
  reachable lowercase e0 e →
  guessed_letters e ⊆ alphabet
  ∧ (size (get_available_actions e) + size (guessed_letters e) = 26)%nat.
Proof.
  intros Hr. pose proof (reachable_lower_guessed _ _ Hr) as Hg.
  assert (Hsub : guessed_letters e ⊆ alphabet).
  { intros x Hx. by apply elem_of_alphabet, Hg. }
  split; [done|]. unfold get_available_actions.
  rewrite size_difference by done. rewrite size_alphabet.
  apply subseteq_size in Hsub. rewrite size_alphabet in Hsub. lia.
Qed.

End EnvExtras.

(** * The letter predictor: the tables that training builds *)

Module TableFacts.

Import HMM PredictSpec TrainSpec SumFacts PredictFacts TrainFacts TrainTotal.
Local Open Scope Q_scope.

Lemma sum_Permutation xs ys : xs ≡ₚ ys → sum xs == sum ys.
Proof.
  induction 1 as [|x xs ys _ IH|x y xs|xs ys zs _ IH1 _ IH2].
  - reflexivity.
  - by rewrite !sum_cons, IH.
  - rewrite !sum_cons. ring.
  - by rewrite IH1.
Qed.

Lemma sum_values_insert_fresh (d : gmap string Q) k v :
  d !! k = None → sum (values (<[k:=v]> d)) == v + sum (values d).
Proof.
  intros Hk. rewrite <- sum_cons. apply sum_Permutation. unfold values.
  by rewrite map_to_list_insert.
Qed.

Lemma sum_values_add_to (d : gmap string Q) k x :
  sum (values (add_to k x d)) == sum (values d) + x.
Proof.
  unfold add_to. destruct (d !! k) as [w|] eqn:Hk; cbn.
  - rewrite <- (insert_delete_eq d).
    rewrite sum_values_insert_fresh by apply lookup_delete_eq.
    rewrite <- (insert_delete_id d k w Hk) at 2.
    rewrite sum_values_insert_fresh by apply lookup_delete_eq. ring.
  - rewrite sum_values_insert_fresh by done. ring.
Qed.

(** Dividing positive numbers by their total gives a distribution. *)
Lemma div_all_distribution (d : gmap string Q) t :
  positive d → d ≠ ∅ → t == sum (values d) →
  ∃ r, div_all d t = Some r ∧ dom r = dom d ∧ distribution r
       ∧ ∀ k, r !! k = (λ v, v / t) <$> d !! k.
Proof.
  intros Hd Hne Ht. pose proof (positive_sum d Hd Hne) as Hpos.
  rewrite <- Ht in Hpos.
  assert (Hnz : ¬ t == 0).
  { intros H. rewrite H in Hpos. by apply Qlt_irrefl in Hpos. }
  exists ((λ v, v / t) <$> d). split; [by apply div_all_nonzero|].
  split; [by rewrite dom_fmap_L|]. split; [split|].
  - intros k v. rewrite lookup_fmap. destruct (d !! k) as [w|] eqn:Hw; [|done].
    intros [= <-]. apply Qlt_shift_div_l; [done|]. rewrite Qmult_0_l. eauto.
  - rewrite values_fmap, sum_div, <- Ht. by field.
  - intros k. by rewrite lookup_fmap.
Qed.

(** *** [Counter] *)

Lemma counter_fold (xs : list string) : ∀ acc : gmap string Q,
  let r := foldl (λ acc letter, add_to letter 1 acc) acc xs in
  dom r = dom acc ∪ list_to_set xs
  ∧ sum (values r) == sum (values acc) + inject_Z (Z.of_nat (length xs))
  ∧ ∀ k, default 0 (r !! k)
         == default 0 (acc !! k) + inject_Z (count_of k xs).
Proof.
  unfold count_of.
  induction xs as [|x xs IH]; intros acc; cbn [foldl].
  - split; [set_solver|]. split; intros; cbn; unfold inject_Z; ring.
  - destruct (IH (add_to x 1 acc)) as (Hdom & Hsum & Hval).
    cbn [length]. split; [|split].
    + rewrite Hdom. unfold add_to. rewrite dom_insert_L. set_solver.
    + rewrite Hsum, sum_values_add_to.
      rewrite Nat2Z.inj_succ, <- Z.add_1_l, inject_Z_plus. ring.
    + intros k. rewrite Hval, filter_cons. unfold add_to.
      destruct (decide (x = k)) as [->|Hne].
      * rewrite lookup_insert_eq. cbn.
        rewrite Nat2Z.inj_succ, <- Z.add_1_l, inject_Z_plus. ring.
      * rewrite lookup_insert_ne by done. ring.
Qed.

Lemma counter_spec s :
  dom (counter s) = list_to_set (chars s)
  ∧ sum (values (counter s)) == inject_Z (Z.of_nat (String.length s))
  ∧ ∀ k, default 0 (counter s !! k) == inject_Z (count_of k (chars s)).
Proof.
  unfold counter. destruct (counter_fold (chars s) ∅) as (Hdom & Hsum & Hval).
  cbn in *. rewrite <- chars_length. split; [|split].
  - rewrite Hdom, dom_empty_L. set_solver.
  - rewrite Hsum. unfold values. rewrite map_to_list_empty. cbn. ring.
  - intros k. rewrite Hval, lookup_empty. cbn. ring.
Qed.

Lemma counter_nonempty s : s ≠ "" → counter s ≠ ∅.
Proof.
  intros Hs Hempty. destruct (counter_spec s) as (Hdom & _).
  rewrite Hempty, dom_empty_L in Hdom. destruct s as [|c s]; [done|].
  cbn in Hdom. set_solver.
Qed.

(** *** The counts of [_train_length_model] *)

Lemma rows_ok_init n : rows_ok n (replicate n ∅, replicate n 0).
Proof.
  split; [cbn; by rewrite length_replicate|].
  split; [cbn; by rewrite length_replicate|].
  cbn. intros pos c t [-> _]%lookup_replicate [-> _]%lookup_replicate.
  split; [apply positive_empty|]. unfold values. by rewrite map_to_list_empty.
Qed.

Lemma count_word_rows n word : ∀ pos counts,
  (length word + pos <= n)%nat → rows_ok n counts →
  ∃ counts', count_word word pos counts = Some counts' ∧ rows_ok n counts'
    ∧ ∀ p, (pos <= p < pos + length word)%nat ∨ filled counts.1 p →
           filled counts'.1 p.
Proof.
  induction word as [|letter word IH]; intros pos [ec pt] Hlen Hok;
    cbn [count_word].
  - exists (ec, pt). split; [done|]. split; [done|].
    intros p [Hp|Hp]; [cbn in Hp; lia|done].
  - cbn in Hlen. destruct Hok as (Hec & Hpt & Hpos). cbn in Hec, Hpt, Hpos.
    destruct (lookup_lt_is_Some_2 ec pos) as [c Hc]; [lia|].
    destruct (lookup_lt_is_Some_2 pt pos) as [t Ht]; [lia|].
    rewrite Hc, Ht. cbn [mbind option_bind].
    destruct (IH (S pos) (<[pos:=add_to letter 1 c]> ec, <[pos:=t + 1]> pt))
      as (counts' & Hrun & Hok' & Hfilled); [lia| |].
    { split; [cbn; by rewrite length_insert|].
      split; [cbn; by rewrite length_insert|].
      cbn. intros pos' c' t'. destruct (decide (pos = pos')) as [<-|Hne].
      - rewrite !list_lookup_insert_eq by lia. intros [= <-] [= <-].
        destruct (Hpos pos c t Hc Ht) as [Hcp Hsum].
        split; [by apply positive_add_to|].
        by rewrite sum_values_add_to, Hsum.
      - rewrite !list_lookup_insert_ne by done. apply Hpos. }
    exists counts'. split; [done|]. split; [done|].
    intros p Hp. apply Hfilled. cbn.
    destruct (decide (p = pos)) as [->|Hne].
    + right. exists (add_to letter 1 c).
      split; [by rewrite list_lookup_insert_eq by lia | apply add_to_nonempty].
    + destruct Hp as [Hp|(c0 & Hc0 & Hne0)]; [left; cbn in Hp; lia|].
      right. exists c0. by rewrite list_lookup_insert_ne.
Qed.

Lemma count_words_rows n ws : ∀ counts,
  Forall (λ w, String.length w = n) ws → rows_ok n counts →
  ∃ counts', count_words ws counts = Some counts' ∧ rows_ok n counts'
    ∧ ∀ p, (ws ≠ [] ∧ (p < n)%nat) ∨ filled counts.1 p → filled counts'.1 p.
Proof.
  induction ws as [|w ws IH]; intros counts Hws Hok; cbn [count_words].
  - exists counts. split; [done|]. split; [done|]. by intros p [[? _]|?].
  - apply Forall_cons in Hws as [Hw Hws].
    destruct (count_word_rows n (chars w) 0 counts) as (c1 & -> & Hok1 & Hf1);
      [rewrite chars_length; lia|done|].
    cbn [mbind option_bind].
    destruct (IH c1 Hws Hok1) as (counts' & -> & Hok' & Hf').
    exists counts'. split; [done|]. split; [done|].
    intros p Hp. apply Hf'. right. apply Hf1.
    destruct Hp as [[_ Hp]|Hp]; [|by right].
    left. rewrite chars_length. lia.
Qed.

Lemma to_probs_rows n ec pt : ∀ k pos,
  rows_ok n (ec, pt) → (pos + k <= n)%nat →
  (∀ p, (pos <= p < pos + k)%nat → filled ec p) →
  ∃ l, to_probs ec pt pos k = Some l ∧ Forall distribution l.
Proof.
  induction k as [|k IH]; intros pos Hok Hlen Hfilled; cbn [to_probs].
  - by exists [].
  - destruct (Hfilled pos) as (c & Hc & Hne); [lia|].
    destruct Hok as (Hec & Hpt & Hpos). cbn in Hec, Hpt, Hpos.
    destruct (lookup_lt_is_Some_2 pt pos) as [t Ht]; [lia|].
    destruct (Hpos pos c t Hc Ht) as [Hcp Hsum].
    destruct (div_all_distribution c t Hcp Hne Hsum) as (r & Hr & _ & Hdist & _).
    rewrite Hc. cbn [mbind option_bind]. rewrite decide_False by done.
    rewrite Ht. cbn [mbind option_bind]. rewrite Hr. cbn [mbind option_bind].
    destruct (IH (S pos)) as (rest & -> & Hrest); [done|lia| |].
    { intros p Hp. apply Hfilled. lia. }
    cbn. exists (r :: rest). split; [done|]. by constructor.
Qed.

(** The model of a non-empty list of words of length [n]: the words
    themselves and, for each of the [n] positions, a distribution. *)
Lemma train_length_model_rows ws n :
  ws ≠ [] → Forall (λ w, String.length w = n) ws →
  ∃ model, _train_length_model ws n = Some model
    ∧ words model = ws ∧ length (emission_probs model) = n
    ∧ Forall distribution (emission_probs model).
Proof.
  intros Hne Hws. unfold _train_length_model.
  destruct (count_words_rows n ws _ Hws (rows_ok_init n))
    as ([ec pt] & -> & Hok & Hfilled).
  cbn [mbind option_bind].
  destruct (to_probs_rows n ec pt n 0 Hok) as (l & Hl & Hdist); [lia| |].
  { intros p Hp. apply Hfilled. left. split; [done|lia]. }
  rewrite Hl. cbn. eexists. split; [done|]. cbn.
  split; [done|]. split; [by eapply to_probs_length|done].
Qed.

(** *** [group_by_length] and the loop of [train] *)

Lemma group_by_length_lookup ws n :
  group_by_length ws !! n
  = if decide (bucket ws n = []) then None else Some (bucket ws n).
Proof.
  unfold group_by_length, bucket.
  assert (H : ∀ acc : gmap nat (list string),
            foldl (λ acc word,
                     if isalpha word then
                       <[String.length word :=
                           (default [] (acc !! String.length word) ++ [word])%list]> acc
                     else acc) acc ws !! n
            = if decide (filter (λ w, isalpha w = true ∧ String.length w = n) ws = [])
              then acc !! n
              else Some (default [] (acc !! n)
                         ++ filter (λ w, isalpha w = true ∧ String.length w = n) ws)%list).
  { induction ws as [|w ws IH]; intros acc; cbn [foldl]; [done|].
    rewrite IH, filter_cons.
    destruct (isalpha w) eqn:Halpha.
    - destruct (decide (String.length w = n)) as [<-|Hne].
      + rewrite (decide_True (P := _ ∧ _)) by done.
        rewrite lookup_insert_eq. cbn [default from_option id].
        rewrite (decide_False (P := _ :: _ = [])) by done.
        case_decide as Hrest; [by rewrite Hrest|]. by rewrite <- app_assoc.
      + rewrite (decide_False (P := _ ∧ _)) by tauto. by rewrite lookup_insert_ne.
    - by rewrite (decide_False (P := _ ∧ _)) by (intros [? _]; congruence). }
  rewrite H, lookup_empty. by case_decide.
Qed.

Lemma train_lookup h ws h' :
  train h ws = Some h' →
  ∀ n, models h' !! n
       = match group_by_length ws !! n with
         | Some word_list => _train_length_model word_list n
         | None => models h !! n
         end
       ∧ letter_frequencies h' !! n
         = match group_by_length ws !! n with
           | Some word_list => _calculate_frequencies word_list
           | None => letter_frequencies h !! n
           end.
Proof.
  unfold train. revert h'.
  apply (map_fold_weak_ind
           (λ (r : option HangmanHMM) (m : gmap nat (list string)),
              ∀ h', r = Some h' →
              ∀ n, models h' !! n
                   = match m !! n with
                     | Some word_list => _train_length_model word_list n
                     | None => models h !! n
                     end
                   ∧ letter_frequencies h' !! n
                     = match m !! n with
                       | Some word_list => _calculate_frequencies word_list
                       | None => letter_frequencies h !! n
                       end)).
  - intros h' [= <-] n. by rewrite lookup_empty.
  - intros k word_list m r Hk IH h'.
    destruct r as [h1|]; [|done]. cbn.
    destruct (_train_length_model word_list k) as [model|] eqn:Hmodel; [|done].
    destruct (_calculate_frequencies word_list) as [freq|] eqn:Hfreq; [|done].
    cbn. intros [= <-] n. cbn. destruct (decide (k = n)) as [<-|Hne].
    + by rewrite !lookup_insert_eq.
    + rewrite !lookup_insert_ne by done. by apply IH.
Qed.

End TableFacts.

(** * The letter predictor: training *)

Module TrainExtras.

Import HMM PredictSpec TrainSpec Corpus SumFacts PredictFacts TrainFacts TrainTotal.
Import TableFacts.
Local Open Scope Q_scope.

(** The frequency table of a list of words. *)
Lemma calculate_frequencies_table ws :
  ∃ freq, _calculate_frequencies ws = Some freq
    ∧ dom freq = list_to_set (chars (join ws))
    ∧ (∀ k, k ∈ chars (join ws) →
         ∃ v, freq !! k = Some v
              ∧ v == inject_Z (count_of k (chars (join ws)))
                     / inject_Z (Z.of_nat (String.length (join ws))))
    ∧ (join ws ≠ "" → distribution freq)
    ∧ (join ws = "" → freq = ∅).
Proof.
  unfold _calculate_frequencies. set (s := join ws).
  destruct (counter_spec s) as (Hdom & Hsum & Hval).
  destruct (decide (s = "")) as [Hs|Hs].
  - rewrite Hs. cbn. exists ∅. rewrite div_all_empty.
    split; [done|]. split; [set_solver|]. split; [|done].
    intros k Hk. by apply elem_of_nil in Hk.
  - destruct (div_all_distribution (counter s)
                (inject_Z (Z.of_nat (String.length s))))
      as (freq & Hfreq & Hfdom & Hdist & Hlook).
    { apply counter_positive. } { by apply counter_nonempty. } { by symmetry. }
    exists freq. split; [done|]. split; [by rewrite Hfdom|]. split; [|done].
    intros k Hk.
    assert (Hin : k ∈ dom (counter s)) by (rewrite Hdom; set_solver).
    apply elem_of_dom in Hin as [w Hw].
    specialize (Hval k). rewrite Hw in Hval. cbn in Hval.
    exists (w / inject_Z (Z.of_nat (String.length s))).
    split; [by rewrite Hlook, Hw|]. by rewrite Hval.
Qed.

(** X7. [_calculate_frequencies] never divides by zero.  Its table has the
    letters of the words as keys, each with its number of occurrences
    divided by the number of letters; it is a distribution as soon as
    there is a letter, and it is empty when there is none. *)
Theorem calculate_frequencies_spec (ws : list string) :
  ∃ freq, _calculate_frequencies ws = Some freq
    ∧ dom freq = list_to_set (chars (join ws))
    ∧ (∀ k, k ∈ chars (join ws) →
         ∃ v, freq !! k = Some v
              ∧ v == inject_Z (count_of k (chars (join ws)))
                     / inject_Z (Z.of_nat (String.length (join ws))))
    ∧ (join ws ≠ "" → distribution freq)
    ∧ (join ws = "" → freq = ∅).
Proof. apply calculate_frequencies_table. Qed.

Lemma isalpha_nonempty w : isalpha w = true → w ≠ "".
Proof. by intros H ->. Qed.

Lemma bucket_facts ws n :
  Forall (λ w, String.length w = n) (bucket ws n)
  ∧ (bucket ws n ≠ [] → join (bucket ws n) ≠ "").
Proof.
  unfold bucket. split.
  - apply Forall_forall. by intros w [[_ ?] _]%list_elem_of_filter.
  - destruct (filter _ ws) as [|w l] eqn:Hf; [done|]. intros _.
    assert (Hw : w ∈ filter (λ w, isalpha w = true ∧ String.length w = n) ws)
      by (rewrite Hf; by left).
    apply list_elem_of_filter in Hw as [[Hw _] _].
    destruct w as [|c w]; [done|]. done.
Qed.

Lemma train_is_Some h ws : is_Some (train h ws).
Proof.
  unfold train. generalize (group_by_length_lengths ws).
  apply (map_fold_weak_ind
           (λ (r : option HangmanHMM) (m : gmap nat (list string)),
              (∀ n b, m !! n = Some b → Forall (λ w, String.length w = n) b) →
              is_Some r)); [by eauto|].
  intros n word_list m r Hn IH Hall.
  destruct IH as [h1 ->].
  { intros k b Hb. apply Hall. rewrite lookup_insert_ne; [done|].
    intros ->. congruence. }
  cbn. destruct (train_length_model_total word_list n) as [model ->].
  { apply Hall. by rewrite lookup_insert_eq. }
  destruct (calculate_frequencies_total word_list) as [freq ->]. cbn. by eauto.
Qed.

(** The tables after training, length by length. *)
Lemma train_tables_at h ws h' n :
  train h ws = Some h' →
  (bucket ws n = [] →
   models h' !! n = models h !! n
   ∧ letter_frequencies h' !! n = letter_frequencies h !! n)
  ∧ (bucket ws n ≠ [] →
     ∃ model freq,
       models h' !! n = Some model ∧ letter_frequencies h' !! n = Some freq
       ∧ words model = bucket ws n
       ∧ length (emission_probs model) = n
       ∧ Forall distribution (emission_probs model)
       ∧ _calculate_frequencies (bucket ws n) = Some freq
       ∧ distribution freq).
Proof.
  intros Ht. destruct (train_lookup h ws h' Ht n) as [Hm Hf].
  rewrite group_by_length_lookup in Hm, Hf.
  destruct (bucket_facts ws n) as [Hlen Hjoin].
  split; intros Hb.
  - by rewrite decide_True in Hm, Hf by done.
  - rewrite decide_False in Hm, Hf by done.
    destruct (train_length_model_rows (bucket ws n) n Hb Hlen)
      as (model & Hmodel & Hw & Hl & Hd).
    destruct (calculate_frequencies_table (bucket ws n))
      as (freq & Hfreq & _ & _ & Hdist & _).
    exists model, freq. rewrite Hm, Hf. repeat (split; [done|]). by apply Hdist, Hjoin.
Qed.


(** Training leaves positive emission probabilities. *)
Lemma train_wf_trained h ws h' :
  wf_trained h → train h ws = Some h' → wf_trained h'.
Proof.
  intros [Hwf Hpos] Ht. split; [by eapply train_wf|].
  intros n model Hm.
  destruct (train_tables_at h ws h' n Ht) as [Hold Hnew].
  destruct (decide (bucket ws n = [])) as [Hb|Hb].
  - destruct (Hold Hb) as [Hsame _]. rewrite Hsame in Hm. by eapply Hpos.
  - destruct (Hnew Hb) as (model' & freq & Hm' & _ & _ & _ & Hd & _).
    assert (model' = model) as -> by congruence.
    eapply Forall_impl; [exact Hd|]. by intros d [? _].
Qed.

Lemma init_wf_trained : wf_trained HMM.init.
Proof. split; [apply init_wf|]. intros n model. cbn. by rewrite lookup_empty. Qed.

(** *** The two readers of the corpus file *)

Lemma isalpha_ascii_lower c : isalpha_ascii (lower_ascii c) = isalpha_ascii c.
Proof. destruct c as [[] [] [] [] [] [] [] []]; vm_compute; reflexivity. Qed.

Lemma isalpha_lower s : isalpha (lower s) = isalpha s.
Proof.
  destruct s as [|c s]; [done|]. unfold isalpha.
  change (lower (String c s)) with (String (lower_ascii c) (lower s)).
  cbn [list_ascii_of_string forallb]. rewrite isalpha_ascii_lower. f_equal.
  induction s as [|d s IH]; [done|].
  cbn [lower list_ascii_of_string forallb]. by rewrite isalpha_ascii_lower, IH.
Qed.

Lemma length_lower s : String.length (lower s) = String.length s.
Proof. induction s as [|c s IH]; cbn; congruence. Qed.

(** The alphabetic words of a length that the predictor reads are the
    words of that length that the environment reads. *)
Lemma bucket_hmm_words strip lines n :
  bucket (hmm_words strip lines) n
  = filter (λ w, String.length w = n) (env_word_list strip lines).
Proof.
  unfold bucket, hmm_words, env_word_list.
  induction lines as [|l lines IH]; [done|].
  rewrite !(filter_cons _ l).
  destruct (decide (strip l ≠ "")) as [Hne|He].
  - rewrite fmap_cons, filter_cons, isalpha_lower, length_lower, IH.
    destruct (isalpha (strip l)) eqn:Ha.
    + rewrite (decide_True (P := strip l ≠ "" ∧ _)) by done.
      rewrite fmap_cons, filter_cons, length_lower.
      destruct (decide (String.length (strip l) = n)).
      * by rewrite decide_True.
      * by rewrite decide_False by tauto.
    + rewrite (decide_False (P := strip l ≠ "" ∧ _)) by (intros [_ ?]; congruence).
      by rewrite decide_False by (intros [? _]; congruence).
  - rewrite (decide_False (P := strip l ≠ "" ∧ _)) by tauto. done.
Qed.

(** X9. The predictor and the environment that read the same corpus file
    of ASCII text agree on the words: training never fails, the model of a length holds
    exactly the words of that length of the environment's word list, in
    their order, and every word the environment may draw has the model of
    its length. *)
Theorem corpus_words_agree (strip : string → string) (lines : list string)
    (max_wrong : Z) :
  ascii_corpus strip lines →
  ∃ h, train_file strip HMM.init lines = Some h
    ∧ (∀ n model, models h !! n = Some model →
         words model
         = filter (λ w, String.length w = n)
                  (Env.word_list (new_env strip lines max_wrong)))
    ∧ (∀ w, w ∈ Env.word_list (new_env strip lines max_wrong) →
         ∃ model, models h !! String.length w = Some model ∧ w ∈ words model).
Proof.
  intros _. unfold train_file, new_env. cbn [Env.word_list Env.init].
  destruct (train_is_Some HMM.init (hmm_words strip lines)) as [h Ht].
  exists h. split; [done|].
  assert (Hat := λ n, train_tables_at _ _ _ n Ht). split.
  - intros n model Hm. destruct (Hat n) as [Hold Hnew].
    destruct (decide (bucket (hmm_words strip lines) n = [])) as [Hb|Hb].
    + destruct (Hold Hb) as [Hsame _]. rewrite Hsame in Hm. cbn in Hm.
      by rewrite lookup_empty in Hm.
    + destruct (Hnew Hb) as (model' & freq & Hm' & _ & Hw & _).
      assert (model' = model) as -> by congruence.
      by rewrite Hw, bucket_hmm_words.
  - intros w Hw. destruct (Hat (String.length w)) as [_ Hnew].
    assert (Hin : w ∈ bucket (hmm_words strip lines) (String.length w)).
    { rewrite bucket_hmm_words. by apply list_elem_of_filter. }
    destruct Hnew as (model & freq & Hm & _ & Hwords & _).
    { intros Hb. rewrite Hb in Hin. by apply elem_of_nil in Hin. }
    exists model. by rewrite Hwords.
Qed.

End TrainExtras.

(** * The predictor and the agent: what they never do *)

Module PositiveFacts.

Import HMM PredictSpec TrainSpec SumFacts PredictFacts ScoringFacts TrainFacts.
Import TableFacts.
Local Open Scope Q_scope.

Lemma score_position_positive ep (remaining : gset string) pos scores scores' :
  Forall positive ep → positive scores →
  score_position ep remaining pos scores = Some scores' → positive scores'.
Proof.
  intros Hep Hs. unfold score_position. case_decide; [by intros [= <-]|].
  destruct (ep !! pos) as [e|] eqn:He; [|done]. cbn. intros [= <-].
  assert (He' : positive e) by (by eapply (Forall_lookup_1 positive ep)).
  apply (set_fold_ind_L (λ (r : gmap string Q) (_ : gset string), positive r));
    [done|].
  intros l X r _ IH. destruct (e !! l) as [p|] eqn:Hl; [|done].
  apply positive_add_to; [done|]. by eapply He'.
Qed.

Lemma position_loop_positive ep (remaining : gset string) masked :
  ∀ pos scores scores',
  Forall positive ep → positive scores →
  position_loop ep remaining pos masked scores = Some scores' → positive scores'.
Proof.
  induction masked as [|c masked IH]; intros pos scores scores' Hep Hs; cbn.
  - by intros [= <-].
  - destruct (decide (c = "_")).
    + destruct (score_position ep remaining pos scores) as [s1|] eqn:H1; [|done].
      cbn. apply IH; [done|]. by eapply score_position_positive.
    + cbn. by apply IH.
Qed.

Lemma frequency_word_positive word (remaining : gset string) masked :
  ∀ pos scores scores',
  positive scores →
  frequency_word word remaining pos masked scores = Some scores' →
  positive scores'.
Proof.
  induction masked as [|c masked IH]; intros pos scores scores' Hs; cbn.
  - by intros [= <-].
  - destruct (decide (c = "_")).
    + destruct (word !! pos) as [l|]; [|done]. cbn. apply IH.
      case_decide; [by apply positive_add_to|done].
    + cbn. by apply IH.
Qed.

Lemma frequency_loop_positive masked_word (remaining : gset string) ws :
  ∀ scores scores',
  positive scores →
  frequency_loop ws masked_word remaining scores = Some scores' →
  positive scores'.
Proof.
  induction ws as [|w ws IH]; intros scores scores' Hs; cbn.
  - by intros [= <-].
  - destruct (frequency_word _ _ _ _ _) as [s1|] eqn:H1; [|done]. cbn.
    apply IH. by eapply frequency_word_positive.
Qed.

Lemma letter_scores_positive model masked_word g scores :
  Forall positive (emission_probs model) →
  letter_scores model masked_word g = Some scores → positive scores.
Proof.
  intros Hep. unfold letter_scores.
  destruct (_filter_matching_words _ _ _) as [matching|]; [|done].
  cbn [mbind option_bind]. case_decide.
  - apply position_loop_positive; [done|apply positive_empty].
  - apply frequency_loop_positive. apply positive_empty.
Qed.

(** A predictor as training leaves it gives positive probabilities
    only. *)
Lemma predict_positive h masked_word g d :
  wf_trained h → predict_letter_probabilities h masked_word g = Some d →
  positive d.
Proof.
  intros [[Hlen Hfreq] Hep]. unfold predict_letter_probabilities.
  destruct (fallback_spec h g (String.length masked_word) Hfreq)
    as (freq & r & Hr & _ & _ & _ & _ & Hpos & _).
  destruct (models h !! String.length masked_word) as [model|] eqn:Hm.
  - destruct (letter_scores model masked_word g) as [scores|] eqn:Hs; [|done].
    cbn [mbind option_bind].
    assert (Hsp : positive scores).
    { eapply letter_scores_positive; [|done]. by eapply Hep. }
    destruct (Qeq_bool _ _).
    + intros Hd. by assert (r = d) as <- by congruence.
    + apply div_all_positive; [done|]. by apply sum_nonneg, positive_values.
  - intros Hd. by assert (r = d) as <- by congruence.
Qed.

(** A value of a dictionary of positive numbers is at most their sum. *)
Lemma value_le_sum (d : gmap string Q) k v :
  positive d → d !! k = Some v → v <= sum (values d).
Proof.
  intros Hd Hk. rewrite <- (insert_delete_id d k v Hk).
  rewrite sum_values_insert_fresh by apply lookup_delete_eq.
  assert (0 <= sum (values (delete k d))).
  { apply sum_nonneg, positive_values. intros k' v' Hk'.
    apply lookup_delete_Some in Hk' as [_ Hk']. by eapply Hd. }
  lra.
Qed.

End PositiveFacts.

Module AgentExtras.

Import Env HMM PredictSpec TrainSpec SumFacts PredictFacts ScoringFacts TrainFacts.
Import Agent AgentSpec LearnSpec NumFacts AgentClaims PositiveFacts.
Local Open Scope Q_scope.

(** X10. A predictor as training leaves it never fails, and what it
    returns are probabilities of unguessed letters of the alphabet: each
    one is positive and at most 1. *)
Theorem predict_probabilities (h : HangmanHMM) (masked_word : string)
    (guessed_letters : gset string) :
  wf_trained h →
  ∃ d, predict_letter_probabilities h masked_word guessed_letters = Some d
    ∧ ∀ letter p, d !! letter = Some p →
        0 < p ∧ p <= 1 ∧ letter ∈ alphabet ∧ letter ∉ guessed_letters.
Proof.
  intros Hwf.
  destruct (predict_spec h masked_word guessed_letters (proj1 Hwf))
    as (d & Hd & Hdom & Hsum & _).
  exists d. split; [done|]. intros letter p Hp.
  pose proof (predict_positive _ _ _ _ Hwf Hd) as Hpos.
  assert (Hin : letter ∈ alphabet ∖ guessed_letters).
  { apply Hdom, elem_of_dom. by eauto. }
  split; [by eapply Hpos|]. split.
  - assert (Hone : sum (values d) == 1).
    { apply Hsum. intros Hempty. rewrite Hempty in Hin.
      by apply not_elem_of_empty in Hin. }
    rewrite <- Hone. by apply (value_le_sum d letter).
  - by apply elem_of_difference in Hin.
Qed.

(** *** The key of a state *)

(** X11. Two states have the same key exactly when they show the same
    mask, the same set of guessed letters and the same number of lives:
    sorting the guessed letters loses nothing. *)
Theorem state_key_injective (s1 s2 : GameState) :
  _get_state_key s1 = _get_state_key s2
  ↔ st_masked_word s1 = st_masked_word s2
    ∧ st_guessed_letters s1 = st_guessed_letters s2
    ∧ st_lives_remaining s1 = st_lives_remaining s2.
Proof.
  unfold _get_state_key. split.
  - intros [= Hm Hg Hl]. split; [done|]. split; [|done].
    apply set_eq. intros x. rewrite <- !elem_of_elements.
    rewrite <- (merge_sort_Permutation String.le (elements (st_guessed_letters s1))).
    rewrite <- (merge_sort_Permutation String.le (elements (st_guessed_letters s2))).
    by rewrite Hg.
  - by intros (-> & -> & ->).
Qed.

(** *** The exploration rate *)

Lemma decay_epsilon_max ag :
  epsilon (decay_epsilon ag)
  == Qmax (epsilon_end ag) (epsilon ag * epsilon_decay ag).
Proof.
  cbn [decay_epsilon epsilon]. destruct (Qltb _ _) eqn:H.
  - apply Qltb_lt in H. symmetry. apply Q.max_r. by apply Qlt_le_weak.
  - apply Qltb_ge in H. symmetry. by apply Q.max_l.
Qed.

Lemma decayed_settings n ag :
  (hmm (decayed n ag), learning_rate (decayed n ag),
   discount_factor (decayed n ag), epsilon_end (decayed n ag),
   epsilon_decay (decayed n ag), q_table (decayed n ag))
  = (hmm ag, learning_rate ag, discount_factor ag, epsilon_end ag,
     epsilon_decay ag, q_table ag).
Proof.
  induction n as [|n IH]; [done|]. unfold decayed in *. cbn [Nat.iter].
  rewrite <- IH. reflexivity.
Qed.

Lemma decayed_step n ag :
  epsilon (decayed (S n) ag)
  == Qmax (epsilon_end ag) (epsilon (decayed n ag) * epsilon_decay ag).
Proof.
  change (decayed (S n) ag) with (decay_epsilon (decayed n ag)).
  rewrite decay_epsilon_max.
  pose proof (decayed_settings n ag) as [= _ _ _ -> -> _]. reflexivity.
Qed.

Lemma decayed_floor n ag :
  epsilon_end ag <= epsilon ag → epsilon_end ag <= epsilon (decayed n ag).
Proof.
  intros Hle. destruct n as [|n]; [done|].
  rewrite decayed_step. apply Q.le_max_l.
Qed.

(** X12. With [0 <= epsilon_end <= epsilon] and a decay factor between 0
    and 1, each call of [decay_epsilon] sets the exploration rate to
    [max(epsilon_end, epsilon * epsilon_decay)] of the rate before it.  So
    the rate never increases, stays between [epsilon_end] and the initial
    rate, and stays at [epsilon_end] once it has reached it.  Nothing else
    of the agent changes. *)
Theorem epsilon_schedule (ag : HangmanRLAgent) (n : nat) :
  0 <= epsilon_end ag → epsilon_end ag <= epsilon ag →
  0 <= epsilon_decay ag → epsilon_decay ag <= 1 →
  epsilon (decayed (S n) ag)
  == Qmax (epsilon_end ag) (epsilon (decayed n ag) * epsilon_decay ag)
  ∧ epsilon (decayed (S n) ag) <= epsilon (decayed n ag)
  ∧ epsilon_end ag <= epsilon (decayed n ag)
  ∧ epsilon (decayed n ag) <= epsilon ag
  ∧ (epsilon (decayed n ag) == epsilon_end ag →
     epsilon (decayed (S n) ag) == epsilon_end ag)
  ∧ (hmm (decayed n ag), learning_rate (decayed n ag),
     discount_factor (decayed n ag), epsilon_end (decayed n ag),
     epsilon_decay (decayed n ag), q_table (decayed n ag))
    = (hmm ag, learning_rate ag, discount_factor ag, epsilon_end ag,
       epsilon_decay ag, q_table ag).
Proof.
  intros Hend Hle Hd0 Hd1.
  assert (Hmono : ∀ m, epsilon (decayed (S m) ag) <= epsilon (decayed m ag)).
  { intros m. rewrite decayed_step.
    pose proof (decayed_floor m ag Hle) as Hfloor.
    apply Q.max_lub; [done|]. nra. }
  split; [apply decayed_step|]. split; [apply Hmono|].
  split; [by apply decayed_floor|]. split; [|split; [|apply decayed_settings]].
  - induction n as [|n IH]; [apply Qle_refl|].
    eapply Qle_trans; [apply Hmono | exact IH].
  - intros Hat. rewrite decayed_step. apply Q.max_l.
    assert (Hup : epsilon (decayed n ag) <= epsilon_end ag)
      by (rewrite Hat; apply Qle_refl).
    pose proof (decayed_floor n ag Hle). nra.
Qed.

(** *** Choosing a letter *)

Lemma div_list_nonzero probs total :
  ¬ total == 0 → div_list probs total = Some ((λ p, p / total) <$> probs).
Proof.
  intros Hnz. induction probs as [|p probs IH]; [done|].
  cbn [div_list]. destruct (Qeq_bool total 0) eqn:Hz.
  - by apply Qeq_bool_eq in Hz.
  - rewrite IH. done.
Qed.

Lemma first_best_elem score seen best : first_best score seen best → best ∈ seen.
Proof. intros (pre & post & -> & _). set_solver. Qed.

(** What [choose_action] gives with a predictor as training leaves it. *)
Lemma choose_action_total ag state available_actions training u :
  wf_trained (hmm ag) →
  ∃ ag' c,
    choose_action ag state available_actions training u = Some (ag', c)
    ∧ sound_choice available_actions c
    ∧ (∀ s b, q_value (q_table ag') s b = q_value (q_table ag) s b)
    ∧ settings ag' = settings ag.
Proof.
  intros Hwf. unfold choose_action.
  destruct available_actions as [|a0 rest] eqn:Hav; [by exists ag, (Return None)|].
  rewrite <- Hav. assert (Hne : available_actions ≠ []) by (by rewrite Hav).
  clear Hav.
  destruct (predict_spec (hmm ag) (st_masked_word state) (st_guessed_letters state)
              (proj1 Hwf)) as (hmm_probs & Hp & _).
  pose proof (predict_positive _ _ _ _ Hwf Hp) as Hpos.
  rewrite Hp. cbn [mbind option_bind].
  destruct (training && Qltb u (epsilon ag)) eqn:Hexplore.
  - destruct (filter (λ l, l ∈ dom hmm_probs) available_actions)
      as [|l0 letters'] eqn:Hletters.
    { exists ag, (RandomChoice available_actions). by repeat split. }
    rewrite <- Hletters.
    set (letters := filter (λ l, l ∈ dom hmm_probs) available_actions) in *.
    set (probs := (λ l, default (1 # 1000) (hmm_probs !! l)) <$> letters).
    assert (Hprobs : Forall (λ v, 0 < v) probs).
    { apply Forall_fmap, Forall_forall. intros l Hl. cbn.
      apply list_elem_of_filter in Hl as [[v Hv]%elem_of_dom _].
      rewrite Hv. cbn. by eapply Hpos. }
    assert (Htotal : 0 < sum probs).
    { apply sum_pos; [done|]. subst probs. rewrite Hletters. done. }
    assert (Hnz : ¬ sum probs == 0) by lra.
    rewrite (div_list_nonzero probs (sum probs) Hnz). cbn [mbind option_bind].
    eexists ag, _. split; [done|]. split; [|done].
    cbn [sound_choice]. split; [by rewrite Hletters|]. split.
    { intros l Hl. by apply list_elem_of_filter in Hl as [_ ?]. }
    split; [unfold probs; by rewrite !length_fmap|]. split.
    + apply Forall_fmap. eapply Forall_impl; [exact Hprobs|].
      intros v Hv. change (0 < v / sum probs).
      apply Qlt_shift_div_l; [exact Htotal | by rewrite Qmult_0_l].
    + rewrite sum_div. by field.
  - destruct (exploit_loop_spec (_get_state_key state) hmm_probs (q_table ag)
                available_actions [] (q_table ag) None None)
      as (qt' & bs & ba & Hloop & Hq & Hst); [done..|].
    rewrite app_nil_l in Hst. rewrite Hloop.
    eexists (set_q_table ag qt'), _. split; [done|]. split; [|by split].
    destruct available_actions as [|a1 rest1]; [done|].
    destruct Hst as (best & -> & _ & Hbest%first_best_elem).
    cbn [truthy]. case_bool_decide as Hb; cbn [negb sound_choice]; [done|].
    by split.
Qed.

(** X13. With a predictor as training leaves it, [choose_action] never
    fails: no division by zero when the exploration weights are
    normalised.  It returns [None] only for an empty list of actions, a
    letter it returns is one of the available ones, a weighted draw is over
    available letters with positive weights that add up to 1, and the
    recorded action values and the other attributes of the agent are
    left as they are. *)
Theorem choose_action_sound (ag : HangmanRLAgent) (state : GameState)
    (available_actions : list string) (training : bool) (u : Q) :
  wf_trained (hmm ag) →
  ∃ ag' c,
    choose_action ag state available_actions training u = Some (ag', c)
    ∧ sound_choice available_actions c
    ∧ (∀ s b, q_value (q_table ag') s b = q_value (q_table ag) s b)
    ∧ settings ag' = settings ag.
Proof. apply choose_action_total. Qed.

End AgentExtras.

(** * The game loops: every game ends *)

Module LoopFacts.

Import Env EnvSpec EnvFacts EnvExtras HMM PredictSpec TrainSpec Corpus.
Import Agent AgentSpec LearnSpec Loops LoopSpec AgentExtras TrainExtras.
Local Open Scope list_scope.

(** *** Playable words *)

Lemma lower_alpha_letter a :
  isalpha_ascii a = true → is_lower_letter (chr (lower_ascii a)) = true.
Proof. destruct a as [[] [] [] [] [] [] [] []]; vm_compute; congruence. Qed.

Lemma chars_lower_alpha s :
  forallb isalpha_ascii (list_ascii_of_string s) = true →
  ∀ c, c ∈ chars (lower s) → c ∈ alphabet.
Proof.
  induction s as [|a s IH]; cbn [list_ascii_of_string forallb lower chars].
  - intros _ c Hc. by apply elem_of_nil in Hc.
  - intros [Ha Hs]%andb_true_iff c [->|Hc]%elem_of_cons; [|by apply IH].
    by apply elem_of_alphabet, lower_alpha_letter.
Qed.

Lemma playable_lower s : isalpha s = true → playable (lower s).
Proof.
  intros Hs. split.
  - by destruct s.
  - apply chars_lower_alpha. by destruct s.
Qed.

(** The words that the environment reads from the corpus file are
    playable. *)
Lemma playable_corpus strip lines :
  Forall playable (env_word_list strip lines).
Proof.
  unfold env_word_list. apply Forall_fmap, Forall_forall.
  intros line [[_ Ha] _]%list_elem_of_filter. by apply playable_lower.
Qed.

(** *** One turn *)



Lemma resolve_spec O t xs c :
  lawful O → xs ≠ [] → sound_choice xs c →
  ∃ a, resolve O t c = Some (Some a) ∧ a ∈ xs.
Proof.
  intros (_ & Hchoice & Hweighted) Hne.
  destruct c as [[a|]|ys|ys p]; cbn [sound_choice resolve].
  - intros [Ha _]. by exists a.
  - done.
  - intros [-> _]. exists (choice O t xs). split; [by destruct xs|].
    by apply Hchoice.
  - intros (Hys & Hsub & _). exists (weighted O t ys p). split; [done|].
    by apply Hsub, Hweighted.
Qed.

(** While the game is not over, a letter of the target is still to be
    guessed. *)
Lemma letter_left e0 e :
  reachable lowercase e0 e → playable (target_word e) → game_over e = false →
  ∃ l, l ∈ get_available_actions e.
Proof.
  intros Hr [Hne Hal] Hover.
  destruct (reachable_outcome e0 e Hr) as [Hwon _].
  destruct (decide (Forall (λ t, t ∈ guessed_letters e) (chars (target_word e))))
    as [Hall|Hsome].
  - assert (won e = true).
    { apply Hwon. split; [done|]. by apply Forall_forall. }
    assert (game_over e = true) by (by eapply reachable_won_over).
    congruence.
  - apply not_Forall_Exists in Hsome; [|apply _].
    apply Exists_exists in Hsome as (l & Hl & Hout). exists l.
    apply elem_of_difference. split; [by apply Hal|done].
Qed.

Lemma revealed_step (g : gset string) l target :
  l ∉ g →
  Z.of_nat (length (filter (λ c, c ∈ {[l]} ∪ g) target))
  = (Z.of_nat (length (filter (λ c, c ∈ g) target)) + occurrences_of l target)%Z.
Proof.
  intros Hl. unfold occurrences_of. induction target as [|x target IH]; [done|].
  rewrite !filter_cons. destruct (decide (x = l)) as [->|Hx].
  - rewrite (decide_True (P := _ ∈ _ ∪ _)) by set_solver.
    rewrite (decide_False (P := _ ∈ g)) by done. cbn [length]. lia.
  - destruct (decide (x ∈ g)).
    + rewrite (decide_True (P := _ ∈ _ ∪ _)) by set_solver. cbn [length]. lia.
    + rewrite (decide_False (P := _ ∈ _ ∪ _)) by set_solver. lia.
Qed.

Lemma turn_spec O t training ag e :
  lawful O → wf_trained (hmm ag) → in_play e → game_over e = false →
  ∃ ag' action e' st reward done info,
    turn O t training ag e (_get_state e)
    = Some (ag', action, e', (st, reward, done, info))
    ∧ st = _get_state e' ∧ done = game_over e'
    ∧ same_values ag ag'
    ∧ in_play e'
    ∧ (∀ e0, reachable lowercase e0 e → reachable lowercase e0 e')
    ∧ action ∈ get_available_actions e
    ∧ get_available_actions e' = get_available_actions e ∖ {[action]}
    ∧ repeated info = false
    ∧ correct info = str_in action (target_word e)
    ∧ wrong_guesses e' = (wrong_guesses e + if correct info then 0 else 1)%Z
    ∧ target_word e' = target_word e
    ∧ guessed_letters e' = {[action]} ∪ guessed_letters e
    ∧ score e' = (score e + reward)%Z.
Proof.
  intros Hlaw Hwf ([e0 Hr] & Hplay & Hbudget) Hover.
  destruct (letter_left e0 e Hr Hplay Hover) as [l0 Hl0].
  pose proof (proj1 Hlaw t (get_available_actions e)) as Hperm.
  set (available := listing O t (get_available_actions e)) in *.
  assert (Hmem : ∀ a, a ∈ available ↔ a ∈ get_available_actions e).
  { intros a. by rewrite Hperm, elem_of_elements. }
  assert (Hne : available ≠ []).
  { intros Hnil. apply Hmem in Hl0. rewrite Hnil in Hl0.
    by apply elem_of_nil in Hl0. }
  destruct (choose_action_total ag (_get_state e) available training
              (uniform O t) Hwf) as (ag' & c & Hc & Hsound & Hq & Hset).
  destruct (resolve_spec O t available c Hlaw Hne Hsound) as (action & Hres & Ha).
  apply Hmem in Ha.
  destruct (fresh_step e0 e action Hr Ha)
    as (Hlow & e' & st & reward & done & info & Hs & Hst & Hdone & Hrep & Hcor
        & Hrw & Hav & Hwrong & Hguessed & Hreward).
  assert (Hnotwon : won e = false).
  { destruct (won e) eqn:Hw; [|done].
    apply (reachable_won_over _ _ _ Hr) in Hw. congruence. }
  specialize (Hreward Hover Hnotwon).
  exists ag', action, e', st, reward, done, info.
  split.
  { unfold turn. fold available. rewrite Hc. cbn [mbind option_bind].
    rewrite Hres. cbn [mbind option_bind]. rewrite Hs. done. }
  split; [done|]. split; [done|]. split; [by split|].
  assert (Hstep : ∀ e1, reachable lowercase e1 e → reachable lowercase e1 e').
  { intros e1 Hr1. by eapply reach_step. }
  destruct (reachable_invariant _ _ _ Hr) as (Hcons & Hwb & Hmax).
  destruct (reachable_invariant _ _ _ (Hstep e0 Hr)) as (_ & _ & Hmax').
  destruct (step_preserves e action Hcons) as (e'' & out & Hs' & _ & _ & _ & Htgt & _).
  rewrite Hs in Hs'. injection Hs' as <- _.
  split.
  { split; [by eauto|]. split; [by rewrite Htgt|].
    rewrite Hwrong, Hmax', <- Hmax.
    destruct Hwb as [_ Hwb]. specialize (Hwb Hover). destruct (correct info); lia. }
  repeat (split; [done|]).
  assert (Hrev : revealed e'
                 = (revealed e + occurrences_of action (chars (target_word e)))%Z).
  { unfold revealed. rewrite Hguessed, Htgt. apply revealed_step.
    by apply elem_of_difference in Ha as [_ ?]. }
  unfold score. rewrite Hrev, Hwrong, Hover, Hnotwon.
  destruct (correct info).
  - destruct Hreward as [-> ->]. destruct (won e'); cbn; lia.
  - destruct Hreward as [-> ->].
    assert (occurrences_of action (chars (target_word e)) = 0%Z) as ->.
    { pose proof (occurrences_of_nonneg action (chars (target_word e))).
      pose proof (occurrences_of_pos action (chars (target_word e))) as Hpos.
      symmetry in Hcor. apply str_in_false in Hcor.
      destruct (decide (1 <= occurrences_of action (chars (target_word e)))%Z)
        as [Hone|]; [|lia].
      by apply Hpos in Hone. }
    destruct (game_over e'); cbn; lia.
Qed.

Lemma size_after_turn (X : gset string) (a : string) (n : nat) :
  a ∈ X → (size X <= S n)%nat → (size (X ∖ {[a]}) <= n)%nat.
Proof.
  intros Ha Hn. rewrite size_difference by (by apply singleton_subseteq_l).
  rewrite size_singleton. lia.
Qed.

Lemma no_action_left e0 e :
  reachable lowercase e0 e → playable (target_word e) → game_over e = false →
  (0 < size (get_available_actions e))%nat.
Proof.
  intros Hr Hplay Hover. destruct (letter_left e0 e Hr Hplay Hover) as [l Hl].
  destruct (decide (size (get_available_actions e) = 0%nat)) as [Hz|]; [|lia].
  apply size_empty_inv in Hz. apply leibniz_equiv in Hz. rewrite Hz in Hl.
  by apply not_elem_of_empty in Hl.
Qed.

(** *** A game of [evaluate] *)



(** [reset()] on a corpus of playable words starts a game. *)
Lemma reset_in_play e r :
  word_list e ≠ [] → Forall playable (word_list e) →
  ∃ e1, reset e None r = Some e1
    ∧ in_play e1 ∧ reachable lowercase e e1
    ∧ size (get_available_actions e1) = 26%nat
    ∧ wrong_guesses e1 = 0%Z.
Proof.
  intros Hne Hall. unfold reset.
  destruct (lookup_lt_is_Some_2 (word_list e) (r mod length (word_list e)))
    as [w Hw].
  { apply Nat.mod_upper_bound. by destruct (word_list e). }
  rewrite Hw. cbn [mbind option_bind]. eexists. split; [done|].
  assert (Hr : reset e None r
               = Some (mkEnv (max_wrong e) (word_list e) w
                         (repeat_str "_" (String.length w)) ∅ 0 false false)).
  { unfold reset. by rewrite Hw. }
  apply (reach_reset lowercase) in Hr. split; [|split; [done|]].
  - split; [by eauto|]. split; [|cbn; lia]. cbn.
    eapply Forall_forall; [exact Hall|]. by eapply list_elem_of_lookup_2.
  - split; [|done]. unfold get_available_actions. cbn.
    rewrite difference_empty_L. apply size_alphabet.
Qed.

Lemma score_reset e word r e1 : reset e word r = Some e1 → score e1 = 0%Z.
Proof.
  unfold reset. destruct (match word with Some w => _ | None => _ end) as [w|];
    [|done].
  cbn [mbind option_bind]. intros [= <-]. unfold score, revealed.
  assert (Hnone : ∀ (g : gset string) l,
            g = ∅ → length (filter (λ c, c ∈ g) l) = 0%nat).
  { intros g l ->. induction l as [|x l IH]; [done|].
    rewrite filter_cons, decide_False by set_solver. done. }
  rewrite Hnone by done. done.
Qed.

(** What a game leaves of the environment it started from. *)
Lemma game_frame e0 e :
  reachable lowercase e0 e →
  word_list e = word_list e0 ∧ max_wrong e = max_wrong e0
  ∧ (0 <= wrong_guesses e)%Z.
Proof.
  intros Hr. destruct (reachable_invariant _ _ _ Hr) as (_ & [Hw _] & Hm).
  split; [by eapply reachable_word_list|]. by split.
Qed.


(** *** A game of [train] *)

Lemma train_game_S fuel O t ag e state total_reward wrong :
  train_game (S fuel) O t ag e state total_reward wrong
  = if st_game_over state then Ok (t, ag, e, state, total_reward, wrong)
    else
      match turn O t true ag e state with
      | None => Raised
      | Some (ag, action, e, (next_state, reward, done, info)) =>
          let total_reward := (total_reward + reward)%Z in
          let wrong :=
            if negb (correct info) && negb (repeated info) then (wrong + 1)%Z
            else wrong in
          let ag := update_q_value ag state action (inject_Z reward) next_state done in
          train_game fuel O (S t) ag e next_state total_reward wrong
      end.
Proof. reflexivity. Qed.

Lemma update_q_value_settings ag state action reward next_state done :
  settings (update_q_value ag state action reward next_state done) = settings ag.
Proof.
  unfold update_q_value. destruct (q_read _ _ _) as [cur qt].
  destruct done; [done|]. by destruct (q_row _ _).
Qed.

Lemma settings_hmm ag ag' : settings ag' = settings ag → hmm ag' = hmm ag.
Proof. by intros [= -> _ _ _ _ _]. Qed.

Lemma train_game_spec O fuel : ∀ t ag e total_reward wrong,
  lawful O → wf_trained (hmm ag) → in_play e →
  (size (get_available_actions e) <= fuel)%nat →
  ∃ t' ag' e' total_reward' wrong',
    train_game fuel O t ag e (_get_state e) total_reward wrong
    = Ok (t', ag', e', _get_state e', total_reward', wrong')
    ∧ game_over e' = true
    ∧ wrong' = (wrong + (wrong_guesses e' - wrong_guesses e))%Z
    ∧ total_reward' = (total_reward + (score e' - score e))%Z
    ∧ settings ag' = settings ag
    ∧ in_play e'
    ∧ (∀ e0, reachable lowercase e0 e → reachable lowercase e0 e')
    ∧ (t <= t' <= t + size (get_available_actions e))%nat
    ∧ target_word e' = target_word e.
Proof.
  induction fuel as [|fuel IH]; intros t ag e total wrong Hlaw Hwf Hplay Hsize.
  - destruct (game_over e) eqn:Hover.
    + exists t, ag, e, total, wrong. cbn [train_game _get_state st_game_over].
      rewrite Hover. split; [done|]. split; [done|]. split; [lia|].
      split; [lia|]. split; [done|]. split; [done|]. split; [done|].
      split; [lia|done].
    + destruct Hplay as ([e0 Hr] & Hp & _).
      pose proof (no_action_left e0 e Hr Hp Hover). lia.
  - destruct (game_over e) eqn:Hover.
    + exists t, ag, e, total, wrong. cbn [train_game _get_state st_game_over].
      rewrite Hover. split; [done|]. split; [done|]. split; [lia|].
      split; [lia|]. split; [done|]. split; [done|]. split; [done|].
      split; [lia|done].
    + destruct (turn_spec O t true ag e Hlaw Hwf Hplay Hover)
        as (ag1 & action & e1 & st & reward & done & info & Hturn & -> & -> & Hsame
            & Hplay1 & Hreach & Ha & Hav & Hrep & Hcor & Hwrong & Htgt & _ & Hscore).
      set (ag2 := update_q_value ag1 (_get_state e) action (inject_Z reward)
                    (_get_state e1) (game_over e1)).
      assert (Hset2 : settings ag2 = settings ag).
      { unfold ag2. rewrite update_q_value_settings. apply Hsame. }
      assert (Hwf2 : wf_trained (hmm ag2)) by (by rewrite (settings_hmm _ _ Hset2)).
      assert (Hsize1 : (size (get_available_actions e1) <= fuel)%nat).
      { rewrite Hav. by apply size_after_turn. }
      destruct (IH (S t) ag2 e1 (total + reward)%Z
                  (if correct info then wrong else (wrong + 1)%Z)
                  Hlaw Hwf2 Hplay1 Hsize1)
        as (t' & ag' & e' & total' & wrong' & Hgame & Hover' & Hw' & Htot'
            & Hset' & Hplay' & Hreach' & Ht' & Htgt').
      exists t', ag', e', total', wrong'.
      split.
      { rewrite train_game_S.
        change (st_game_over (_get_state e)) with (game_over e).
        rewrite Hover, Hturn, Hrep. cbn zeta. fold ag2.
        destruct (correct info); exact Hgame. }
      split; [done|]. split.
      { rewrite Hw', Hwrong. destruct (correct info); lia. }
      split; [lia|]. split; [congruence|]. split; [done|].
      split; [by auto|]. split; [|congruence].
      assert (size (get_available_actions e1) < size (get_available_actions e))%nat.
      { rewrite Hav. rewrite size_difference by (by apply singleton_subseteq_l).
        rewrite size_singleton.
        assert (0 < size (get_available_actions e))%nat; [|lia].
        destruct (decide (size (get_available_actions e) = 0%nat)) as [Hz|]; [|lia].
        apply size_empty_inv in Hz. apply leibniz_equiv in Hz. rewrite Hz in Ha.
        by apply not_elem_of_empty in Ha. }
      lia.
Qed.

Lemma decay_epsilon_settings a b :
  settings a = settings b → settings (decay_epsilon a) = settings (decay_epsilon b).
Proof.
  unfold settings, decay_epsilon. cbn. by intros [= -> -> -> -> -> ->].
Qed.

Lemma decayed_settings_ext n : ∀ a b,
  settings a = settings b → settings (decayed n a) = settings (decayed n b).
Proof.
  induction n as [|n IH]; intros a b Hab; [done|].
  change (settings (decay_epsilon (decayed n a))
          = settings (decay_epsilon (decayed n b))).
  by apply decay_epsilon_settings, IH.
Qed.

Lemma decayed_shift n a : decayed n (decay_epsilon a) = decayed (S n) a.
Proof. unfold decayed. by rewrite Nat.iter_succ_r. Qed.

(** The entries that the episodes of [train] add to the statistics, as
    the states in which the games ended tell them. *)
Lemma train_episodes_spec O fuel todo : ∀ episode t ag e stats,
  lawful O → wf_trained (hmm ag) →
  word_list e ≠ [] → Forall playable (word_list e) → (26 <= fuel)%nat →
  ∃ t' ag' e' stats' finals,
    train_episodes fuel O t ag e stats episode todo = Ok (t', ag', e', stats')
    ∧ settings ag' = settings (decayed todo ag)
    ∧ word_list e' = word_list e ∧ max_wrong e' = max_wrong e
    ∧ length finals = todo
    ∧ Forall (λ f, game_over f = true ∧ in_play f
                   ∧ target_word f ∈ word_list e ∧ max_wrong f = max_wrong e)
             finals
    ∧ episodes stats' = episodes stats ++ seq episode todo
    ∧ rewards stats' = rewards stats ++ (score <$> finals)
    ∧ stat_wins stats'
      = stat_wins stats ++ ((λ f, if won f then 1 else 0)%Z <$> finals)
    ∧ stat_wrong_guesses stats' = stat_wrong_guesses stats ++ (wrong_guesses <$> finals)
    ∧ (t' <= t + 26 * todo)%nat.
Proof.
  induction todo as [|todo IH]; intros episode t ag e stats Hlaw Hwf Hne Hall Hfuel.
  - exists t, ag, e, stats, []. cbn [train_episodes seq fmap list_fmap length].
    rewrite !app_nil_r. repeat (split; [done|]). lia.
  - destruct (reset_in_play e (word_index O episode) Hne Hall)
      as (e1 & Hreset & Hplay & Hreach & Hsize & Hw0).
    destruct (train_game_spec O fuel t ag e1 0 0 Hlaw Hwf Hplay)
      as (t1 & ag1 & e2 & total & wrong & Hgame & Hover & Hwrong & Htotal & Hset
          & Hplay2 & Hreach2 & Ht1 & Htgt); [lia|].
    destruct (game_frame e e2 (Hreach2 e Hreach)) as (Hwl & Hmw & Hw2).
    pose proof (score_reset e None _ e1 Hreset) as Hscore1.
    assert (Htarget : target_word e2 ∈ word_list e).
    { rewrite Htgt. unfold reset in Hreset.
      destruct (word_list e !! _) as [w|] eqn:Hw; [|done]. cbn in Hreset.
      injection Hreset as <-. cbn. by eapply list_elem_of_lookup_2. }
    set (stats1 := mkStats (episodes stats ++ [episode]) (rewards stats ++ [total])
                     (stat_wins stats ++ [if st_won (_get_state e2) then 1 else 0]%Z)
                     (stat_wrong_guesses stats ++ [wrong])).
    assert (Hwf1 : wf_trained (hmm (decay_epsilon ag1))).
    { change (hmm (decay_epsilon ag1)) with (hmm ag1).
      by rewrite (settings_hmm _ _ Hset). }
    destruct (IH (S episode) t1 (decay_epsilon ag1) e2 stats1 Hlaw Hwf1)
      as (t' & ag' & e' & stats' & finals & Hrest & Hset' & Hwl' & Hmw' & Hlen
          & Hfinals & Hep & Hrw & Hwins & Hwg & Ht'); [by rewrite Hwl..|done|].
    exists t', ag', e', stats', (e2 :: finals).
    split.
    { cbn [train_episodes]. rewrite Hreset, Hgame. exact Hrest. }
    split.
    { rewrite Hset', <- decayed_shift. apply decayed_settings_ext.
      by apply decay_epsilon_settings. }
    split; [congruence|]. split; [congruence|]. split; [cbn; by rewrite Hlen|].
    split.
    { constructor; [split; [done|]; split; [done|]; by split|].
      eapply Forall_impl; [exact Hfinals|]. cbn.
      intros f (? & ? & ? & ?). rewrite <- Hwl, <- Hmw.
      split; [done|]; split; [done|]; by split. }
    rewrite Hep, Hrw, Hwins, Hwg. unfold stats1. cbn [episodes rewards stat_wins
      stat_wrong_guesses seq fmap list_fmap].
    rewrite <- !app_assoc. cbn [app].
    rewrite Hscore1, Hw0 in *.
    replace total with (score e2) by lia.
    replace wrong with (wrong_guesses e2) by lia.
    repeat (split; [done|]). lia.
Qed.

End LoopFacts.

(** * The game loops: what [evaluate] and [train] return *)

Module LoopExtras.

Import Env EnvSpec EnvFacts EnvExtras HMM PredictSpec TrainSpec Corpus.
Import Agent AgentSpec LearnSpec Loops LoopSpec AgentExtras TrainExtras LoopFacts.
Local Open Scope list_scope.

(** X15. Every word that the environment reads from a corpus file of
    ASCII text can be played to its end: it has at least one letter, and
    its letters are among the 26 that [get_available_actions] offers. *)
Theorem corpus_words_playable (strip : string → string) (lines : list string)
    (max_wrong : Z) :
  ascii_corpus strip lines →
  ∀ w, w ∈ word_list (new_env strip lines max_wrong) →
       w ≠ "" ∧ ∀ c, c ∈ chars w → c ∈ alphabet.
Proof.
  intros _ w Hw. by apply (proj1 (Forall_forall _ _) (playable_corpus strip lines)).
Qed.




(** X19. [train] on a corpus of playable words, with a predictor as
    training leaves it, returns: every episode ends within 26 turns.  It
    adds one entry per episode to each list of the statistics: the number
    of the episode, and the score, the win and the wrong guesses of the
    state in which the game of the episode ended, a game over on a word of
    the corpus.  The exploration rate is the one that [num_episodes]
    decays give, and the other settings of the agent are as before. *)
Theorem train_report (O : Chance) (fuel : nat) (ag : HangmanRLAgent)
    (e : HangmanEnvironment) (stats : Stats) (num_episodes : nat) :
  lawful O → wf_trained (hmm ag) →
  word_list e ≠ [] → Forall playable (word_list e) → (26 <= fuel)%nat →
  ∃ t ag' e' stats' finals,
    Loops.train fuel O ag e stats num_episodes = Ok (t, ag', e', stats')
    ∧ (t <= 26 * num_episodes)%nat
    ∧ settings ag' = settings (decayed num_episodes ag)
    ∧ word_list e' = word_list e
    ∧ length finals = num_episodes
    ∧ Forall (λ f, game_over f = true ∧ in_play f
                   ∧ target_word f ∈ word_list e ∧ max_wrong f = max_wrong e)
             finals
    ∧ episodes stats' = episodes stats ++ seq 0 num_episodes
    ∧ rewards stats' = rewards stats ++ (score <$> finals)
    ∧ stat_wins stats'
      = stat_wins stats ++ ((λ f, if won f then 1 else 0)%Z <$> finals)
    ∧ stat_wrong_guesses stats'
      = stat_wrong_guesses stats ++ (wrong_guesses <$> finals).
Proof.
  intros Hlaw Hwf Hne Hall Hfuel.
  destruct (train_episodes_spec O fuel num_episodes 0 0 ag e stats Hlaw Hwf Hne
              Hall Hfuel)
    as (t' & ag' & e' & stats' & finals & Htrain & Hset & Hwl & _ & Hlen & Hfin
        & Hep & Hrw & Hwins & Hwg & Ht).
  exists t', ag', e', stats', finals. unfold Loops.train.
  split; [done|]. split; [lia|]. by repeat (split; [done|]).
Qed.

End LoopExtras.

(** * The letter predictor: what the two scorings compute *)

Module ScoringExtras.

Import HMM PredictSpec ScoreSpec SumFacts PredictFacts ScoringFacts.
Local Open Scope Q_scope.
Local Open Scope list_scope.

Lemma default_add_to k x (d : gmap string Q) l :
  default 0 (add_to k x d !! l)
  == default 0 (d !! l) + (if decide (l = k) then x else 0).
Proof.
  unfold add_to. destruct (decide (l = k)) as [->|Hne].
  - rewrite lookup_insert_eq. reflexivity.
  - rewrite lookup_insert_ne by done. ring.
Qed.

Lemma blank_hits_cons l c masked x word :
  blank_hits l (c :: masked) (x :: word)
  = ((if decide (c = "_" ∧ x = l) then 1 else 0) + blank_hits l masked word)%nat.
Proof.
  unfold blank_hits. cbn [zip zip_with]. rewrite filter_cons. cbn [fst snd].
  by destruct (decide (c = "_" ∧ x = l)).
Qed.

Lemma inject_nat_plus (a b : nat) :
  inject_Z (Z.of_nat (a + b)) == inject_Z (Z.of_nat a) + inject_Z (Z.of_nat b).
Proof. by rewrite Nat2Z.inj_add, inject_Z_plus. Qed.

(** *** Frequency-based scoring *)

Lemma frequency_word_counts word (remaining : gset string) masked :
  ∀ pos scores,
  (length masked + pos <= length word)%nat →
  ∃ scores', frequency_word word remaining pos masked scores = Some scores'
    ∧ ∀ l, default 0 (scores' !! l)
           == default 0 (scores !! l)
              + (if decide (l ∈ remaining)
                 then inject_Z (Z.of_nat (blank_hits l masked (drop pos word)))
                 else 0).
Proof.
  induction masked as [|c masked IH]; intros pos scores Hlen.
  - exists scores. split; [done|]. intros l. unfold blank_hits. cbn.
    case_decide; ring.
  - cbn [length] in Hlen.
    destruct (lookup_lt_is_Some_2 word pos) as [x Hx]; [lia|].
    rewrite (drop_S _ _ _ Hx). cbn [frequency_word]. rewrite Hx.
    destruct (decide (c = "_")) as [->|Hc]; cbn [mbind option_bind].
    + destruct (IH (S pos)
                  (if decide (x ∈ remaining) then add_to x 1 scores else scores))
        as (scores' & -> & Hval); [lia|].
      exists scores'. split; [done|]. intros l. rewrite Hval, blank_hits_cons.
      destruct (decide (l ∈ remaining)) as [Hl|Hl].
      * rewrite inject_nat_plus.
        destruct (decide (x ∈ remaining)) as [Hin|Hout].
        -- rewrite default_add_to.
           destruct (decide (l = x)) as [->|Hne].
           ++ rewrite (decide_True (P := _ ∧ _)) by done.
              change (inject_Z (Z.of_nat 1)) with 1. ring.
           ++ rewrite (decide_False (P := _ ∧ _)) by (intros [_ ?]; congruence).
              change (inject_Z (Z.of_nat 0)) with 0. ring.
        -- rewrite (decide_False (P := _ ∧ _)) by (intros [_ ->]; done).
           change (inject_Z (Z.of_nat 0)) with 0. ring.
      * destruct (decide (x ∈ remaining)) as [Hin|Hout]; [|ring].
        rewrite default_add_to.
        rewrite (decide_False (P := l = x)) by (intros ->; done). ring.
    + destruct (IH (S pos) scores) as (scores' & -> & Hval); [lia|].
      exists scores'. split; [done|]. intros l. rewrite Hval, blank_hits_cons.
      rewrite (decide_False (P := _ ∧ _)) by (by intros [? _]). reflexivity.
Qed.

Lemma frequency_loop_counts masked_word (remaining : gset string) ws :
  ∀ scores,
  Forall (λ w, String.length w = String.length masked_word) ws →
  ∃ scores', frequency_loop ws masked_word remaining scores = Some scores'
    ∧ ∀ l, default 0 (scores' !! l)
           == default 0 (scores !! l)
              + (if decide (l ∈ remaining)
                 then inject_Z (Z.of_nat (corpus_hits l masked_word ws))
                 else 0).
Proof.
  induction ws as [|w ws IH]; intros scores Hws.
  - exists scores. split; [done|]. intros l. unfold corpus_hits. cbn.
    case_decide; ring.
  - apply Forall_cons in Hws as [Hw Hws]. cbn [frequency_loop].
    destruct (frequency_word_counts (chars w) remaining (chars masked_word) 0 scores)
      as (s1 & -> & H1); [rewrite !chars_length; lia|].
    cbn [mbind option_bind]. destruct (IH s1 Hws) as (scores' & -> & H2).
    exists scores'. split; [done|]. intros l. rewrite H2, H1.
    change (corpus_hits l masked_word (w :: ws))
      with (blank_hits l (chars masked_word) (chars w)
            + corpus_hits l masked_word ws)%nat.
    change (drop 0 (chars w)) with (chars w).
    case_decide; [|ring]. rewrite inject_nat_plus. ring.
Qed.

(** X20. [_frequency_based_scoring] on words of the length of the mask
    never fails, and the score of a letter is the number of times the
    letter stands in a word at a blank position of the mask.  Only
    letters of [remaining_letters] with at least one such occurrence
    have a score. *)
Theorem frequency_scoring_counts (ws : list string) (masked_word : string)
    (remaining_letters : gset string) :
  Forall (λ w, String.length w = String.length masked_word) ws →
  ∃ scores,
    _frequency_based_scoring ws masked_word remaining_letters = Some scores
    ∧ ∀ letter,
        match scores !! letter with
        | Some v =>
            letter ∈ remaining_letters
            ∧ (0 < corpus_hits letter masked_word ws)%nat
            ∧ v == inject_Z (Z.of_nat (corpus_hits letter masked_word ws))
        | None =>
            letter ∉ remaining_letters ∨ corpus_hits letter masked_word ws = 0%nat
        end.
Proof.
  intros Hws. unfold _frequency_based_scoring.
  destruct (frequency_loop_counts masked_word remaining_letters ws ∅ Hws)
    as (scores & Hs & Hval).
  destruct (frequency_loop_spec masked_word remaining_letters ws ∅ Hws)
    as (scores2 & Hs2 & Hdom); [by rewrite dom_empty_L|].
  assert (scores2 = scores) as -> by congruence.
  assert (Hpos : positive scores).
  { eapply PositiveFacts.frequency_loop_positive; [apply positive_empty|done]. }
  exists scores. split; [done|]. intros l. specialize (Hval l).
  rewrite lookup_empty in Hval. cbn [default from_option id] in Hval.
  destruct (scores !! l) as [v|] eqn:Hl; cbn [default from_option id] in Hval.
  - assert (Hin : l ∈ remaining_letters) by (apply Hdom, elem_of_dom; eauto).
    rewrite decide_True in Hval by done. rewrite Qplus_0_l in Hval.
    split; [done|]. split; [|done].
    apply Hpos in Hl. rewrite Hval in Hl.
    change 0 with (inject_Z 0) in Hl. rewrite <- Zlt_Qlt in Hl. lia.
  - destruct (decide (l ∈ remaining_letters)) as [Hin|Hout]; [|by left].
    right. rewrite Qplus_0_l in Hval.
    change 0 with (inject_Z 0) in Hval. symmetry in Hval.
    apply (proj1 (inject_Z_injective _ _)) in Hval. lia.
Qed.

(** *** Position-based scoring *)

Lemma score_position_mass ep (remaining : gset string) pos e scores :
  ep !! pos = Some e →
  ∃ scores', score_position ep remaining pos scores = Some scores'
    ∧ ∀ l, default 0 (scores' !! l)
           == default 0 (scores !! l)
              + (if decide (l ∈ remaining) then default 0 (e !! l) else 0).
Proof.
  intros He. unfold score_position.
  destruct (decide (remaining = ∅)) as [->|Hne].
  - exists scores. split; [done|]. intros l.
    rewrite decide_False by apply not_elem_of_empty. ring.
  - rewrite He. cbn [mbind option_bind]. eexists. split; [done|].
    pose (P := λ (r : gmap string Q) (X : gset string),
            ∀ l, default 0 (r !! l)
                 == default 0 (scores !! l)
                    + (if decide (l ∈ X) then default 0 (e !! l) else 0)).
    apply (set_fold_ind_L P); unfold P.
    + intros l. rewrite decide_False by apply not_elem_of_empty. ring.
    + intros x X r Hx IH l. specialize (IH l).
      destruct (e !! x) as [p|] eqn:Hp.
      * rewrite default_add_to, IH.
        destruct (decide (l = x)) as [->|Hlx].
        -- rewrite (decide_False (P := x ∈ X)) by done.
           rewrite (decide_True (P := x ∈ {[x]} ∪ X)) by set_solver.
           rewrite Hp. cbn [default from_option id]. ring.
        -- destruct (decide (l ∈ X)).
           ++ rewrite (decide_True (P := l ∈ {[x]} ∪ X)) by set_solver. ring.
           ++ rewrite (decide_False (P := l ∈ {[x]} ∪ X)) by set_solver. ring.
      * rewrite IH. destruct (decide (l = x)) as [->|Hlx].
        -- rewrite (decide_False (P := x ∈ X)) by done.
           rewrite (decide_True (P := x ∈ {[x]} ∪ X)) by set_solver.
           rewrite Hp. reflexivity.
        -- destruct (decide (l ∈ X)).
           ++ by rewrite (decide_True (P := l ∈ {[x]} ∪ X)) by set_solver.
           ++ by rewrite (decide_False (P := l ∈ {[x]} ∪ X)) by set_solver.
Qed.

Lemma emission_mass_cons l c masked e ep :
  emission_mass l (c :: masked) (e :: ep)
  == (if decide (c = "_") then default 0 (e !! l) else 0) + emission_mass l masked ep.
Proof. unfold emission_mass. cbn [zip zip_with fmap list_fmap]. by rewrite sum_cons. Qed.

Lemma position_loop_mass ep (remaining : gset string) masked :
  ∀ pos scores,
  (length masked + pos <= length ep)%nat →
  ∃ scores', position_loop ep remaining pos masked scores = Some scores'
    ∧ ∀ l, default 0 (scores' !! l)
           == default 0 (scores !! l)
              + (if decide (l ∈ remaining)
                 then emission_mass l masked (drop pos ep) else 0).
Proof.
  induction masked as [|c masked IH]; intros pos scores Hlen.
  - exists scores. split; [done|]. intros l. unfold emission_mass, sum. cbn.
    case_decide; ring.
  - cbn [length] in Hlen.
    destruct (lookup_lt_is_Some_2 ep pos) as [e He]; [lia|].
    rewrite (drop_S _ _ _ He). cbn [position_loop].
    destruct (decide (c = "_")) as [->|Hc].
    + destruct (score_position_mass ep remaining pos e scores He)
        as (s1 & -> & H1).
      cbn [mbind option_bind].
      destruct (IH (S pos) s1) as (scores' & -> & H2); [lia|].
      exists scores'. split; [done|]. intros l.
      rewrite H2, H1. destruct (decide (l ∈ remaining)); [|ring].
      rewrite emission_mass_cons. rewrite (decide_True (P := _ = _)) by done.
      ring.
    + cbn [mbind option_bind].
      destruct (IH (S pos) scores) as (scores' & -> & H2); [lia|].
      exists scores'. split; [done|]. intros l.
      rewrite H2. destruct (decide (l ∈ remaining)); [|ring].
      rewrite emission_mass_cons. rewrite (decide_False (P := _ = _)) by done.
      ring.
Qed.

(** X21. [_position_based_scoring] with a table for each position of the
    mask never fails: no index is out of range.  It scores letters of
    [remaining_letters] only, and the score of such a letter is the sum
    of its emission probabilities at the blank positions of the mask. *)
Theorem position_scoring_sums (masked_word : string)
    (emission_probs : list (gmap string Q)) (remaining_letters : gset string) :
  (String.length masked_word <= length emission_probs)%nat →
  ∃ scores,
    _position_based_scoring masked_word emission_probs remaining_letters
    = Some scores
    ∧ dom scores ⊆ remaining_letters
    ∧ ∀ letter, letter ∈ remaining_letters →
        default 0 (scores !! letter)
        == emission_mass letter (chars masked_word) emission_probs.
Proof.
  intros Hlen. unfold _position_based_scoring.
  destruct (position_loop_mass emission_probs remaining_letters (chars masked_word)
              0 ∅) as (scores & Hs & Hval); [rewrite chars_length; lia|].
  destruct (position_loop_spec emission_probs remaining_letters (chars masked_word)
              0 ∅) as (scores2 & Hs2 & Hdom);
    [rewrite chars_length; lia|by rewrite dom_empty_L|].
  assert (scores2 = scores) as -> by congruence.
  exists scores. split; [done|]. split; [done|]. intros l Hl.
  rewrite Hval, lookup_empty. rewrite decide_True by done.
  change (drop 0 emission_probs) with emission_probs. apply Qplus_0_l.
Qed.

End ScoringExtras.

(** * The scripts: the curves of the training plot *)

Module PipelineExtras.

Import Loops Pipeline.
Local Open Scope list_scope.

Lemma sum_int_foldl (xs : list Z) : ∀ a, foldl Z.add a xs = (a + sum_int xs)%Z.
Proof.
  unfold sum_int. induction xs as [|x xs IH]; intros a; cbn [foldl]; [lia|].
  rewrite (IH (a + x)%Z), (IH (0 + x)%Z). lia.
Qed.

Lemma sum_int_cons x xs : sum_int (x :: xs) = (x + sum_int xs)%Z.
Proof. unfold sum_int at 1. cbn [foldl]. rewrite sum_int_foldl. lia. Qed.

(** The sum of zeros and ones is between zero and their number. *)
Lemma sum_int_flags (xs : list Z) :
  Forall (λ w, w = 0 ∨ w = 1)%Z xs → (0 <= sum_int xs <= Z.of_nat (length xs))%Z.
Proof.
  induction 1 as [|x xs Hx _ IH]; [done|].
  rewrite sum_int_cons. cbn [length]. lia.
Qed.

Lemma slice_length (xs : list Z) i :
  (i + window <= length xs)%nat → length (slice xs i) = window.
Proof. intros Hi. unfold slice. rewrite length_take, length_drop. lia. Qed.

(** X22. The win-rate curve of [plot_training_results], for a list of
    wins that holds zeros and ones: it is drawn when there are at least
    100 entries, it has one point for each full window of 100 entries but
    the last one (so none for exactly 100 entries), and every point is a
    percentage between 0 and 100. *)
Theorem win_rate_percent (wins : list Z) :
  Forall (λ w, w = 0 ∨ w = 1)%Z wins →
  match win_rate wins with
  | Some curve =>
      (100 <= length wins)%nat
      ∧ length curve = (length wins - 100)%nat
      ∧ Forall (λ p, 0 <= p ∧ p <= 100)%Q curve
  | None => (length wins < 100)%nat
  end.
Proof.
  intros Hwins. unfold win_rate.
  destruct (decide (window <= length wins)%nat) as [Hlen|Hlen];
    unfold window in Hlen; [|lia].
  split; [done|]. split; [by rewrite length_fmap, length_seq|].
  apply Forall_fmap, Forall_forall. intros i Hi%elem_of_seq.
  unfold window in Hi.
  assert (Hslice : Forall (λ w, w = 0 ∨ w = 1)%Z (slice wins i)).
  { unfold slice. by apply Forall_take, Forall_drop. }
  apply sum_int_flags in Hslice. rewrite slice_length in Hslice by (unfold window; lia).
  change ((0 <= inject_Z (sum_int (slice wins i)) / inject_Z (Z.of_nat window) * 100)%Q
          ∧ (inject_Z (sum_int (slice wins i)) / inject_Z (Z.of_nat window) * 100
             <= 100)%Q).
  set (s := sum_int (slice wins i)) in *. unfold window in *.
  assert (H0 : (0 <= inject_Z s)%Q).
  { change 0%Q with (inject_Z 0). rewrite <- Zle_Qle. lia. }
  assert (H1 : (inject_Z s <= 100)%Q).
  { change 100%Q with (inject_Z 100). rewrite <- Zle_Qle. lia. }
  change (inject_Z (Z.of_nat 100)) with 100%Q.
  assert (Heq : (inject_Z s / 100 * 100 == inject_Z s)%Q) by (by field).
  by rewrite Heq.
Qed.

End PipelineExtras.

(** * The letter predictor: what the emission tables hold *)

Module EmissionExtras.

Import HMM PredictSpec TrainSpec ScoreSpec SumFacts PredictFacts TrainFacts.
Import TableFacts ScoringExtras.
Local Open Scope Q_scope.
Local Open Scope list_scope.

(** The counts of [_train_length_model] after the words [seen]: at each
    position the total is the number of words, and the count of a letter
    is the number of words that have it there. *)
Lemma count_word_effect n word : ∀ pos ec pt,
  (length word + pos <= n)%nat → length ec = n → length pt = n →
  ∃ ec' pt',
    count_word word pos (ec, pt) = Some (ec', pt')
    ∧ length ec' = n ∧ length pt' = n
    ∧ ∀ p c t, ec !! p = Some c → pt !! p = Some t →
        ∃ c' t', ec' !! p = Some c' ∧ pt' !! p = Some t'
          ∧ (t' == t + if decide (pos <= p < pos + length word)%nat then 1 else 0)
          ∧ ∀ l, default 0 (c' !! l)
                 == default 0 (c !! l)
                    + if decide ((pos <= p)%nat ∧ word !! (p - pos)%nat = Some l)
                      then 1 else 0.
Proof.
  induction word as [|letter word IH]; intros pos ec pt Hlen Hec Hpt;
    cbn [count_word].
  - exists ec, pt. split; [done|]. split; [done|]. split; [done|].
    intros p c t Hc Ht. exists c, t. split; [done|]. split; [done|]. split.
    + rewrite decide_False by (cbn; lia). ring.
    + intros l. rewrite decide_False by (by intros [_ ?]). ring.
  - cbn [length] in Hlen.
    destruct (lookup_lt_is_Some_2 ec pos) as [c0 Hc0]; [lia|].
    destruct (lookup_lt_is_Some_2 pt pos) as [t0 Ht0]; [lia|].
    rewrite Hc0, Ht0. cbn [mbind option_bind].
    destruct (IH (S pos) (<[pos:=add_to letter 1 c0]> ec) (<[pos:=t0 + 1]> pt))
      as (ec' & pt' & Hrun & Hec' & Hpt' & Heff);
      [lia|by rewrite length_insert..|].
    exists ec', pt'. split; [done|]. split; [done|]. split; [done|].
    intros p c t Hc Ht.
    destruct (decide (p = pos)) as [->|Hp].
    + assert (c = c0) as -> by congruence. assert (t = t0) as -> by congruence.
      destruct (Heff pos (add_to letter 1 c0) (t0 + 1))
        as (c' & t' & Hc' & Ht' & Htot & Hval);
        [apply list_lookup_insert_eq; lia..|].
      exists c', t'. split; [done|]. split; [done|]. split.
      * rewrite Htot. rewrite decide_False by lia.
        rewrite decide_True by (cbn [length]; lia). ring.
      * intros l. rewrite Hval. rewrite decide_False by (intros [? _]; lia).
        rewrite default_add_to. rewrite Nat.sub_diag. cbn [lookup list_lookup].
        destruct (decide (l = letter)) as [->|Hl].
        -- rewrite (decide_True (P := _ ∧ _)) by done. ring.
        -- rewrite (decide_False (P := _ ∧ _)) by (intros [_ ?]; congruence). ring.
    + destruct (Heff p c t) as (c' & t' & Hc' & Ht' & Htot & Hval);
        [by rewrite list_lookup_insert_ne..|].
      exists c', t'. split; [done|]. split; [done|]. split.
      * rewrite Htot. cbn [length].
        destruct (decide (S pos <= p < S pos + length word)%nat).
        -- rewrite decide_True by lia. ring.
        -- rewrite decide_False by lia. ring.
      * intros l. rewrite Hval.
        destruct (decide (pos <= p)%nat) as [Hle|Hgt].
        -- assert (Hsub : (p - pos = S (p - S pos))%nat) by lia.
           rewrite Hsub. cbn [lookup list_lookup].
           destruct (decide ((S pos <= p)%nat ∧ word !! (p - S pos)%nat = Some l))
             as [[_ Hw]|Hno].
           ++ rewrite decide_True by done. ring.
           ++ rewrite decide_False; [ring|]. intros [_ Hw]. apply Hno.
              split; [lia|done].
        -- rewrite decide_False by (intros [? _]; lia).
           rewrite decide_False by (intros [? _]; lia). ring.
Qed.

Lemma at_position_cons l p w ws :
  at_position l p (w :: ws)
  = ((if decide (chars w !! p = Some l) then 1 else 0) + at_position l p ws)%nat.
Proof.
  unfold at_position. rewrite filter_cons.
  by destruct (decide (chars w !! p = Some l)).
Qed.

Lemma count_words_effect n ws : ∀ seen ec pt,
  Forall (λ w, String.length w = n) ws → length ec = n → length pt = n →
  (∀ p c t, ec !! p = Some c → pt !! p = Some t →
     t == inject_Z (Z.of_nat (length seen))
     ∧ ∀ l, default 0 (c !! l) == inject_Z (Z.of_nat (at_position l p seen))) →
  ∃ ec' pt',
    count_words ws (ec, pt) = Some (ec', pt')
    ∧ length ec' = n ∧ length pt' = n
    ∧ ∀ p c t, ec' !! p = Some c → pt' !! p = Some t →
        t == inject_Z (Z.of_nat (length (ws ++ seen)))
        ∧ ∀ l, default 0 (c !! l)
               == inject_Z (Z.of_nat (at_position l p (ws ++ seen))).
Proof.
  induction ws as [|w ws IH] using rev_ind; intros seen ec pt Hws Hec Hpt Hinv.
  - exists ec, pt. by repeat (split; [done|]).
  - apply Forall_app in Hws as [Hws [Hw _]%Forall_cons].
    destruct (IH seen ec pt Hws Hec Hpt Hinv)
      as (ec1 & pt1 & Hrun1 & Hec1 & Hpt1 & Hinv1).
    destruct (count_word_effect n (chars w) 0 ec1 pt1)
      as (ec' & pt' & Hrun & Hec' & Hpt' & Heff);
      [rewrite chars_length; lia|done..|].
    exists ec', pt'. split.
    { clear -Hrun1 Hrun. revert ec pt Hrun1.
      induction ws as [|x ws IHws]; intros ec pt Hrun1; cbn [count_words app].
      - injection Hrun1 as -> ->. by rewrite Hrun.
      - cbn [count_words] in Hrun1.
        destruct (count_word (chars x) 0 (ec, pt)) as [[ec2 pt2]|]; [|done].
        cbn [mbind option_bind] in *. by apply IHws. }
    split; [done|]. split; [done|].
    intros p c t Hc Ht.
    assert (Hp : (p < n)%nat) by (rewrite <- Hec'; by eapply lookup_lt_Some).
    destruct (lookup_lt_is_Some_2 ec1 p) as [c1 Hc1]; [lia|].
    destruct (lookup_lt_is_Some_2 pt1 p) as [t1 Ht1]; [lia|].
    destruct (Heff p c1 t1 Hc1 Ht1) as (c' & t' & Hc' & Ht' & Htot & Hval).
    assert (c' = c) as -> by congruence. assert (t' = t) as -> by congruence.
    destruct (Hinv1 p c1 t1 Hc1 Ht1) as [Ht1v Hc1v].
    assert (Hperm : ∀ l, at_position l p ((ws ++ [w]) ++ seen)
                         = ((if decide (chars w !! p = Some l) then 1 else 0)
                            + at_position l p (ws ++ seen))%nat).
    { intros l. unfold at_position. rewrite <- app_assoc. cbn [app].
      rewrite !filter_app, filter_cons, !length_app.
      destruct (decide (chars w !! p = Some l)); cbn [length]; lia. }
    split.
    + rewrite Htot, Ht1v. rewrite decide_True by (rewrite chars_length; lia).
      rewrite !length_app. cbn [length].
      change 1 with (inject_Z 1). rewrite <- inject_Z_plus.
      apply (proj2 (inject_Z_injective _ _)). lia.
    + intros l. rewrite Hval, Hc1v, Hperm. rewrite Nat.sub_0_r.
      destruct (decide (chars w !! p = Some l)) as [Hl|Hl].
      * rewrite (decide_True (P := _ ∧ _)) by (split; [lia|done]).
        rewrite inject_nat_plus. change (inject_Z (Z.of_nat 1)) with 1. ring.
      * rewrite (decide_False (P := _ ∧ _)) by (by intros [_ ?]).
        cbn [Nat.add]. ring.
Qed.

Lemma to_probs_lookup ec pt : ∀ k pos probs i table,
  to_probs ec pt pos k = Some probs → probs !! i = Some table →
  ∃ c, ec !! (pos + i)%nat = Some c
       ∧ ((c = ∅ ∧ table = ∅)
          ∨ (c ≠ ∅ ∧ ∃ t, pt !! (pos + i)%nat = Some t ∧ div_all c t = Some table)).
Proof.
  induction k as [|k IH]; intros pos probs i table; cbn [to_probs].
  - intros [= <-]. by rewrite lookup_nil.
  - destruct (ec !! pos) as [c|] eqn:Hc; [|done]. cbn [mbind option_bind].
    destruct (decide (c = ∅)) as [Hz|Hnz].
    + cbn [mbind option_bind].
      destruct (to_probs ec pt (S pos) k) as [rest|] eqn:Hrest; [|done].
      cbn [mbind option_bind]. intros [= <-]. destruct i as [|i].
      * cbn. intros [= <-]. exists c. rewrite Nat.add_0_r. split; [done|by left].
      * cbn. intros Hi. destruct (IH (S pos) rest i table Hrest Hi) as (c' & Hc' & H).
        exists c'. by rewrite <- Nat.add_succ_comm.
    + destruct (pt !! pos) as [t|] eqn:Ht; [|done]. cbn [mbind option_bind].
      destruct (div_all c t) as [r|] eqn:Hr; [|done]. cbn [mbind option_bind].
      destruct (to_probs ec pt (S pos) k) as [rest|] eqn:Hrest; [|done].
      cbn [mbind option_bind]. intros [= <-]. destruct i as [|i].
      * cbn. intros [= <-]. exists c. rewrite Nat.add_0_r. split; [done|].
        right. split; [done|]. by exists t.
      * cbn. intros Hi. destruct (IH (S pos) rest i table Hrest Hi) as (c' & Hc' & H).
        exists c'. by rewrite <- Nat.add_succ_comm.
Qed.

(** X23. [_train_length_model] on a list of words of the given length
    that is not empty returns a model, and the emission probability of
    a letter at a position is the number of words that have the letter
    at that position, divided by the number of words; a letter has a
    probability there exactly when some word has it there. *)
Theorem emission_shares (ws : list string) (n : nat) :
  ws ≠ [] → Forall (λ w, String.length w = n) ws →
  ∃ model,
    _train_length_model ws n = Some model
    ∧ length (emission_probs model) = n
    ∧ ∀ pos table, emission_probs model !! pos = Some table →
        ∀ letter,
          (is_Some (table !! letter) ↔ (0 < at_position letter pos ws)%nat)
          ∧ default 0 (table !! letter)
            == inject_Z (Z.of_nat (at_position letter pos ws))
               / inject_Z (Z.of_nat (length ws)).
Proof.
  intros Hne Hws.
  destruct (train_length_model_rows ws n Hne Hws) as (model & Hmodel & _ & Hlen & Hdist).
  exists model. split; [done|]. split; [done|].
  intros pos table Htable letter.
  unfold _train_length_model in Hmodel.
  destruct (count_words_effect n ws [] (replicate n ∅) (replicate n 0) Hws)
    as (ec & pt & Hrun & Hec & Hpt & Hinv); [by rewrite length_replicate..| |].
  { intros p c t [-> _]%lookup_replicate [-> _]%lookup_replicate.
    split; [reflexivity|]. intros l. by rewrite lookup_empty. }
  rewrite app_nil_r in Hinv. rewrite Hrun in Hmodel. cbn [mbind option_bind] in Hmodel.
  destruct (to_probs ec pt 0 n) as [probs|] eqn:Hprobs; [|done].
  cbn [mbind option_bind] in Hmodel. injection Hmodel as <-. cbn [emission_probs] in *.
  destruct (to_probs_lookup ec pt n 0 probs pos table Hprobs Htable) as (c & Hc & Hcase).
  cbn [Nat.add] in Hc, Hcase.
  assert (Hpos : positive table).
  { apply (proj1 (Forall_forall _ _) Hdist). by eapply list_elem_of_lookup_2. }
  assert (Hcount : 0 < inject_Z (Z.of_nat (length ws))).
  { change 0 with (inject_Z 0). rewrite <- Zlt_Qlt. destruct ws; [done|cbn; lia]. }
  assert (Hshare : default 0 (table !! letter)
                   == inject_Z (Z.of_nat (at_position letter pos ws))
                      / inject_Z (Z.of_nat (length ws))).
  { destruct (lookup_lt_is_Some_2 pt pos) as [t Ht].
    { rewrite Hpt, <- Hec. by eapply lookup_lt_Some. }
    destruct (Hinv pos c t Hc Ht) as [Htv Hcv]. specialize (Hcv letter).
    destruct Hcase as [[-> ->]|(Hnz & t' & Ht' & Hdiv)].
    - rewrite lookup_empty in Hcv |- *. cbn [default from_option id] in Hcv |- *.
      rewrite <- Hcv. field. intros Hz. rewrite Hz in Hcount.
      by apply Qlt_irrefl in Hcount.
    - assert (t' = t) as -> by congruence.
      assert (Hnzt : ¬ t == 0).
      { rewrite Htv. intros Hz. rewrite Hz in Hcount. by apply Qlt_irrefl in Hcount. }
      rewrite (div_all_nonzero c t Hnzt) in Hdiv. injection Hdiv as <-.
      rewrite lookup_fmap. rewrite <- Htv, <- Hcv.
      destruct (c !! letter) as [v|]; cbn [fmap option_fmap option_map default
        from_option id]; [reflexivity|]. field. exact Hnzt. }
  split; [|done]. split.
  - intros [v Hv]. apply Hpos in Hv as Hvpos. rewrite Hv in Hshare.
    cbn [default from_option id] in Hshare. rewrite Hshare in Hvpos.
    destruct (at_position letter pos ws) as [|k] eqn:Hk; [|lia].
    exfalso. change (inject_Z (Z.of_nat 0)) with 0 in Hvpos.
    unfold Qdiv in Hvpos. rewrite Qmult_0_l in Hvpos. by apply Qlt_irrefl in Hvpos.
  - intros Hk. destruct (table !! letter) as [v|] eqn:Hv; [by eauto|].
    exfalso. cbn [default from_option id] in Hshare.
    assert (Hq : 0 < inject_Z (Z.of_nat (at_position letter pos ws))
                     / inject_Z (Z.of_nat (length ws))).
    { apply Qlt_shift_div_l; [done|]. rewrite Qmult_0_l.
      change 0 with (inject_Z 0). rewrite <- Zlt_Qlt. lia. }
    rewrite <- Hshare in Hq. by apply Qlt_irrefl in Hq.
Qed.

End EmissionExtras.

(** * Scenarios for the further theorems *)

Module ExtraScenarios.

Import Env EnvSpec EnvFacts HMM PredictSpec TrainSpec Corpus Samples Games.
Import Agent AgentSpec LearnSpec Loops LoopSpec ScoreSpec Pipeline.
Import PredictClaims Scenarios.
Import EnvExtras TrainExtras AgentExtras LoopFacts LoopExtras ScoringExtras
  PipelineExtras EmissionExtras.
Local Open Scope list_scope.

(** ** The facts that the scenarios start from *)

Lemma avail_c : "c" ∈ get_available_actions e_a.
Proof.
  apply elem_of_difference. split.
  - by apply elem_of_alphabet.
  - cbn. by intros ?%elem_of_singleton.
Qed.

Lemma step_c :
  step e_a "c"
  = Some (e_ac, (_get_state e_ac, 10%Z, false, mkInfo false true (MsgCorrect "c" 1))).
Proof. vm_compute. reflexivity. Qed.

Lemma step_t :
  step e_ac "t"
  = Some (e_won, (_get_state e_won, 110%Z, true, mkInfo false true (MsgWon "cat"))).
Proof. vm_compute. reflexivity. Qed.

Lemma reach_won : reachable lowercase e0 e_won.
Proof.
  apply (reach_step lowercase e0 e_ac "t" e_won _
           (reach_step lowercase e0 e_a "c" e_ac _ reach_a eq_refl step_c)
           eq_refl step_t).
Qed.


Lemma corpus_playable : Forall playable corpus.
Proof.
  apply (playable_corpus (λ s, s) corpus).
Qed.


Lemma trained_wf_trained : wf_trained trained.
Proof.
  exact (train_wf_trained HMM.init corpus trained init_wf_trained trained_is_trained).
Qed.

Lemma lawful_fixed : lawful fixed.
Proof.
  split; [done|]. split.
  - intros t [|x xs] Hne; [done|]. cbn. by left.
  - intros t [|x xs] p Hne; [done|]. cbn. by left.
Qed.

Lemma lines_ascii : ascii_corpus (λ s, s) lines.
Proof.
  unfold ascii_corpus, ascii_text. apply (bool_decide_unpack _). vm_compute. exact I.
Qed.

Lemma lines_dog : "dog" ∈ word_list (new_env (λ s, s) lines 6).
Proof. apply (bool_decide_unpack _). vm_compute. exact I. Qed.

Lemma flags_ok : Forall (λ w, w = 0 ∨ w = 1)%Z flags.
Proof. apply Forall_replicate. by right. Qed.

Lemma corpus_lengths :
  Forall (λ w, String.length w = String.length "_a_") corpus.
Proof. repeat constructor. Qed.

(** ** The environment *)

Lemma step_never_remasks_witness :
  reachable lowercase e0 e_a
  ∧ ∃ e' out,
      step e_a "c" = Some (e', out)
      ∧ target_word e' = target_word e_a
      ∧ guessed_letters e_a ⊆ guessed_letters e'
      ∧ (wrong_guesses e_a <= wrong_guesses e' <= wrong_guesses e_a + 1)%Z
      ∧ (game_over e_a = true → game_over e' = true)
      ∧ (won e_a = true → won e' = true)
      ∧ ∀ i m, chars (masked_word e_a) !! i = Some m → m ≠ "_" →
               chars (masked_word e') !! i = Some m.
Proof.
  split; [exact reach_a | exact (step_never_remasks lowercase e0 e_a "c" reach_a)].
Defined.

Lemma won_iff_all_guessed_witness :
  reachable lowercase e0 e_won
  ∧ (won e_won = true
     ↔ target_word e_won ≠ ""
       ∧ ∀ t, t ∈ chars (target_word e_won) → t ∈ guessed_letters e_won).
Proof.
  split; [exact reach_won | exact (won_iff_all_guessed e0 e_won reach_won)].
Defined.

Lemma game_over_iff_witness :
  reachable lowercase e0 e_won ∧ (0 < max_wrong e0)%Z
  ∧ (game_over e_won = true
     ↔ won e_won = true ∨ (max_wrong e0 <= wrong_guesses e_won)%Z).
Proof.
  assert (H : (0 < max_wrong e0)%Z) by reflexivity.
  split; [exact reach_won|]. split; [exact H|].
  exact (game_over_iff e0 e_won reach_won H).
Defined.

Lemma reset_forgets_witness :
  reachable lowercase e0 e_a
  ∧ reset e_a None 1 = reset e0 None 1
  ∧ (reset e_a None 1 = None ↔ word_list e0 = [])
  ∧ ∀ e1, reset e_a None 1 = Some e1 → target_word e1 ∈ word_list e0.
Proof.
  split; [exact reach_a | exact (reset_forgets lowercase e0 e_a None 1 reach_a)].
Defined.

Lemma available_action_is_fresh_witness :
  reachable lowercase e0 e_a ∧ "c" ∈ get_available_actions e_a
  ∧ lowercase "c"
  ∧ ∃ e' st reward done info,
      step e_a "c" = Some (e', (st, reward, done, info))
      ∧ repeated info = false
      ∧ correct info = str_in "c" (target_word e_a)
      ∧ reward ≠ (-2)%Z
      ∧ get_available_actions e' = get_available_actions e_a ∖ {["c"]}.
Proof.
  split; [exact reach_a|]. split; [exact avail_c|].
  exact (available_action_is_fresh e0 e_a "c" reach_a avail_c).
Defined.

Lemma available_count_witness :
  reachable lowercase e0 e_a
  ∧ guessed_letters e_a ⊆ alphabet
  ∧ (size (get_available_actions e_a) + size (guessed_letters e_a) = 26)%nat.
Proof.
  split; [exact reach_a | exact (available_count e0 e_a reach_a)].
Defined.

(** ** The predictor and the agent *)

Lemma corpus_words_agree_witness :
  ascii_corpus (λ s, s) lines
  ∧ ∃ h, train_file (λ s, s) HMM.init lines = Some h
      ∧ (∀ n model, models h !! n = Some model →
           words model
           = filter (λ w, String.length w = n)
                    (Env.word_list (new_env (λ s, s) lines 6)))
      ∧ (∀ w, w ∈ Env.word_list (new_env (λ s, s) lines 6) →
           ∃ model, models h !! String.length w = Some model ∧ w ∈ words model).
Proof.
  split; [exact lines_ascii|].
  exact (corpus_words_agree (λ s, s) lines 6 lines_ascii).
Defined.

Lemma predict_probabilities_witness :
  wf_trained trained
  ∧ ∃ d, predict_letter_probabilities trained "_a_" {["a"]} = Some d
      ∧ ∀ letter p, d !! letter = Some p →
          (0 < p)%Q ∧ (p <= 1)%Q ∧ letter ∈ alphabet
          ∧ letter ∉ ({["a"]} : gset string).
Proof.
  split; [exact trained_wf_trained|].
  exact (predict_probabilities trained "_a_" {["a"]} trained_wf_trained).
Defined.

Lemma epsilon_schedule_witness :
  (0 <= epsilon_end tutor)%Q ∧ (epsilon_end tutor <= epsilon tutor)%Q
  ∧ (0 <= epsilon_decay tutor)%Q ∧ (epsilon_decay tutor <= 1)%Q
  ∧ (epsilon (decayed (S 3) tutor)
     == Qmax (epsilon_end tutor) (epsilon (decayed 3 tutor) * epsilon_decay tutor))%Q
  ∧ (epsilon (decayed (S 3) tutor) <= epsilon (decayed 3 tutor))%Q
  ∧ (epsilon_end tutor <= epsilon (decayed 3 tutor))%Q
  ∧ (epsilon (decayed 3 tutor) <= epsilon tutor)%Q
  ∧ ((epsilon (decayed 3 tutor) == epsilon_end tutor)%Q →
     (epsilon (decayed (S 3) tutor) == epsilon_end tutor)%Q)
  ∧ (hmm (decayed 3 tutor), learning_rate (decayed 3 tutor),
     discount_factor (decayed 3 tutor), epsilon_end (decayed 3 tutor),
     epsilon_decay (decayed 3 tutor), q_table (decayed 3 tutor))
    = (hmm tutor, learning_rate tutor, discount_factor tutor, epsilon_end tutor,
       epsilon_decay tutor, q_table tutor).
Proof.
  assert (H1 : (0 <= epsilon_end tutor)%Q) by discriminate.
  assert (H2 : (epsilon_end tutor <= epsilon tutor)%Q) by discriminate.
  assert (H3 : (0 <= epsilon_decay tutor)%Q) by discriminate.
  assert (H4 : (epsilon_decay tutor <= 1)%Q) by discriminate.
  split; [exact H1|]. split; [exact H2|]. split; [exact H3|]. split; [exact H4|].
  exact (epsilon_schedule tutor 3 H1 H2 H3 H4).
Defined.

Lemma choose_action_sound_witness :
  wf_trained (hmm tutor)
  ∧ ∃ ag' c,
      choose_action tutor s_reset ["a"; "b"] true (1 # 2) = Some (ag', c)
      ∧ sound_choice ["a"; "b"] c
      ∧ (∀ s b, q_value (q_table ag') s b = q_value (q_table tutor) s b)
      ∧ settings ag' = settings tutor.
Proof.
  split; [exact trained_wf_trained|].
  exact (choose_action_sound tutor s_reset ["a"; "b"] true (1 # 2) trained_wf_trained).
Defined.

(** ** The game loops *)

Lemma corpus_words_playable_witness :
  ascii_corpus (λ s, s) lines
  ∧ "dog" ∈ word_list (new_env (λ s, s) lines 6)
  ∧ "dog" ≠ "" ∧ ∀ c, c ∈ chars "dog" → c ∈ alphabet.
Proof.
  split; [exact lines_ascii|]. split; [exact lines_dog|].
  exact (corpus_words_playable (λ s, s) lines 6 lines_ascii "dog" lines_dog).
Defined.




Lemma train_report_witness :
  lawful fixed ∧ wf_trained (hmm tutor)
  ∧ word_list e0 ≠ [] ∧ Forall playable (word_list e0) ∧ (26 <= 26)%nat
  ∧ ∃ t ag' e' stats' finals,
      Loops.train 26 fixed tutor e0 no_stats 2 = Ok (t, ag', e', stats')
      ∧ (t <= 26 * 2)%nat
      ∧ settings ag' = settings (decayed 2 tutor)
      ∧ word_list e' = word_list e0
      ∧ length finals = 2%nat
      ∧ Forall (λ f, game_over f = true ∧ in_play f
                     ∧ target_word f ∈ word_list e0 ∧ max_wrong f = max_wrong e0)
               finals
      ∧ episodes stats' = episodes no_stats ++ seq 0 2
      ∧ rewards stats' = rewards no_stats ++ (score <$> finals)
      ∧ stat_wins stats'
        = stat_wins no_stats ++ ((λ f, if won f then 1 else 0)%Z <$> finals)
      ∧ stat_wrong_guesses stats'
        = stat_wrong_guesses no_stats ++ (wrong_guesses <$> finals).
Proof.
  assert (H1 : word_list e0 ≠ []) by discriminate.
  assert (H2 : (26 <= 26)%nat) by lia.
  split; [exact lawful_fixed|]. split; [exact trained_wf_trained|].
  split; [exact H1|]. split; [exact corpus_playable|]. split; [exact H2|].
  exact (train_report fixed 26 tutor e0 no_stats 2 lawful_fixed trained_wf_trained
           H1 corpus_playable H2).
Defined.

(** ** The scorings and the plot *)

Lemma frequency_scoring_counts_witness :
  Forall (λ w, String.length w = String.length "_a_") corpus
  ∧ ∃ scores,
      _frequency_based_scoring corpus "_a_" alphabet = Some scores
      ∧ ∀ letter,
          match scores !! letter with
          | Some v =>
              letter ∈ alphabet
              ∧ (0 < corpus_hits letter "_a_" corpus)%nat
              ∧ (v == inject_Z (Z.of_nat (corpus_hits letter "_a_" corpus)))%Q
          | None =>
              letter ∉ alphabet ∨ corpus_hits letter "_a_" corpus = 0%nat
          end.
Proof.
  split; [exact corpus_lengths|].
  exact (frequency_scoring_counts corpus "_a_" alphabet corpus_lengths).
Defined.

Lemma position_scoring_sums_witness :
  (String.length "_a_" <= length tables)%nat
  ∧ ∃ scores,
      _position_based_scoring "_a_" tables alphabet = Some scores
      ∧ dom scores ⊆ alphabet
      ∧ ∀ letter, letter ∈ alphabet →
          (default 0 (scores !! letter)
           == emission_mass letter (chars "_a_") tables)%Q.
Proof.
  assert (H : (String.length "_a_" <= length tables)%nat) by (cbn; lia).
  split; [exact H|].
  exact (position_scoring_sums "_a_" tables alphabet H).
Defined.

Lemma emission_shares_witness :
  corpus ≠ [] ∧ Forall (λ w, String.length w = 3%nat) corpus
  ∧ ∃ model,
      _train_length_model corpus 3 = Some model
      ∧ length (emission_probs model) = 3%nat
      ∧ ∀ pos table, emission_probs model !! pos = Some table →
          ∀ letter,
            (is_Some (table !! letter) ↔ (0 < at_position letter pos corpus)%nat)
            ∧ (default 0 (table !! letter)
               == inject_Z (Z.of_nat (at_position letter pos corpus))
                  / inject_Z (Z.of_nat (length corpus)))%Q.
Proof.
  assert (H : corpus ≠ []) by discriminate.
  split; [exact H|]. split; [exact corpus_lengths|].
  exact (emission_shares corpus 3 H corpus_lengths).
Defined.

Lemma win_rate_percent_witness :
  Forall (λ w, w = 0 ∨ w = 1)%Z flags
  ∧ match win_rate flags with
    | Some curve =>
        (100 <= length flags)%nat
        ∧ length curve = (length flags - 100)%nat
        ∧ Forall (λ p, 0 <= p ∧ p <= 100)%Q curve
    | None => (length flags < 100)%nat
    end.
Proof.
  split; [exact flags_ok | exact (win_rate_percent flags flags_ok)].
Defined.

End ExtraScenarios.

